(** * Automata-Theory: regex conversions, Eilenberg machines and DFSM reduction

    A shallow embedding of the three Python modules of the repository
    ([regexConversions.py], [EilenbergMachine.py], [DFSM.py]) together with
    the properties their specification states about them.

    Python lists are Coq lists read and updated by index, dictionaries are
    [gmap]s, exceptions are the [Raise] outcome of a small result monad and
    [while] loops whose termination is not structural take a fuel argument
    (outcome [OutOfFuel] when it runs out). *)

From stdpp Require Import base list gmap strings sorting.
From Stdlib Require Import ZArith Ascii.

Local Open Scope nat_scope.

(** ** Python outcomes *)

Module Py.

Inductive exn := IndexError | KeyError | TypeError | AttributeError | ValueError.

Inductive res (A : Type) : Type :=
| Ok (a : A)
| Raise (e : exn)
| OutOfFuel.
Arguments Ok {A} a.
Arguments Raise {A} e.
Arguments OutOfFuel {A}.

Definition bind {A B} (m : res A) (f : A → res B) : res B :=
  match m with
  | Ok a => f a
  | Raise e => Raise e
  | OutOfFuel => OutOfFuel
  end.

(** A [for x in l] loop threading a state [b] through a fallible body. *)
Fixpoint foldM {A B} (f : B → A → res B) (l : list A) (b : B) : res B :=
  match l with
  | [] => Ok b
  | x :: l' => bind (f b x) (foldM f l')
  end.

(** [l[i]] for a non-negative index. *)
Definition getitem {A} (l : list A) (i : nat) : res A :=
  match l !! i with
  | Some x => Ok x
  | None => Raise IndexError
  end.

(** [l[i] = x]. *)
Definition setitem {A} (l : list A) (i : nat) (x : A) : res (list A) :=
  if decide (i < length l) then Ok (<[i:=x]> l) else Raise IndexError.

(** [d[k]] on a dictionary. *)
Definition getkey (m : gmap nat nat) (k : nat) : res nat :=
  match m !! k with
  | Some x => Ok x
  | None => Raise KeyError
  end.

(** [l.__contains__(x)]. *)
Definition contains `{EqDecision A} (l : list A) (x : A) : bool :=
  bool_decide (x ∈ l).

(** [t[i].append(x)] on a list of lists. *)
Definition append_to {A} (t : list (list A)) (i : nat) (x : A) : res (list (list A)) :=
  bind (getitem t i) (fun row => Ok (<[i:=row ++ [x]]> t)).

(** [l.remove(x)]: drops the first element equal to [x]. *)
Fixpoint list_remove `{EqDecision A} (x : A) (l : list A) : res (list A) :=
  match l with
  | [] => Raise ValueError
  | y :: l' => if decide (y = x) then Ok l' else bind (list_remove x l') (fun r => Ok (y :: r))
  end.

(** How many numbers below [j] satisfy [P]: the counter of a renumbering loop
    [for s in range(n): if P(s): new_number += 1] when it reaches [j]. *)
Definition count_below (P : nat → Prop) `{∀ x, Decision (P x)} (j : nat) : nat :=
  length (filter P (seq 0 j)).

(** The call came back, with a value or with an exception. *)
Definition finishes {A} (r : res A) : Prop :=
  match r with
  | OutOfFuel => False
  | _ => True
  end.

End Py.

Export Py.

Notation "'do' x <- m ; f" := (bind m (fun x => f))
  (at level 10, x name, m at level 100, f at level 200, only parsing).

(** ** DFSM.py *)

Module Dfsm.

Record DFSM := mkDFSM {
  alphabet : list ascii;
  number_states : nat;
  transitions_between_states : list (list (nat * ascii));
  initial_state : nat;
  acceptable_states : list nat
}.

(** The [for (s, c) in row: if c == char: return s] scan; [-1] when no edge
    carries [char]. *)
Fixpoint first_edge (row : list (nat * ascii)) (char : ascii) : Z :=
  match row with
  | [] => (-1)%Z
  | (s, c) :: row' => if decide (c = char) then Z.of_nat s else first_edge row' char
  end.

Definition _transition (d : DFSM) (state : nat) (char : ascii) : res Z :=
  do row <- getitem (transitions_between_states d) state;
  Ok (first_edge row char).

(** *** eliminate_unreachable_states *)

(** Body of [for (s, c) in transitions[state]]: marks and enqueues [s]. *)
Definition visit (uq : list bool * list nat) (e : nat * ascii) : res (list bool * list nat) :=
  do u <- getitem uq.1 e.1;
  if u then Ok uq else Ok (<[e.1:=true]> uq.1, uq.2 ++ [e.1]).

(** The [while not q.empty()] loop; the queue is a list read from its head. *)
Fixpoint bfs (d : DFSM) (fuel : nat) (used : list bool) (q : list nat) : res (list bool) :=
  match q with
  | [] => Ok used
  | state :: q' =>
    match fuel with
    | 0 => OutOfFuel
    | S fuel' =>
      do row <- getitem (transitions_between_states d) state;
      do uq <- foldM visit row (used, q');
      bfs d fuel' uq.1 uq.2
    end
  end.

(** Body of the renumbering loop: the pair is [(new_state_numbers, new_number)]. *)
Definition renumber (used : list bool) (nn : gmap nat nat * nat) (s : nat) : res (gmap nat nat * nat) :=
  do u <- getitem used s;
  if u then Ok (<[s:=nn.2]> nn.1, S nn.2) else Ok nn.

(** Body of [for (state, char) in transitions[s]] when the new rows are
    filled: [new_transitions[new_state_numbers[s]].append(...)]. *)
Definition copy_edge (used : list bool) (nsn : gmap nat nat) (s : nat)
    (t : list (list (nat * ascii))) (e : nat * ascii) : res (list (list (nat * ascii))) :=
  do u <- getitem used e.1;
  if u then
    do i <- getkey nsn s;
    do _ <- getitem t i;
    do j <- getkey nsn e.1;
    append_to t i (j, e.2)
  else Ok t.

(** Body of [for s in range(number_states)] of the same loop. *)
Definition copy_row (d : DFSM) (used : list bool) (nsn : gmap nat nat)
    (t : list (list (nat * ascii))) (s : nat) : res (list (list (nat * ascii))) :=
  do u <- getitem used s;
  if u then
    do row <- getitem (transitions_between_states d) s;
    foldM (copy_edge used nsn s) row t
  else Ok t.

(** Body of [for s in acceptable_states]. *)
Definition copy_acc (used : list bool) (nsn : gmap nat nat) (acc : list nat) (s : nat) : res (list nat) :=
  do u <- getitem used s;
  if u then do j <- getkey nsn s; Ok (acc ++ [j]) else Ok acc.

(** The method mutates [self]; here it returns the new machine. Every state
    is enqueued at most once, so [number_states + 1] rounds of the queue loop
    are always enough (lemma [bfs_spec] below). *)
Definition eliminate_unreachable_states (d : DFSM) : res DFSM :=
  do used <- setitem (replicate (number_states d) false) (initial_state d) true;
  do used <- bfs d (S (number_states d)) used [initial_state d];
  do nn <- foldM (renumber used) (seq 0 (number_states d)) (∅, 0);
  do t <- foldM (copy_row d used nn.1) (seq 0 (number_states d)) (replicate nn.2 []);
  do i <- getkey nn.1 (initial_state d);
  do a <- foldM (copy_acc used nn.1) (acceptable_states d) [];
  Ok (mkDFSM (alphabet d) nn.2 t i a).

(** *** reduce_dfsm *)

(** Body of [for state in s]: the pair is [(set_fst, set_snd)]. *)
Definition split_state (d : DFSM) (set_states : list nat) (char : ascii)
    (fs : list nat * list nat) (state : nat) : res (list nat * list nat) :=
  do to_state <- _transition d state char;
  if Z.eqb to_state (-1) || negb (contains (Z.of_nat <$> set_states) to_state)
  then Ok (fs.1, fs.2 ++ [state])
  else Ok (fs.1 ++ [state], fs.2).

Definition split_class (d : DFSM) (set_states : list nat) (char : ascii) (s : list nat)
    : res (list nat * list nat) :=
  foldM (split_state d set_states char) s ([], []).

(** [for c in alphabet: q.put((set_fst, c)); q.put((set_snd, c))]. *)
Definition put_tasks (fs : list nat * list nat) (q : list (list nat * ascii)) (c : ascii)
    : list (list nat * ascii) :=
  q ++ [(fs.1, c); (fs.2, c)].

(** [for s in classes] with [classes] changed inside the body: Python's list
    iterator keeps an index [i] and reads [classes[i]] from the list as it is
    at that moment, until [i] reaches its current length. *)
Fixpoint for_classes (d : DFSM) (fuel : nat) (set_states : list nat) (char : ascii) (i : nat)
    (classes : list (list nat)) (q : list (list nat * ascii))
    : res (list (list nat) * list (list nat * ascii)) :=
  match classes !! i with
  | None => Ok (classes, q)
  | Some s =>
    match fuel with
    | 0 => OutOfFuel
    | S fuel' =>
      do fs <- split_class d set_states char s;
      if negb (length fs.1 =? 0) && negb (length fs.2 =? 0) then
        do classes' <- list_remove s classes;
        for_classes d fuel' set_states char (S i) (classes' ++ [fs.1; fs.2])
                    (foldl (put_tasks fs) q (alphabet d))
      else for_classes d fuel' set_states char (S i) classes q
    end
  end.

(** The [while not q.empty()] loop over the tasks [(set_states, char)]. *)
Fixpoint refine (d : DFSM) (fuel : nat) (classes : list (list nat)) (q : list (list nat * ascii))
    : res (list (list nat)) :=
  match q with
  | [] => Ok classes
  | (set_states, char) :: q' =>
    match fuel with
    | 0 => OutOfFuel
    | S fuel' =>
      do cq <- for_classes d fuel' set_states char 0 classes q';
      refine d fuel' cq.1 cq.2
    end
  end.

(** Body of [for s in classes] of the renumbering: every state of the class
    gets [new_number], which then goes up by one, also for an empty class. *)
Definition number_class (nn : gmap nat nat * nat) (s : list nat) : gmap nat nat * nat :=
  (foldl (fun m state => <[state:=nn.2]> m) nn.1 s, S nn.2).

(** Body of [for (state, char) in transitions[s]]: the renumbered edge is
    appended unless the row has it already. *)
Definition merge_edge (nsn : gmap nat nat) (s : nat)
    (t : list (list (nat * ascii))) (e : nat * ascii) : res (list (list (nat * ascii))) :=
  do i <- getkey nsn s;
  do row <- getitem t i;
  do j <- getkey nsn e.1;
  if contains row (j, e.2) then Ok t else append_to t i (j, e.2).

(** Body of [for s in range(number_states)] of the same loop. *)
Definition merge_row (d : DFSM) (nsn : gmap nat nat)
    (t : list (list (nat * ascii))) (s : nat) : res (list (list (nat * ascii))) :=
  do row <- getitem (transitions_between_states d) s;
  foldM (merge_edge nsn s) row t.

(** Body of [for s in acceptable_states]. *)
Definition merge_acc (nsn : gmap nat nat) (acc : list nat) (s : nat) : res (list nat) :=
  do j <- getkey nsn s;
  if contains acc j then Ok acc else Ok (acc ++ [j]).

(** [for i in range(number_states): if not acceptable_states.__contains__(i)]. *)
Definition not_acceptable_states (d : DFSM) : list nat :=
  filter (fun i => negb (contains (acceptable_states d) i) = true) (seq 0 (number_states d)).

(** The partition the refinement loop ends with. *)
Definition final_classes (fuel : nat) (d : DFSM) : res (list (list nat)) :=
  let classes := [acceptable_states d; not_acceptable_states d] in
  refine d fuel classes
         (foldl (put_tasks (acceptable_states d, not_acceptable_states d)) [] (alphabet d)).

(** The method mutates [self]; here it returns the new machine. [fuel]
    bounds the rounds of the two loops of the refinement. *)
Definition reduce_dfsm (fuel : nat) (d : DFSM) : res DFSM :=
  do classes <- final_classes fuel d;
  let nn := foldl number_class (∅, 0) classes in
  do t <- foldM (merge_row d nn.1) (seq 0 (number_states d)) (replicate nn.2 []);
  do i <- getkey nn.1 (initial_state d);
  do a <- foldM (merge_acc nn.1) (acceptable_states d) [];
  Ok (mkDFSM (alphabet d) nn.2 t i a).

(** *** Vocabulary of the properties *)

(** Deterministic stepping with [_transition]; a missing edge rejects. *)
Fixpoint run (d : DFSM) (state : nat) (w : list ascii) : res bool :=
  match w with
  | [] => Ok (contains (acceptable_states d) state)
  | c :: w' =>
    do z <- _transition d state c;
    if Z.eqb z (-1) then Ok false else run d (Z.to_nat z) w'
  end.

Definition accepts (d : DFSM) (w : string) : res bool :=
  run d (initial_state d) (String.list_ascii_of_string w).

(** States reachable from the initial state along the edges. *)
Inductive reachable (d : DFSM) : nat → Prop :=
| reach_init : reachable d (initial_state d)
| reach_step s row t c :
    reachable d s →
    transitions_between_states d !! s = Some row →
    (t, c) ∈ row →
    reachable d t.

(** The constructor's contract: one adjacency row per state and every state
    mentioned lies in [0, number_states). *)
Record wf (d : DFSM) : Prop := mkWf {
  wf_rows : length (transitions_between_states d) = number_states d;
  wf_init : initial_state d < number_states d;
  wf_edges : ∀ s row t c,
      transitions_between_states d !! s = Some row → (t, c) ∈ row → t < number_states d;
  wf_acc : Forall (fun s => s < number_states d) (acceptable_states d)
}.

(** Position of [s] in the list of surviving states. *)
Definition new_index (survivors : list nat) (s : nat) : nat :=
  length (filter (fun x => x < s) survivors).

Definition remap_edge (survivors : list nat) (e : nat * ascii) : nat * ascii :=
  (new_index survivors e.1, e.2).

(** The rows of a surviving state after pruning: the edges into surviving
    states, renumbered. *)
Definition pruned_row (d : DFSM) (survivors : list nat) (s : nat) : list (nat * ascii) :=
  remap_edge survivors
    <$> filter (fun e => e.1 ∈ survivors) (default [] (transitions_between_states d !! s)).

(** [d'] is [d] restricted to the states [survivors]: they are the reachable
    states in ascending order, a state's new number is its position in that
    list, and rows, initial state and accepting states are carried over. *)
Record pruning (d : DFSM) (survivors : list nat) (d' : DFSM) : Prop := mkPruning {
  pr_sorted : StronglySorted lt survivors;
  pr_reachable : ∀ s, s ∈ survivors ↔ reachable d s;
  pr_position : ∀ i s, survivors !! i = Some s → new_index survivors s = i;
  pr_alphabet : alphabet d' = alphabet d;
  pr_states : number_states d' = length survivors;
  pr_rows : transitions_between_states d' = pruned_row d survivors <$> survivors;
  pr_init : initial_state d' = new_index survivors (initial_state d);
  pr_acc : acceptable_states d' =
           new_index survivors <$> filter (fun s => s ∈ survivors) (acceptable_states d)
}.

(** A decision procedure for [wf]. *)
Definition wf_check (d : DFSM) : bool :=
  bool_decide (length (transitions_between_states d) = number_states d)
  && bool_decide (initial_state d < number_states d)
  && forallb (forallb (fun e : nat * ascii => bool_decide (e.1 < number_states d)))
             (transitions_between_states d)
  && forallb (fun s => bool_decide (s < number_states d)) (acceptable_states d).

(** At most one edge per symbol leaves each state. *)
Definition deterministic (d : DFSM) : Prop :=
  ∀ s row, transitions_between_states d !! s = Some row → NoDup row.*2.

(** State of the traversal: the marks [used] and what they say. *)
Definition marked (used : list bool) (s : nat) : Prop := used !! s = Some true.

Definition closed (d : DFSM) (used : list bool) (s : nat) : Prop :=
  ∀ row t c, transitions_between_states d !! s = Some row → (t, c) ∈ row → marked used t.

Record bfs_inv (d : DFSM) (used : list bool) (q : list nat) : Prop := mkBfsInv {
  inv_length : length used = number_states d;
  inv_init : marked used (initial_state d);
  inv_sound : ∀ s, marked used s → reachable d s;
  inv_queue : ∀ s, s ∈ q → marked used s;
  inv_closed : ∀ s, marked used s → s ∈ q ∨ closed d used s
}.

Definition count_unused (used : list bool) : nat :=
  length (filter (fun b => b = false) used).

(** Number of marked states below [j], and the marked states in ascending order. *)
Definition rank (used : list bool) (j : nat) : nat :=
  count_below (fun s => used !! s = Some true) j.

Definition survivors (used : list bool) : list nat :=
  filter (fun s => used !! s = Some true) (seq 0 (length used)).

(** The machine of the module's own test. *)
Definition test_machine : DFSM :=
  mkDFSM ["a"; "b"; "c"]%char 5
         [[(1, "a"); (3, "b")]; [(4, "c")]; [(1, "b")]; [(4, "c")]; []]%char 0 [4].

(** Four reachable states, accepting 0 and 3; state 2 has an edge on [a] into
    the class of 1 and 2, state 1 has no edge on [a]. *)
Definition skipping_machine : DFSM :=
  mkDFSM ["a"; "b"]%char 4
         [[]; [(0, "b")]; [(1, "a"); (0, "b")]; [(1, "a"); (2, "b")]]%char 3 [0; 3].

(** One state that is not accepting, with a loop on [a]. *)
Definition loop_machine : DFSM :=
  mkDFSM ["a"]%char 1 [[(0, "a")]]%char 0 [].

(** Rows for [n] states in which no edge is listed twice and every edge
    stays below [n]. *)
Definition rows_ok (n : nat) (t : list (list (nat * ascii))) : Prop :=
  length t = n ∧ ∀ i row, t !! i = Some row → NoDup row ∧ ∀ e, e ∈ row → e.1 < n.

(** Number of classes that hold a state, and the rounds that the loops of
    the refinement can still take. *)
Definition inhabited (classes : list (list nat)) : nat :=
  length (filter (fun c => c ≠ []) classes).

(** A class whose states are states of the machine. *)
Definition in_range (d : DFSM) (c : list nat) : Prop :=
  Forall (fun s => s < number_states d) c.

End Dfsm.

(** ** The regular-expression records shared by the two other modules

    [{"key": k, "val": v}] is [JNode k v], [{"fst": a, "snd": b}] is
    [JPair a b] and a string is [JStr s]. A Python object that may be [None]
    is an [option]. *)

Module Json.

Inductive json :=
| JStr (s : string)
| JNode (key : string) (val : json)
| JPair (fst snd : json).

Global Instance json_eq_dec : EqDecision json.
Proof. solve_decision. Defined.

(** [v['key']]: a string cannot be indexed by a name, the other dictionary
    lacks it. *)
Definition get_key (v : json) : res string :=
  match v with
  | JNode k _ => Ok k
  | JStr _ => Raise TypeError
  | JPair _ _ => Raise KeyError
  end.

(** The one-character string [c]. *)
Definition chr (c : ascii) : string := String c EmptyString.

Definition RAtom (c : ascii) : json := JNode "atm" (JStr (chr c)).
Definition RStar (e : json) : json := JNode "*" e.
Definition RConcat (l r : json) : json := JNode "." (JPair l r).
Definition RUnion (l r : json) : json := JNode "|" (JPair l r).

(** Records built from the four tags, atoms holding a string. *)
Inductive well_formed : json → Prop :=
| wf_atm s : well_formed (JNode "atm" (JStr s))
| wf_star e : well_formed e → well_formed (JNode "*" e)
| wf_concat l r : well_formed l → well_formed r → well_formed (JNode "." (JPair l r))
| wf_union l r : well_formed l → well_formed r → well_formed (JNode "|" (JPair l r)).

Definition known_key (key : string) : Prop :=
  key = "atm" ∨ key = "*" ∨ key = "." ∨ key = "|".

(** Records built from the four tags whose atoms hold one character. *)
Inductive one_char_atoms : json → Prop :=
| oc_atm c : one_char_atoms (RAtom c)
| oc_star e : one_char_atoms e → one_char_atoms (RStar e)
| oc_concat l r : one_char_atoms l → one_char_atoms r → one_char_atoms (RConcat l r)
| oc_union l r : one_char_atoms l → one_char_atoms r → one_char_atoms (RUnion l r).

End Json.

Export Json.

(** ** EilenbergMachine.py *)

Module Eilenberg.

Record EilenbergMachine := mkEM {
  number_states : nat;
  transitions_between_states : list (list (nat * json));
  initial_states : list nat;
  acceptable_states : list nat
}.

(** *** accept *)

(** The edges of [row] labelled with the first character, as queue items. *)
Definition matching (row : list (nat * json)) (c : ascii) (rest : string) : list (nat * string) :=
  (fun edge : nat * json => (edge.1, rest)) <$> filter (fun edge => edge.2 = JStr (chr c)) row.

(** The [while not q.empty()] loop of [accept]. *)
Fixpoint accept_loop (m : EilenbergMachine) (fuel : nat) (q : list (nat * string)) : res bool :=
  match q with
  | [] => Ok false
  | (state, expr) :: q' =>
    match fuel with
    | 0 => OutOfFuel
    | S fuel' =>
      match expr with
      | EmptyString =>
        if contains (acceptable_states m) state then Ok true else accept_loop m fuel' q'
      | String c rest =>
        do row <- getitem (transitions_between_states m) state;
        accept_loop m fuel' (q' ++ matching row c rest)
      end
    end
  end.

Definition accept (fuel : nat) (m : EilenbergMachine) (expr : string) : res bool :=
  accept_loop m fuel ((fun state => (state, expr)) <$> initial_states m).

(** *** The star construction *)

(** [for (state, character) in transitions[s]] while the body appends to that
    same list: the iterator's index [i] runs until it reaches the current
    length of [row]. *)
Fixpoint asterisk_row (fuel : nat) (acc init : list nat) (i : nat) (row : list (nat * json))
    : res (list (nat * json)) :=
  match row !! i with
  | None => Ok row
  | Some (state, character) =>
    match fuel with
    | 0 => OutOfFuel
    | S fuel' =>
      if contains acc state
      then asterisk_row fuel' acc init (S i)
                        (row ++ ((fun init_state => (init_state, character)) <$> init))
      else asterisk_row fuel' acc init (S i) row
    end
  end.

Definition asterisk_state (fuel : nat) (acc init : list nat)
    (t : list (list (nat * json))) (s : nat) : res (list (list (nat * json))) :=
  do row <- getitem t s;
  do row' <- asterisk_row fuel acc init 0 row;
  Ok (<[s:=row']> t).

(** What [_build_Eilenberg_machine_oper_asterisk] does with the machine of
    its argument. *)
Definition oper_asterisk (fuel : nat) (e_machine : option EilenbergMachine)
    : res (option EilenbergMachine) :=
  match e_machine with
  | None => Raise AttributeError
  | Some m =>
    do t <- foldM (asterisk_state fuel (acceptable_states m) (initial_states m))
                  (seq 0 (number_states m)) (transitions_between_states m);
    Ok (Some (mkEM (number_states m) t (initial_states m) (acceptable_states m)))
  end.

(** *** Concatenation *)

(** Renumbering of the second machine's non-initial states; the pair is
    [(new_state_numbers, new_number)]. *)
Definition renumber_snd (init_snd : list nat) (nn : gmap nat nat * nat) (s : nat)
    : gmap nat nat * nat :=
  if contains init_snd s then nn else (<[s:=nn.2]> nn.1, S nn.2).

(** Body of [for (state, character) in machine_snd.transitions[s]]. *)
Definition concat_edge (acc_fst init_snd : list nat) (nsn : gmap nat nat) (s : nat)
    (t : list (list (nat * json))) (e : nat * json) : res (list (list (nat * json))) :=
  if contains init_snd s && negb (contains init_snd e.1) then
    foldM (fun t act_s =>
             do _ <- getitem t act_s;
             do j <- getkey nsn e.1;
             append_to t act_s (j, e.2)) acc_fst t
  else if contains init_snd s && contains init_snd e.1 then
    foldM (fun t act_s => append_to t act_s (act_s, e.2)) acc_fst t
  else if negb (contains init_snd s) && contains init_snd e.1 then
    foldM (fun t act_s =>
             do i <- getkey nsn s;
             append_to t i (act_s, e.2)) acc_fst t
  else if negb (contains init_snd s) && negb (contains init_snd e.1) then
    do i <- getkey nsn s;
    do _ <- getitem t i;
    do j <- getkey nsn e.1;
    append_to t i (j, e.2)
  else Ok t.

Definition concat_row (snd : EilenbergMachine) (acc_fst : list nat) (nsn : gmap nat nat)
    (t : list (list (nat * json))) (s : nat) : res (list (list (nat * json))) :=
  do row <- getitem (transitions_between_states snd) s;
  foldM (concat_edge acc_fst (initial_states snd) nsn s) row t.

Definition renumber_acc (nsn : gmap nat nat) (acc : list nat) (s : nat) : res (list nat) :=
  do j <- getkey nsn s;
  Ok (acc ++ [j]).

(** What [_build_Eilenberg_machine_oper_concat] does with the machines of
    its two arguments. State counts are naturals: the subtraction stops at
    zero where Python's would go negative, which needs more initial states
    than states. *)
Definition oper_concat (machine_fst machine_snd : option EilenbergMachine)
    : res (option EilenbergMachine) :=
  match machine_fst, machine_snd with
  | Some fst, Some snd =>
    let n := number_states fst + number_states snd - length (initial_states snd) in
    let nn := foldl (renumber_snd (initial_states snd)) (∅, number_states fst)
                    (seq 0 (number_states snd)) in
    let t0 := transitions_between_states fst
              ++ replicate (number_states snd - length (initial_states snd)) [] in
    do t <- foldM (concat_row snd (acceptable_states fst) nn.1) (seq 0 (number_states snd)) t0;
    do acc <- foldM (renumber_acc nn.1) (acceptable_states snd) [];
    Ok (Some (mkEM n t (initial_states fst) acc))
  | _, _ => Raise AttributeError
  end.

(** *** Union *)

Definition or_edge (n_fst s : nat) (t : list (list (nat * json))) (e : nat * json)
    : res (list (list (nat * json))) :=
  append_to t (s + n_fst) (e.1 + n_fst, e.2).

Definition or_row (snd : EilenbergMachine) (n_fst : nat)
    (t : list (list (nat * json))) (s : nat) : res (list (list (nat * json))) :=
  do row <- getitem (transitions_between_states snd) s;
  foldM (or_edge n_fst s) row t.

(** What [_build_Eilenberg_machine_oper_or] does with the machines of its
    two arguments. *)
Definition oper_or (machine_fst machine_snd : option EilenbergMachine)
    : res (option EilenbergMachine) :=
  match machine_fst, machine_snd with
  | Some fst, Some snd =>
    let n := number_states fst + number_states snd in
    let t0 := transitions_between_states fst ++ replicate (number_states snd) [] in
    do t <- foldM (or_row snd (number_states fst)) (seq 0 (number_states snd)) t0;
    Ok (Some (mkEM n t
                   (initial_states fst ++ ((fun s => s + number_states fst) <$> initial_states snd))
                   (acceptable_states fst ++ ((fun s => s + number_states fst) <$> acceptable_states snd))))
  | _, _ => Raise AttributeError
  end.

(** *** get_Eilenberg_machine

    An [if]/[elif] chain without [else]: an unknown key falls through and the
    function returns [None]. [fuel] bounds the rounds of each row loop of the
    star construction. *)
Fixpoint get_Eilenberg_machine (fuel : nat) (reg_expr : json) : res (option EilenbergMachine) :=
  match reg_expr with
  | JStr _ => Raise TypeError
  | JPair _ _ => Raise KeyError
  | JNode key value =>
    if decide (key = "atm") then Ok (Some (mkEM 2 [[(1, value)]; []] [0] [1]))
    else if decide (key = "*") then
      do m <- get_Eilenberg_machine fuel value;
      oper_asterisk fuel m
    else if decide (key = ".") then
      match value with
      | JPair l r =>
        do a <- get_Eilenberg_machine fuel l;
        do b <- get_Eilenberg_machine fuel r;
        oper_concat a b
      | JStr _ => Raise TypeError
      | JNode _ _ => Raise KeyError
      end
    else if decide (key = "|") then
      match value with
      | JPair l r =>
        do a <- get_Eilenberg_machine fuel l;
        do b <- get_Eilenberg_machine fuel r;
        oper_or a b
      | JStr _ => Raise TypeError
      | JNode _ _ => Raise KeyError
      end
    else Ok None
  end.

Definition _build_Eilenberg_machine_oper_asterisk (fuel : nat) (reg_expr : json)
    : res (option EilenbergMachine) :=
  do m <- get_Eilenberg_machine fuel reg_expr;
  oper_asterisk fuel m.

Definition _build_Eilenberg_machine_oper_concat (fuel : nat) (reg_expr_left reg_expr_right : json)
    : res (option EilenbergMachine) :=
  do a <- get_Eilenberg_machine fuel reg_expr_left;
  do b <- get_Eilenberg_machine fuel reg_expr_right;
  oper_concat a b.

Definition _build_Eilenberg_machine_oper_or (fuel : nat) (reg_expr_left reg_expr_right : json)
    : res (option EilenbergMachine) :=
  do a <- get_Eilenberg_machine fuel reg_expr_left;
  do b <- get_Eilenberg_machine fuel reg_expr_right;
  oper_or a b.

(** *** Vocabulary of the properties *)

(** One row per state, every state mentioned in range and no initial state
    listed twice. *)
Record wf (m : EilenbergMachine) : Prop := mkWf {
  wf_rows : length (transitions_between_states m) = number_states m;
  wf_edges : ∀ s row e,
      transitions_between_states m !! s = Some row → e ∈ row → e.1 < number_states m;
  wf_init : Forall (fun s => s < number_states m) (initial_states m);
  wf_acc : Forall (fun s => s < number_states m) (acceptable_states m);
  wf_init_nodup : NoDup (initial_states m)
}.

(** A decision procedure for [wf]. *)
Definition wf_check (m : EilenbergMachine) : bool :=
  bool_decide (length (transitions_between_states m) = number_states m)
  && forallb (forallb (fun e : nat * json => bool_decide (e.1 < number_states m)))
             (transitions_between_states m)
  && forallb (fun s => bool_decide (s < number_states m)) (initial_states m)
  && forallb (fun s => bool_decide (s < number_states m)) (acceptable_states m)
  && bool_decide (NoDup (initial_states m)).

(** No state is both initial and accepting. *)
Definition separated (m : EilenbergMachine) : Prop :=
  ∀ s, s ∈ initial_states m → s ∉ acceptable_states m.

(** The new number of a non-initial state [s] of the second machine. *)
Definition remap (fst snd : EilenbergMachine) (s : nat) : nat :=
  number_states fst + count_below (fun x => x ∉ initial_states snd) s.

(** An adjacency list for [n] states whose edges stay below [n]. *)
Definition table_ok (n : nat) (t : list (list (nat * json))) : Prop :=
  length t = n ∧ ∀ s row e, t !! s = Some row → e ∈ row → e.1 < n.

(** What the constructors keep true. *)
Definition good (m : EilenbergMachine) : Prop := wf m ∧ separated m.

(** The edges the star construction adds for the edge [e], and the row it
    makes of [row] when no initial state is accepting. *)
Definition back_edges (acc init : list nat) (e : nat * json) : list (nat * json) :=
  if contains acc e.1 then (fun init_state => (init_state, e.2)) <$> init else [].

Definition starred_row (acc init : list nat) (row : list (nat * json)) : list (nat * json) :=
  row ++ (row ≫= back_edges acc init).

(** A result that is an exception. *)
Definition raises {A} (r : res A) : Prop := ∃ e, r = Raise e.

Definition atom_machine (value : json) : EilenbergMachine :=
  mkEM 2 [[(1, value)]; []] [0] [1].

(** Acceptance read off the graph: from [s] the string can be spelled along
    edges, one character each, ending in an accepting state. *)
Inductive accepts_from (m : EilenbergMachine) : nat → string → Prop :=
| accepts_here s :
    s ∈ acceptable_states m → accepts_from m s EmptyString
| accepts_step s row t c rest :
    transitions_between_states m !! s = Some row →
    (t, JStr (chr c)) ∈ row →
    accepts_from m t rest →
    accepts_from m s (String c rest).

Definition language (m : EilenbergMachine) (w : string) : Prop :=
  ∃ s, s ∈ initial_states m ∧ accepts_from m s w.

(** Rounds the queue loop of [accept] may spend on one queue item whose
    string has [k] characters, when no row has more than [b] edges; and on a
    whole queue. *)
Fixpoint word_cost (b k : nat) : nat :=
  match k with
  | 0 => 1
  | S k' => S (b * word_cost b k')
  end.

Definition queue_cost (b : nat) (q : list (nat * string)) : nat :=
  sum_list_with (fun item => word_cost b (String.length item.2)) q.

Definition max_degree (m : EilenbergMachine) : nat :=
  max_list_with length (transitions_between_states m).

(** The second machine's rows as the union construction renumbers them. *)
Definition shift_edge (n : nat) (e : nat * json) : nat * json := (e.1 + n, e.2).
Definition shift_row (n : nat) (row : list (nat * json)) : list (nat * json) :=
  shift_edge n <$> row.

(** The regular expression of the module's own test: a starred union of [a]
    and starred [b], then the union of "starred [d] then [e]" and [c], then
    the starred union of [b] and [a]. *)
Definition reg_expr_test : json :=
  RConcat (RConcat (RStar (RUnion (RAtom "a") (RStar (RAtom "b"))))
                 (RUnion (RConcat (RStar (RAtom "d")) (RAtom "e")) (RAtom "c")))
         (RStar (RUnion (RAtom "b") (RAtom "a"))).

(** Strings made of one or more strings of [L] put one after another. *)
Definition repetitions (L : string → Prop) (w : string) : Prop :=
  ∃ ws, ws ≠ [] ∧ Forall L ws ∧ w = foldr String.append EmptyString ws.

(** The row of state [i] holds the edge [e]; every edge of [t] is an edge of
    [t']. *)
Definition has_edge (t : list (list (nat * json))) (i : nat) (e : nat * json) : Prop :=
  ∃ row, t !! i = Some row ∧ e ∈ row.

Definition grows (t t' : list (list (nat * json))) : Prop :=
  ∀ i e, has_edge t i e → has_edge t' i e.

(** Where the concatenation puts state [s] of the second machine when the
    first machine stopped in its accepting state [p]: an initial state is
    merged into [p], another state gets its new number. *)
Definition merged (fst snd : EilenbergMachine) (p s : nat) : nat :=
  if contains (initial_states snd) s then p else remap fst snd s.

(** One row per state, and every edge target, initial state and accepting
    state below [number_states]; a state may be listed more than once. *)
Record ranged (m : EilenbergMachine) : Prop := mkRanged {
  rg_rows : length (transitions_between_states m) = number_states m;
  rg_edges : ∀ s row e,
      transitions_between_states m !! s = Some row → e ∈ row → e.1 < number_states m;
  rg_init : Forall (fun s => s < number_states m) (initial_states m);
  rg_acc : Forall (fun s => s < number_states m) (acceptable_states m)
}.

(** A decision procedure for [ranged]. *)
Definition ranged_check (m : EilenbergMachine) : bool :=
  bool_decide (length (transitions_between_states m) = number_states m)
  && forallb (forallb (fun e : nat * json => bool_decide (e.1 < number_states m)))
             (transitions_between_states m)
  && forallb (fun s => bool_decide (s < number_states m)) (initial_states m)
  && forallb (fun s => bool_decide (s < number_states m)) (acceptable_states m).

(** The strings of a regular expression, a star standing for one or more
    repetitions. *)
Inductive denotes : json → string → Prop :=
| denotes_atom c : denotes (RAtom c) (chr c)
| denotes_once e w : denotes e w → denotes (RStar e) w
| denotes_again e w1 w2 :
    denotes e w1 → denotes (RStar e) w2 → denotes (RStar e) (w1 +:+ w2)
| denotes_concat l r w1 w2 :
    denotes l w1 → denotes r w2 → denotes (RConcat l r) (w1 +:+ w2)
| denotes_left l r w : denotes l w → denotes (RUnion l r) w
| denotes_right l r w : denotes r w → denotes (RUnion l r) w.

End Eilenberg.

(** ** regexConversions.py *)

Module Regex.

(** [a + b] on Python objects: defined on two strings only. *)
Definition str_add (a b : option json) : res (option json) :=
  match a, b with
  | Some (JStr x), Some (JStr y) => Ok (Some (JStr (x +:+ y)))
  | _, _ => Raise TypeError
  end.

Definition str (s : string) : option json := Some (JStr s).

(** Wraps [s] in brackets when the operand's key is ['|']. *)
Definition bracket_union (operand : json) (s : option json) : res (option json) :=
  do k <- get_key operand;
  if decide (k = "|") then do x <- str_add (str "(") s; str_add x (str ")") else Ok s.

(** An [if]/[elif] chain without [else]: an unknown key falls through and the
    function returns [None]. *)
Fixpoint conversion_reg_expr_to_str (reg_expr : json) : res (option json) :=
  match reg_expr with
  | JStr _ => Raise TypeError
  | JPair _ _ => Raise KeyError
  | JNode key value =>
    if decide (key = "atm") then Ok (Some value)
    else if decide (key = "*") then
      do k <- get_key value;
      if decide (k = "atm") then
        do s <- conversion_reg_expr_to_str value;
        str_add s (str "*")
      else
        do s <- conversion_reg_expr_to_str value;
        do x <- str_add (str "(") s;
        str_add x (str ")*")
    else if decide (key = ".") then
      match value with
      | JPair l r =>
        do fst <- conversion_reg_expr_to_str l;
        do snd <- conversion_reg_expr_to_str r;
        do fst <- bracket_union l fst;
        do snd <- bracket_union r snd;
        do x <- str_add fst (str ".");
        str_add x snd
      | JStr _ => Raise TypeError
      | JNode _ _ => Raise KeyError
      end
    else if decide (key = "|") then
      match value with
      | JPair l r =>
        do fst <- conversion_reg_expr_to_str l;
        do x <- str_add fst (str "|");
        do snd <- conversion_reg_expr_to_str r;
        str_add x snd
      | JStr _ => Raise TypeError
      | JNode _ _ => Raise KeyError
      end
    else Ok None
  end.

(** The dictionary [priority_operations]. *)
Definition priority_operations (c : ascii) : res nat :=
  if decide (c = "*"%char) then Ok 1
  else if decide (c = "."%char) then Ok 2
  else if decide (c = "|"%char) then Ok 3
  else if decide (c = "("%char) then Ok 4
  else if decide (c = ")"%char) then Ok 4
  else Raise KeyError.

(** The stack is a list whose head is the top [stack[-1]]. *)

(** [while stack[-1] != '(': postfix += stack.pop()], then [stack.pop()]. *)
Fixpoint close_bracket (stack : list ascii) (postfix : string) : res (list ascii * string) :=
  match stack with
  | [] => Raise IndexError
  | top :: stack' =>
    if decide (top = "("%char) then Ok (stack', postfix)
    else close_bracket stack' (postfix +:+ chr top)
  end.

(** [while len(stack) > 0 and priority[char] > priority[stack[-1]]:
    postfix += stack.pop()]. *)
Fixpoint pop_prioritized (char : ascii) (stack : list ascii) (postfix : string)
    : res (list ascii * string) :=
  match stack with
  | [] => Ok ([], postfix)
  | top :: stack' =>
    do pc <- priority_operations char;
    do pt <- priority_operations top;
    if decide (pt < pc) then pop_prioritized char stack' (postfix +:+ chr top)
    else Ok (stack, postfix)
  end.

(** Body of [for char in reg_expr]; the pair is [(stack, postfix_reg_expr)]. *)
Definition postfix_step (sp : list ascii * string) (char : ascii) : res (list ascii * string) :=
  if decide (char = "("%char) then Ok ("("%char :: sp.1, sp.2)
  else if decide (char = ")"%char) then close_bracket sp.1 sp.2
  else if decide (char = "."%char ∨ char = "|"%char) then
    do sp' <- pop_prioritized char sp.1 sp.2;
    Ok (char :: sp'.1, sp'.2)
  else if decide (char = "*"%char ∨ char ≠ " "%char) then Ok (sp.1, sp.2 +:+ chr char)
  else Ok sp.

Definition conversion_to_postfix_expr (reg_expr : string) : res string :=
  do sp <- foldM postfix_step (String.list_ascii_of_string reg_expr) ([], EmptyString);
  Ok (sp.2 +:+ String.string_of_list_ascii sp.1).

(** Body of [for char in reg_expr] of the postfix evaluation. *)
Definition json_step (stack : list json) (char : ascii) : res (list json) :=
  if decide (char = "*"%char) then
    match stack with
    | value :: stack' => Ok (JNode "*" value :: stack')
    | [] => Raise IndexError
    end
  else if decide (char = "."%char ∨ char = "|"%char) then
    match stack with
    | second :: first :: stack' => Ok (JNode (chr char) (JPair first second) :: stack')
    | _ => Raise IndexError
    end
  else Ok (JNode "atm" (JStr (chr char)) :: stack).

Definition conversion_reg_expr_to_json (reg_expr : string) : res json :=
  do postfix <- conversion_to_postfix_expr reg_expr;
  do stack <- foldM json_step (String.list_ascii_of_string postfix) [];
  match stack with
  | value :: _ => Ok value
  | [] => Raise IndexError
  end.

(** The round trip [conversion_reg_expr_to_json (conversion_reg_expr_to_str ast)];
    a result of the first step that is not a string cannot be iterated as one. *)
Definition round_trip (ast : json) : res json :=
  do s <- conversion_reg_expr_to_str ast;
  match s with
  | Some (JStr s) => conversion_reg_expr_to_json s
  | _ => Raise TypeError
  end.

(** *** Vocabulary of the properties *)

(** Whether reading [l] at bracket depth [depth] meets a closing bracket
    with no opening bracket before it. *)
Fixpoint unmatched (depth : nat) (l : list ascii) : bool :=
  match l with
  | [] => false
  | c :: l' =>
    if decide (c = "("%char) then unmatched (S depth) l'
    else if decide (c = ")"%char) then
      match depth with 0 => true | S depth' => unmatched depth' l' end
    else unmatched depth l'
  end.

(** The string without its blanks. *)
Definition without_blanks (s : string) : string :=
  String.string_of_list_ascii
    (filter (fun c => c ≠ " "%char) (String.list_ascii_of_string s)).

(** What may lie on the operator stack, and how many brackets are open. *)
Definition stack_symbol (c : ascii) : Prop := c = "("%char ∨ c = "."%char ∨ c = "|"%char.

Definition open_brackets (stack : list ascii) : nat :=
  length (filter (fun c => c = "("%char) stack).

(** A character that is an atom of the string form. *)
Definition operand (c : ascii) : Prop :=
  c ≠ "*"%char ∧ c ≠ "."%char ∧ c ≠ "|"%char ∧
  c ≠ "("%char ∧ c ≠ ")"%char ∧ c ≠ " "%char.

(** Records whose atoms are operands and in which no concatenation has a
    concatenation as its left operand and no union a union as its left
    operand. *)
Inductive right_nested : json → Prop :=
| rn_atom c : operand c → right_nested (RAtom c)
| rn_star e : right_nested e → right_nested (RStar e)
| rn_concat l r :
    right_nested l → right_nested r → (∀ l1 l2, l ≠ RConcat l1 l2) →
    right_nested (RConcat l r)
| rn_union l r :
    right_nested l → right_nested r → (∀ l1 l2, l ≠ RUnion l1 l2) →
    right_nested (RUnion l r).

Definition is_union (e : json) : bool :=
  match e with JNode key _ => bool_decide (key = "|") | _ => false end.

(** The postfix form of a record. *)
Fixpoint postfix_form (e : json) : list ascii :=
  match e with
  | JNode key value =>
    if decide (key = "atm") then
      match value with JStr s => String.list_ascii_of_string s | _ => [] end
    else if decide (key = "*") then postfix_form value ++ ["*"%char]
    else
      match value with
      | JPair l r => postfix_form l ++ postfix_form r ++ String.list_ascii_of_string key
      | _ => []
      end
  | _ => []
  end.

(** The operators that are still on the stack when the string form of a
    record has been read, top first, and the part of the postfix form that
    has been written by then. *)
Fixpoint pending (e : json) : list ascii :=
  match e with
  | JNode key value =>
    if decide (key = ".") then
      match value with
      | JPair l r => (if is_union r then [] else pending r) ++ ["."%char]
      | _ => []
      end
    else if decide (key = "|") then
      match value with
      | JPair l r => pending r ++ ["|"%char]
      | _ => []
      end
    else []
  | _ => []
  end.

Fixpoint emitted (e : json) : list ascii :=
  match e with
  | JNode key value =>
    if decide (key = ".") then
      match value with
      | JPair l r => postfix_form l ++ (if is_union r then postfix_form r else emitted r)
      | _ => []
      end
    else if decide (key = "|") then
      match value with
      | JPair l r => postfix_form l ++ emitted r
      | _ => []
      end
    else postfix_form e
  | _ => []
  end.

(** Reading the string [s] leaves the pending operators of [e] on the stack
    and writes the rest of its postfix form. *)
Definition reads (e : json) (s : string) : Prop :=
  ∀ st out, Forall stack_symbol st → (is_union e = true → head st ≠ Some "."%char) →
    foldM postfix_step (String.list_ascii_of_string s) (st, out)
    = Ok (pending e ++ st, out +:+ String.string_of_list_ascii (emitted e)).

(** Reading [s], which has brackets when [e] is a union, writes the whole
    postfix form of an operand [e] of a concatenation, apart from the dots a
    concatenation leaves pending. *)
Definition reads_operand (e : json) (s : string) : Prop :=
  ∀ st out, Forall stack_symbol st →
    foldM postfix_step (String.list_ascii_of_string s) (st, out)
    = Ok ((if is_union e then [] else pending e) ++ st,
          out +:+ String.string_of_list_ascii (if is_union e then postfix_form e else emitted e)).

End Regex.

(** * Facts

    Generic lemmas on the result monad and on lists first, then one module
    of lemmas per Python module. *)

Module PyFacts.

Lemma bind_Ok {A B} (m : res A) (f : A → res B) b :
  bind m f = Ok b ↔ ∃ a, m = Ok a ∧ f a = Ok b.
Proof.
  destruct m as [a| |]; simpl; split; try (intros (a' & Ha & _); discriminate Ha); try discriminate.
  - intros H. exists a. auto.
  - intros (a' & [= <-] & H). exact H.
Qed.

Lemma foldM_app {A B} (f : B → A → res B) l1 l2 b :
  foldM f (l1 ++ l2) b = bind (foldM f l1 b) (foldM f l2).
Proof.
  revert b. induction l1 as [|x l1 IH]; intros b; simpl; [done|].
  destruct (f b x) as [b'| |]; simpl; auto.
Qed.

Lemma foldM_snoc {A B} (f : B → A → res B) l x b b' :
  foldM f l b = Ok b' → foldM f (l ++ [x]) b = f b' x.
Proof.
  intros H. rewrite foldM_app, H. simpl. destruct (f b' x); done.
Qed.

(** A loop invariant that may mention the elements already visited. *)
Lemma foldM_invariant {A B} (I : list A → B → Prop) (f : B → A → res B) l b :
  I [] b →
  (∀ pre x post b, l = pre ++ x :: post → I pre b → ∃ b', f b x = Ok b' ∧ I (pre ++ [x]) b') →
  ∃ b', foldM f l b = Ok b' ∧ I l b'.
Proof.
  intros H0 Hstep.
  assert (∀ post pre b, l = pre ++ post → I pre b → ∃ b', foldM f post b = Ok b' ∧ I l b') as G.
  { induction post as [|x post IH]; intros pre b0 El Hb.
    - exists b0. rewrite app_nil_r in El. subst pre. done.
    - destruct (Hstep pre x post b0 El Hb) as (b1 & E1 & H1).
      destruct (IH (pre ++ [x]) b1) as (b2 & E2 & H2); [by rewrite <- app_assoc|done|].
      exists b2. simpl. rewrite E1. done. }
  by apply (G l [] b).
Qed.

Lemma getitem_Ok {A} (l : list A) i x : getitem l i = Ok x ↔ l !! i = Some x.
Proof. unfold getitem. destruct (l !! i); naive_solver. Qed.

Lemma getkey_Ok (m : gmap nat nat) k x : getkey m k = Ok x ↔ m !! k = Some x.
Proof. unfold getkey. destruct (m !! k); naive_solver. Qed.

Lemma append_to_Ok {A} (t : list (list A)) i row x :
  t !! i = Some row → append_to t i x = Ok (<[i:=row ++ [x]]> t).
Proof. intros H. unfold append_to, getitem. by rewrite H. Qed.

Lemma filter_ext_in {A} (P Q : A → Prop) `{∀ x, Decision (P x)} `{∀ x, Decision (Q x)} (l : list A) :
  (∀ x, x ∈ l → P x ↔ Q x) → filter P l = filter Q l.
Proof.
  induction l as [|x l IH]; intros HPQ; [done|].
  rewrite !filter_cons. rewrite IH by (intros y Hy; apply HPQ; by right).
  assert (P x ↔ Q x) as Hx by (apply HPQ; by left).
  destruct (decide (P x)), (decide (Q x)); tauto.
Qed.

Lemma filter_sorted {A} (R : relation A) (P : A → Prop) `{∀ x, Decision (P x)} (l : list A) :
  StronglySorted R l → StronglySorted R (filter P l).
Proof.
  induction 1 as [|x l Hl IH Hx]; [constructor|].
  rewrite filter_cons. case_decide; [|done]. constructor; [done|].
  apply Forall_forall. intros y [_ Hy]%list_elem_of_filter.
  rewrite Forall_forall in Hx. auto.
Qed.

(** Brings both sides of an equation between appended lists to the same
    bracketing. *)
Ltac reassoc :=
  repeat (rewrite <- app_assoc || rewrite <- app_comm_cons); simpl; try reflexivity.

Lemma sorted_lt_NoDup (l : list nat) : StronglySorted lt l → NoDup l.
Proof.
  induction 1 as [|x l Hl IH Hx]; constructor; [|done].
  intros Hin. rewrite Forall_forall in Hx. specialize (Hx x Hin). lia.
Qed.

Section count_below.
Context (P : nat → Prop) `{∀ x, Decision (P x)}.

Lemma count_below_S j :
  count_below P (S j) = count_below P j + (if decide (P j) then 1 else 0).
Proof.
  unfold count_below. rewrite seq_S, filter_app, length_app. simpl. f_equal.
  rewrite filter_cons, filter_nil. by case_decide.
Qed.

Lemma count_below_mono i j : i ≤ j → count_below P i ≤ count_below P j.
Proof. induction 1 as [|j _ IH]; [done|]. rewrite count_below_S. lia. Qed.

Lemma count_below_lt i j : i < j → P i → count_below P i < count_below P j.
Proof.
  intros Hij Hi. pose proof (count_below_mono (S i) j Hij) as Hle.
  rewrite count_below_S in Hle. rewrite decide_True in Hle by done. lia.
Qed.

End count_below.

Lemma contains_true `{EqDecision A} (l : list A) x : contains l x = true ↔ x ∈ l.
Proof. unfold contains. apply bool_decide_eq_true. Qed.

Lemma contains_false `{EqDecision A} (l : list A) x : contains l x = false ↔ x ∉ l.
Proof. unfold contains. apply bool_decide_eq_false. Qed.

End PyFacts.

Module DfsmFacts.
Import PyFacts Dfsm.

Lemma count_unused_mark (used : list bool) t :
  used !! t = Some false → S (count_unused (<[t:=true]> used)) = count_unused used.
Proof.
  unfold count_unused. revert t. induction used as [|b used IH]; intros [|t] H; simplify_eq/=.
  - by rewrite filter_cons_False.
  - destruct b.
    + rewrite !filter_cons_False by done. by apply IH.
    + rewrite !filter_cons_True by done. simpl. f_equal. by apply IH.
Qed.

Lemma count_unused_replicate n : count_unused (replicate n false) = n.
Proof.
  unfold count_unused. induction n as [|n IH]; [done|].
  change (replicate (S n) false) with (false :: replicate n false).
  rewrite filter_cons_True by done. simpl. by rewrite IH.
Qed.

Section bfs.
Context (d : DFSM) (Hwf : wf d).

(** What the loop over one adjacency row does to the marks and the queue. *)
Lemma visit_row (row : list (nat * ascii)) used q :
  (∀ e, e ∈ row → e.1 < length used) →
  ∃ used' q',
    foldM visit row (used, q) = Ok (used', q') ∧
    length used' = length used ∧
    (∀ s, marked used' s ↔ marked used s ∨ s ∈ row.*1) ∧
    (∀ s, s ∈ q' ↔ s ∈ q ∨ (s ∈ row.*1 ∧ ¬ marked used s)) ∧
    length q' + count_unused used' = length q + count_unused used.
Proof.
  revert used q. induction row as [|[t c] row IH]; intros used q Hr.
  - exists used, q. simpl. split_and!; try done; set_solver.
  - assert (t < length used) as Ht by (apply (Hr (t, c)); left).
    destruct (lookup_lt_is_Some_2 used t Ht) as [u Hu].
    simpl. unfold visit at 1. simpl. unfold getitem. rewrite Hu. simpl.
    destruct u.
    + destruct (IH used q) as (used' & q' & E & Hl & Hm & Hq & Hc).
      { intros e He. apply Hr. by right. }
      exists used', q'. split_and!; try done.
      * intros s. rewrite Hm. unfold marked. set_solver.
      * intros s. rewrite Hq. unfold marked. split; [set_solver|].
        intros [?|[Hs Hn]]; [by left|]. right. split; [|done].
        apply elem_of_cons in Hs as [->|?]; [by destruct Hn|done].
    + destruct (IH (<[t:=true]> used) (q ++ [t])) as (used' & q' & E & Hl & Hm & Hq & Hc).
      { intros e He. rewrite length_insert. apply Hr. by right. }
      exists used', q'. rewrite length_insert in Hl. split_and!; try done.
      * intros s. rewrite Hm. unfold marked. destruct (decide (s = t)) as [->|Hne].
        -- rewrite list_lookup_insert_eq by done. set_solver.
        -- rewrite list_lookup_insert_ne by done. set_solver.
      * intros s. rewrite Hq. unfold marked. destruct (decide (s = t)) as [->|Hne].
        -- rewrite list_lookup_insert_eq by done. split; [|set_solver].
           intros _. right. split; [set_solver|]. rewrite Hu. done.
        -- rewrite list_lookup_insert_ne by done. set_solver.
      * rewrite Hc, length_app. simpl. rewrite <- (count_unused_mark used t Hu). lia.
Qed.

Lemma marked_lt used s : length used = number_states d → marked used s → s < number_states d.
Proof. intros <- H. by eapply lookup_lt_Some. Qed.

Lemma closed_complete used :
  marked used (initial_state d) → (∀ s, marked used s → closed d used s) →
  ∀ s, reachable d s → marked used s.
Proof.
  intros Hi Hc s Hs. induction Hs as [|s row t c _ IH Hrow Ht]; [done|].
  by eapply (Hc s).
Qed.

Lemma bfs_spec fuel used q :
  bfs_inv d used q → length q + count_unused used ≤ fuel →
  ∃ used', bfs d fuel used q = Ok used' ∧ length used' = number_states d ∧
           ∀ s, marked used' s ↔ reachable d s.
Proof.
  revert used q. induction fuel as [|fuel IH]; intros used q Hinv Hfuel.
  - destruct q as [|s q]; [|simpl in Hfuel; lia].
    exists used. simpl. destruct Hinv as [? ? ? ? Hclosed0]. split_and!; try done.
    intros s. split; [auto|]. apply closed_complete; [done|].
    intros s' Hs'. destruct (Hclosed0 s' Hs') as [H|H]; [|done]. by apply elem_of_nil in H.
  - destruct q as [|state q].
    { exists used. simpl. destruct Hinv as [? ? ? ? Hclosed0]. split_and!; try done.
      intros s. split; [auto|]. apply closed_complete; [done|].
      intros s' Hs'. destruct (Hclosed0 s' Hs') as [H|H]; [|done]. by apply elem_of_nil in H. }
    pose proof Hinv as [Hlen Hinit Hsound Hq Hcl].
    assert (marked used state) as Hstate by (apply Hq; left).
    assert (state < number_states d) as Hlt by by eapply marked_lt.
    destruct (lookup_lt_is_Some_2 (transitions_between_states d) state) as [row Hrow].
    { by rewrite (wf_rows d Hwf). }
    destruct (visit_row row used q) as (used' & q' & E & Hl & Hm & Hq' & Hc).
    { intros [t c] He. rewrite Hlen. by eapply (wf_edges d Hwf). }
    simpl. unfold getitem. rewrite Hrow. simpl. rewrite E. simpl.
    apply IH.
    + split.
      * by rewrite Hl.
      * apply Hm. by left.
      * intros s [Hs|Hs]%Hm; [auto|].
        apply list_elem_of_fmap in Hs as ([t c] & -> & He).
        simpl. eapply reach_step; [by apply Hsound| |]; done.
      * intros s [Hs|[Hs _]]%Hq'; apply Hm; [left; apply Hq; by right|by right].
      * intros s Hs. destruct (decide (used !! s = Some true)) as [Hold|Hnew].
        -- destruct (Hcl s Hold) as [[->|Hin]%elem_of_cons|Hclosed].
           ++ right. intros row' t c Hrow' Ht. rewrite Hrow in Hrow'. simplify_eq.
              apply Hm. right. apply list_elem_of_fmap. by exists (t, c).
           ++ left. apply Hq'. by left.
           ++ right. intros row' t c Hrow' Ht. apply Hm. left. by eapply Hclosed.
        -- left. apply Hq'. right. split; [|done]. apply Hm in Hs as [?|?]; done.
    + simpl in Hfuel. lia.
Qed.

Lemma bfs_initial :
  bfs_inv d (<[initial_state d:=true]> (replicate (number_states d) false)) [initial_state d].
Proof.
  pose proof (wf_init d Hwf) as Hi.
  split.
  - by rewrite length_insert, length_replicate.
  - unfold marked. apply list_lookup_insert_eq. by rewrite length_replicate.
  - intros s Hs. unfold marked in Hs. destruct (decide (s = initial_state d)) as [->|Hne].
    + constructor.
    + rewrite list_lookup_insert_ne in Hs by done.
      apply lookup_replicate in Hs as [? _]. done.
  - intros s ->%list_elem_of_singleton. unfold marked.
    apply list_lookup_insert_eq. by rewrite length_replicate.
  - intros s Hs. left. unfold marked in Hs. destruct (decide (s = initial_state d)) as [->|Hne].
    + by left.
    + rewrite list_lookup_insert_ne in Hs by done.
      apply lookup_replicate in Hs as [? _]. done.
Qed.

(** The traversal of [eliminate_unreachable_states] ends within its fuel and
    marks exactly the reachable states. *)
Lemma bfs_reachable :
  ∃ used,
    bfs d (S (number_states d)) (<[initial_state d:=true]> (replicate (number_states d) false))
        [initial_state d] = Ok used ∧
    length used = number_states d ∧ ∀ s, marked used s ↔ reachable d s.
Proof.
  apply bfs_spec; [apply bfs_initial|].
  pose proof (wf_init d Hwf) as Hi.
  assert (replicate (number_states d) false !! initial_state d = Some false) as H.
  { by apply lookup_replicate. }
  pose proof (count_unused_mark _ _ H) as Hc. rewrite count_unused_replicate in Hc.
  simpl. lia.
Qed.

End bfs.

(** *** Renumbering *)

Lemma rank_S used j :
  rank used (S j) = rank used j + (if decide (used !! j = Some true) then 1 else 0).
Proof. unfold rank. by rewrite count_below_S. Qed.

Lemma rank_mono used i j : i ≤ j → rank used i ≤ rank used j.
Proof. unfold rank. apply count_below_mono. Qed.

Lemma rank_lt used i j : i < j → used !! i = Some true → rank used i < rank used j.
Proof. unfold rank. intros ? ?. by apply count_below_lt. Qed.

Lemma elem_of_survivors used s : s ∈ survivors used ↔ used !! s = Some true.
Proof.
  unfold survivors. rewrite list_elem_of_filter, elem_of_seq. split; [tauto|].
  intros H. split; [done|]. apply lookup_lt_Some in H. lia.
Qed.

Lemma survivors_prefix used j :
  j ≤ length used →
  filter (fun x => x < j) (survivors used) = filter (fun s => used !! s = Some true) (seq 0 j).
Proof.
  unfold survivors. generalize (length used) as n. intros n Hj.
  induction Hj as [|n Hj IH].
  - rewrite list_filter_filter. apply filter_ext_in.
    intros x Hx%elem_of_seq. split; [tauto|]. intros ?; split; [lia|done].
  - rewrite seq_S, !filter_app, IH. simpl.
    rewrite filter_cons, filter_nil.
    case_decide; [|by rewrite filter_nil, app_nil_r..].
    rewrite filter_cons_False by lia. by rewrite filter_nil, app_nil_r.
Qed.

Lemma new_index_rank used s : s ≤ length used → new_index (survivors used) s = rank used s.
Proof. intros H. unfold new_index, rank, count_below. by rewrite survivors_prefix. Qed.

Lemma survivors_length used : length (survivors used) = rank used (length used).
Proof. done. Qed.

Lemma survivors_sorted used : StronglySorted lt (survivors used).
Proof.
  unfold survivors. apply filter_sorted.
  generalize 0 as a. induction (length used) as [|n IH]; intros a; simpl; constructor; [apply IH|].
  apply Forall_forall. intros x Hx%elem_of_seq. lia.
Qed.

Lemma survivors_lookup_rank used s :
  used !! s = Some true → survivors used !! rank used s = Some s.
Proof.
  intros Hs. pose proof (lookup_lt_Some _ _ _ Hs) as Hlt. unfold survivors.
  revert Hlt. generalize (length used) as n. induction n as [|n IH]; intros Hlt; [lia|].
  rewrite seq_S, filter_app. simpl. destruct (decide (s = n)) as [->|Hne].
  - rewrite lookup_app_r by done. rewrite Nat.sub_diag.
    rewrite filter_cons_True by done. done.
  - rewrite lookup_app_l; [apply IH; lia|].
    apply (rank_lt used s n); [lia|done].
Qed.

Lemma survivors_position used i s : survivors used !! i = Some s → new_index (survivors used) s = i.
Proof.
  intros Hi. assert (used !! s = Some true) as Hs.
  { apply elem_of_survivors. by eapply list_elem_of_lookup_2. }
  rewrite new_index_rank by (apply lookup_lt_Some in Hs; lia).
  eapply NoDup_lookup; [|by apply survivors_lookup_rank|done].
  apply NoDup_filter, NoDup_seq.
Qed.

Lemma renumber_spec used j :
  j ≤ length used →
  ∃ m, foldM (renumber used) (seq 0 j) (∅, 0) = Ok (m, rank used j) ∧
       ∀ s, m !! s = if decide (s < j ∧ used !! s = Some true) then Some (rank used s) else None.
Proof.
  induction j as [|j IH]; intros Hj.
  - exists ∅. split; [done|]. intros s. rewrite lookup_empty. case_decide; [lia|done].
  - destruct IH as (m & E & Hm); [lia|].
    destruct (lookup_lt_is_Some_2 used j) as [u Hu]; [lia|].
    rewrite seq_S. simpl. rewrite (foldM_snoc _ _ _ _ _ E).
    unfold renumber, getitem. rewrite Hu. simpl. rewrite rank_S. destruct u.
    + eexists. rewrite decide_True by done. split; [f_equal; f_equal; lia|].
      intros s. destruct (decide (s = j)) as [->|Hne].
      * rewrite lookup_insert_eq. rewrite decide_True; [done|]. split; [lia|done].
      * rewrite lookup_insert_ne by done. rewrite Hm.
        apply decide_ext. split; intros [? ?]; split; try done; lia.
    + exists m. rewrite decide_False by congruence. split; [f_equal; f_equal; lia|].
      intros s. rewrite Hm. apply decide_ext. split; intros [? ?]; split; try done; try lia.
      destruct (decide (s = j)) as [->|]; [congruence|lia].
Qed.

Section prune.
Context (d : DFSM) (used : list bool) (nsn : gmap nat nat).
Context (Hnsn : ∀ s, used !! s = Some true → nsn !! s = Some (new_index (survivors used) s)).

Lemma copy_edges_spec s i row t r0 :
  nsn !! s = Some i → t !! i = Some r0 →
  (∀ e, e ∈ row → e.1 < length used) →
  foldM (copy_edge used nsn s) row t =
  Ok (<[i:=r0 ++ (remap_edge (survivors used) <$> filter (fun e => e.1 ∈ survivors used) row)]> t).
Proof.
  intros Hs. revert t r0. induction row as [|e row IH]; intros t r0 Hi Hrow.
  - simpl. rewrite app_nil_r. by rewrite list_insert_id.
  - assert (e.1 < length used) as He by (apply Hrow; left).
    destruct (lookup_lt_is_Some_2 used e.1 He) as [u Hu].
    simpl. unfold copy_edge at 1. unfold getitem, getkey. rewrite Hu. simpl. destruct u.
    + rewrite Hs. simpl. rewrite Hi. simpl. rewrite (Hnsn _ Hu). simpl.
      rewrite (append_to_Ok _ _ _ _ Hi). simpl.
      rewrite (IH _ (r0 ++ [(new_index (survivors used) e.1, e.2)])).
      * rewrite list_insert_insert_eq. rewrite filter_cons_True by by apply elem_of_survivors.
        simpl. by rewrite <- app_assoc.
      * apply list_lookup_insert_eq. by eapply lookup_lt_Some.
      * intros e' He'. apply Hrow. by right.
    + rewrite filter_cons_False; [apply IH; [done|]|].
      * intros e' He'. apply Hrow. by right.
      * rewrite elem_of_survivors. congruence.
Qed.

Lemma copy_acc_spec acc a0 :
  Forall (fun s => s < length used) acc →
  foldM (copy_acc used nsn) acc a0 =
  Ok (a0 ++ (new_index (survivors used) <$> filter (fun s => s ∈ survivors used) acc)).
Proof.
  revert a0. induction acc as [|s acc IH]; intros a0 Hacc.
  - simpl. by rewrite app_nil_r.
  - apply Forall_cons in Hacc as [Hs Hacc].
    destruct (lookup_lt_is_Some_2 used s Hs) as [u Hu].
    simpl. unfold copy_acc at 1. unfold getitem, getkey. rewrite Hu. simpl. destruct u.
    + rewrite (Hnsn _ Hu). simpl. rewrite IH by done.
      rewrite filter_cons_True by by apply elem_of_survivors.
      simpl. by rewrite <- app_assoc.
    + simpl. rewrite IH by done. rewrite filter_cons_False; [done|].
      rewrite elem_of_survivors. congruence.
Qed.

Context (Hwf : wf d) (Hlen : length used = number_states d).

Lemma copy_rows_spec j :
  j ≤ number_states d →
  foldM (copy_row d used nsn) (seq 0 j) (replicate (rank used (number_states d)) []) =
  Ok ((pruned_row d (survivors used) <$> filter (fun s => used !! s = Some true) (seq 0 j))
        ++ replicate (rank used (number_states d) - rank used j) []).
Proof.
  induction j as [|j IH]; intros Hj.
  - simpl. unfold rank at 3. simpl. by rewrite Nat.sub_0_r.
  - rewrite seq_S. simpl. rewrite (foldM_snoc _ _ _ _ _ (IH ltac:(lia))).
    destruct (lookup_lt_is_Some_2 used j) as [u Hu]; [lia|].
    rewrite filter_app, fmap_app, rank_S.
    unfold copy_row, getitem. rewrite Hu. simpl. destruct u.
    + destruct (lookup_lt_is_Some_2 (transitions_between_states d) j) as [row Hrow].
      { rewrite (wf_rows d Hwf). lia. }
      rewrite Hrow. simpl.
      pose proof (rank_lt used j (number_states d) ltac:(lia) Hu) as Hrk.
      set (rows := pruned_row d (survivors used) <$> filter (λ s, used !! s = Some true) (seq 0 j)).
      assert (length rows = rank used j) as Hrows by (unfold rows; by rewrite length_fmap).
      rewrite (copy_edges_spec j (rank used j) row _ []).
      * rewrite filter_cons_True by done. rewrite filter_nil. simpl.
        f_equal. rewrite insert_app_r_alt by lia. rewrite Hrows, Nat.sub_diag.
        rewrite <- app_assoc. f_equal.
        replace (rank used (number_states d) - rank used j)
          with (S (rank used (number_states d) - (rank used j + 1))) by lia.
        simpl. f_equal. unfold pruned_row. by rewrite Hrow.
      * rewrite (Hnsn _ Hu). f_equal. apply new_index_rank. lia.
      * rewrite lookup_app_r by lia. rewrite Hrows, Nat.sub_diag.
        apply lookup_replicate. split; [done|lia].
      * intros [t c] He. rewrite Hlen. by eapply (wf_edges d Hwf).
    + rewrite filter_cons_False by congruence.
      rewrite filter_nil. simpl. by rewrite app_nil_r, Nat.add_0_r.
Qed.

End prune.

(** The whole method, on a machine that meets the constructor's contract. *)
Lemma eliminate_unreachable_states_wf (d : DFSM) :
  wf d → ∃ d' sv, eliminate_unreachable_states d = Ok d' ∧ pruning d sv d'.
Proof.
  intros Hwf. destruct (bfs_reachable d Hwf) as (used & Ebfs & Hlen & Hused).
  destruct (renumber_spec used (number_states d)) as (m & Em & Hm); [lia|].
  assert (∀ s, used !! s = Some true → m !! s = Some (new_index (survivors used) s)) as Hnsn.
  { intros s Hs. rewrite Hm. pose proof (lookup_lt_Some _ _ _ Hs) as Hlt.
    rewrite decide_True by (split; [lia|done]). f_equal. symmetry. apply new_index_rank. lia. }
  eexists _, (survivors used). split.
  - unfold eliminate_unreachable_states, setitem.
    rewrite decide_True by (rewrite length_replicate; apply (wf_init d Hwf)).
    cbn [bind]. rewrite Ebfs. cbn [bind]. rewrite Em. cbn [bind fst snd].
    rewrite (copy_rows_spec d used m Hnsn Hwf Hlen) by done. cbn [bind].
    unfold getkey. rewrite (Hnsn (initial_state d)) by (apply Hused; constructor).
    cbn [bind]. rewrite (copy_acc_spec used m Hnsn).
    + cbn [bind app]. reflexivity.
    + rewrite Hlen. apply (wf_acc d Hwf).
  - split; simpl.
    + apply survivors_sorted.
    + intros s. rewrite elem_of_survivors. apply Hused.
    + apply survivors_position.
    + done.
    + by rewrite survivors_length, Hlen.
    + rewrite Nat.sub_diag. simpl. rewrite app_nil_r. unfold survivors. by rewrite Hlen.
    + done.
    + done.
Qed.

Lemma wf_check_sound d : wf_check d = true → wf d.
Proof.
  unfold wf_check. rewrite !andb_true_iff, !bool_decide_eq_true.
  intros [[[Hrows Hinit] Hedges] Hacc]. split; [done|done| |].
  - intros s row t c Hrow He. rewrite forallb_forall in Hedges.
    apply list_elem_of_lookup_2, list_elem_of_In in Hrow. specialize (Hedges row Hrow).
    rewrite forallb_forall in Hedges. apply list_elem_of_In in He.
    specialize (Hedges (t, c) He). by apply bool_decide_eq_true in Hedges.
  - apply Forall_forall. intros s Hs%list_elem_of_In. rewrite forallb_forall in Hacc.
    specialize (Hacc s Hs). by apply bool_decide_eq_true in Hacc.
Qed.

Lemma test_machine_reachable s : reachable test_machine s → s ∈ [0; 1; 3; 4].
Proof.
  induction 1 as [|s row t c _ IH Hrow Ht]; [set_solver|].
  repeat (apply elem_of_cons in IH as [->|IH]; [simplify_eq/=; set_solver|]).
  by apply elem_of_nil in IH.
Qed.

(** C7. On every machine that meets the constructor's contract
    [eliminate_unreachable_states] succeeds; the states it keeps are exactly
    the reachable ones, numbered in ascending order of their old numbers; each
    kept state keeps its edges into kept states, renumbered; the initial state
    and the reachable accepting states are renumbered. On the machine of the
    module's test it leaves 4 states, state 2 is the unreachable one and the
    accepting list is [3]. *)
Theorem eliminate_unreachable_states_spec :
  (∀ d, wf d → ∃ d' sv, eliminate_unreachable_states d = Ok d' ∧ pruning d sv d') ∧
  eliminate_unreachable_states test_machine =
    Ok (mkDFSM ["a"; "b"; "c"]%char 4
               [[(1, "a"); (2, "b")]; [(3, "c")]; [(3, "c")]; []]%char 0 [3]) ∧
  pruning test_machine [0; 1; 3; 4]
    (mkDFSM ["a"; "b"; "c"]%char 4
            [[(1, "a"); (2, "b")]; [(3, "c")]; [(3, "c")]; []]%char 0 [3]).
Proof.
  split; [apply eliminate_unreachable_states_wf|].
  assert (eliminate_unreachable_states test_machine =
    Ok (mkDFSM ["a"; "b"; "c"]%char 4
               [[(1, "a"); (2, "b")]; [(3, "c")]; [(3, "c")]; []]%char 0 [3])) as E
    by (vm_compute; reflexivity).
  split; [exact E|].
  destruct (eliminate_unreachable_states_wf test_machine) as (d' & sv & E' & Hp).
  { apply wf_check_sound. reflexivity. }
  rewrite E in E'. injection E' as <-.
  assert (sv = [0; 1; 3; 4]) as ->; [|done].
  destruct Hp as [Hsorted Hreach _ _ Hlen _ _ _]. simpl in Hlen.
  assert (0 ∈ sv) as H0 by (apply Hreach; constructor).
  assert (∀ s, s ∈ sv → s ∈ [0; 1; 3; 4]) as Hsub.
  { intros s Hs. by apply test_machine_reachable, Hreach. }
  apply (StronglySorted_unique_strong lt); [|done| |].
  - intros x1 x2 _ _ ? ?. lia.
  - repeat constructor; lia.
  - apply NoDup_Permutation.
    + by apply sorted_lt_NoDup.
    + apply sorted_lt_NoDup. repeat constructor; lia.
    + intros s. split; [apply Hsub|]. intros Hs. apply Hreach.
      assert (reachable test_machine 1) as H1.
      { eapply (reach_step _ 0 _ 1 "a"%char); [constructor|reflexivity|set_solver]. }
      assert (reachable test_machine 3) as H3.
      { eapply (reach_step _ 0 _ 3 "b"%char); [constructor|reflexivity|set_solver]. }
      assert (reachable test_machine 4) as H4.
      { eapply (reach_step _ 1 _ 4 "c"%char); [done|reflexivity|set_solver]. }
      repeat (apply elem_of_cons in Hs as [->|Hs]; [done || constructor|]).
      by apply elem_of_nil in Hs.
Qed.

Lemma eliminate_unreachable_states_spec_witness :
  wf test_machine ∧
  ∃ d' sv, eliminate_unreachable_states test_machine = Ok d' ∧ pruning test_machine sv d'.
Proof.
  assert (wf test_machine) as H by (apply wf_check_sound; reflexivity).
  split; [exact H|].
  exact (proj1 eliminate_unreachable_states_spec test_machine H).
Defined.

(** *** reduce_dfsm: more fuel never changes a result *)

Lemma for_classes_fuel d fuel fuel' set_states char i classes q r :
  for_classes d fuel set_states char i classes q = Ok r → fuel ≤ fuel' →
  for_classes d fuel' set_states char i classes q = Ok r.
Proof.
  revert fuel' i classes q. induction fuel as [|fuel IH]; intros fuel' i classes q H Hle.
  - destruct fuel'; simpl in *; destruct (classes !! i); done.
  - destruct fuel' as [|fuel']; [lia|]. simpl in *.
    destruct (classes !! i) as [s|]; [|done].
    destruct (split_class d set_states char s) as [fs| |]; simpl in *; try done.
    destruct (negb (length fs.1 =? 0) && negb (length fs.2 =? 0)).
    + destruct (list_remove s classes) as [classes'| |]; simpl in *; try done.
      apply IH; [done|lia].
    + apply IH; [done|lia].
Qed.

Lemma refine_fuel d fuel fuel' classes q r :
  refine d fuel classes q = Ok r → fuel ≤ fuel' → refine d fuel' classes q = Ok r.
Proof.
  revert fuel' classes q. induction fuel as [|fuel IH]; intros fuel' classes q H Hle.
  - destruct fuel'; simpl in *; destruct q as [|[??] ?]; done.
  - destruct fuel' as [|fuel']; [lia|]. simpl in *.
    destruct q as [|[set_states char] q]; [done|].
    destruct (for_classes d fuel set_states char 0 classes q) as [cq| |] eqn:E; simpl in *; try done.
    rewrite (for_classes_fuel _ _ fuel' _ _ _ _ _ _ E) by lia. simpl.
    apply IH; [done|lia].
Qed.

Lemma reduce_dfsm_fuel d fuel fuel' m :
  reduce_dfsm fuel d = Ok m → fuel ≤ fuel' → reduce_dfsm fuel' d = Ok m.
Proof.
  unfold reduce_dfsm, final_classes. intros H Hle.
  destruct (refine d fuel _ _) as [classes| |] eqn:E; simpl in *; try done.
  by rewrite (refine_fuel _ _ fuel' _ _ _ E Hle).
Qed.

(** *** reduce_dfsm on the two small machines *)

Lemma skipping_machine_dfa : wf skipping_machine ∧ deterministic skipping_machine.
Proof.
  split; [apply wf_check_sound; reflexivity|].
  intros s row Hrow.
  do 4 (destruct s as [|s]; [simplify_eq/=; repeat constructor; set_solver|]).
  done.
Qed.

(** C1, at [skipping_machine] (a deterministic machine, every state
    reachable): the machine spells out that [aab] is rejected, since 1 has no
    edge on [a], while the machine [reduce_dfsm] builds from it accepts [aab]. *)
Theorem reduce_dfsm_changes_language :
  wf skipping_machine ∧ deterministic skipping_machine ∧
  ∃ p m,
    eliminate_unreachable_states skipping_machine = Ok p ∧
    (∀ fuel, 100 ≤ fuel → reduce_dfsm fuel p = Ok m) ∧
    accepts skipping_machine "aab" = Ok false ∧
    accepts m "aab" = Ok true.
Proof.
  split; [apply skipping_machine_dfa|]. split; [apply skipping_machine_dfa|].
  exists skipping_machine.
  exists (mkDFSM ["a"; "b"]%char 3
                 [[(2, "b"); (0, "a")]; [(0, "a"); (0, "b")]; []]%char 1 [2; 1]).
  split_and!; try (vm_compute; reflexivity).
  intros fuel Hfuel. apply (reduce_dfsm_fuel _ 100); [vm_compute; reflexivity|done].
Qed.

(** C6, at [skipping_machine]: with the partition [[0;3]; [1;2]] the task
    ([1;2], a) splits the class [0;3], and the class [1;2] that follows it in
    the list is not looked at during this task, although its two halves [2]
    and [1] are both non-empty; it is still one class when the loop ends. *)
Theorem for_classes_skips_next_class :
  [acceptable_states skipping_machine; not_acceptable_states skipping_machine]
    = [[0; 3]; [1; 2]] ∧
  (∀ fuel, 100 ≤ fuel →
     for_classes skipping_machine fuel [0; 3] "a" 0 [[0; 3]; [1; 2]]
                 [([1; 2], "a"); ([0; 3], "b"); ([1; 2], "b")]%char
     = Ok ([[0; 3]; [1; 2]], [([1; 2], "a"); ([0; 3], "b"); ([1; 2], "b")]%char)) ∧
  split_class skipping_machine [1; 2] "a" [1; 2] = Ok ([2], [1]) ∧
  (∀ fuel, 100 ≤ fuel →
     for_classes skipping_machine fuel [1; 2] "a" 0 [[0; 3]; [1; 2]]
                 [([0; 3], "b"); ([1; 2], "b")]%char
     = Ok ([[1; 2]; [3]; [0]],
           [([0; 3], "b"); ([1; 2], "b");
            ([3], "a"); ([0], "a"); ([3], "b"); ([0], "b")]%char)) ∧
  (∀ fuel, 100 ≤ fuel → final_classes fuel skipping_machine = Ok [[1; 2]; [3]; [0]]).
Proof.
  split_and!; try (vm_compute; reflexivity).
  - intros fuel Hfuel. apply (for_classes_fuel _ 100); [vm_compute; reflexivity|done].
  - intros fuel Hfuel. apply (for_classes_fuel _ 100); [vm_compute; reflexivity|done].
  - intros fuel Hfuel. apply (refine_fuel _ 100); [vm_compute; reflexivity|done].
Qed.

(** C8, at [loop_machine]: one state before and after pruning, two states
    after [reduce_dfsm] (the empty class of accepting states is numbered as a
    state) and three after [reduce_dfsm] once more. *)
Theorem reduce_dfsm_not_idempotent :
  wf loop_machine ∧ deterministic loop_machine ∧
  ∃ p m m',
    eliminate_unreachable_states loop_machine = Ok p ∧
    (∀ fuel, 100 ≤ fuel → reduce_dfsm fuel p = Ok m) ∧
    (∀ fuel, 100 ≤ fuel → reduce_dfsm fuel m = Ok m') ∧
    number_states p = 1 ∧ number_states m = 2 ∧ number_states m' = 3.
Proof.
  split; [apply wf_check_sound; reflexivity|]. split.
  { intros s row Hrow. destruct s as [|s]; [|done]. simplify_eq/=. repeat constructor; set_solver. }
  exists loop_machine.
  exists (mkDFSM ["a"]%char 2 [[]; [(1, "a")]]%char 1 []).
  exists (mkDFSM ["a"]%char 3 [[]; [(1, "a")]; []]%char 1 []).
  split_and!; try (vm_compute; reflexivity).
  - intros fuel Hfuel. apply (reduce_dfsm_fuel _ 100); [vm_compute; reflexivity|done].
  - intros fuel Hfuel. apply (reduce_dfsm_fuel _ 100); [vm_compute; reflexivity|done].
Qed.

End DfsmFacts.

Module EilenbergFacts.
Import PyFacts Eilenberg.

(** *** The star construction *)

Section asterisk.
Context (acc init : list nat).

Lemma asterisk_row_tail added pre fuel :
  (∀ e, e ∈ added → e.1 ∉ acc) → length added ≤ fuel →
  asterisk_row fuel acc init (length pre) (pre ++ added) = Ok (pre ++ added).
Proof.
  revert pre fuel. induction added as [|e added IH]; intros pre fuel Hadd Hfuel.
  - rewrite app_nil_r. destruct fuel; simpl; by rewrite lookup_ge_None_2.
  - destruct fuel as [|fuel]; [simpl in Hfuel; lia|]. simpl.
    rewrite list_lookup_middle by done. destruct e as [state character].
    assert (contains acc state = false) as ->.
    { apply contains_false. apply (Hadd (state, character)). by left. }
    replace (S (length pre)) with (length (pre ++ [(state, character)]))
      by (rewrite length_app; simpl; lia).
    rewrite (cons_middle _ pre added), app_assoc. apply IH.
    + intros e He. apply Hadd. by right.
    + simpl in Hfuel. lia.
Qed.

Context (Hsep : ∀ s, s ∈ init → s ∉ acc).

Lemma back_edges_init e e' : e' ∈ back_edges acc init e → e'.1 ∈ init.
Proof.
  unfold back_edges. destruct (contains acc e.1); [|by intros ?%elem_of_nil].
  intros (s & -> & Hs)%list_elem_of_fmap. done.
Qed.

(** The index loop over a row that grows: it visits the old edges, adds
    their back edges, then visits the added edges, which add nothing. *)
Lemma asterisk_row_spec rest pre added fuel :
  (∀ e, e ∈ added → e.1 ∈ init) →
  length rest + length added + length (rest ≫= back_edges acc init) ≤ fuel →
  asterisk_row fuel acc init (length pre) (pre ++ rest ++ added)
  = Ok (pre ++ rest ++ added ++ (rest ≫= back_edges acc init)).
Proof.
  revert pre added fuel. induction rest as [|e rest IH]; intros pre added fuel Hadd Hfuel.
  - simpl. rewrite app_nil_r. apply asterisk_row_tail; [|simpl in Hfuel; lia].
    intros e He. apply Hsep. by apply Hadd.
  - destruct fuel as [|fuel]; [simpl in Hfuel; lia|]. simpl.
    rewrite list_lookup_middle by done. destruct e as [state character].
    replace (S (length pre)) with (length (pre ++ [(state, character)]))
      by (rewrite length_app; simpl; lia).
    cbn [length] in Hfuel. rewrite bind_cons, length_app in Hfuel.
    assert (back_edges acc init (state, character)
            = if contains acc state
              then (λ init_state, (init_state, character)) <$> init else []) as HB by done.
    rewrite HB in *. destruct (contains acc state) eqn:Hc.
    + replace ((pre ++ (state, character) :: rest ++ added)
               ++ ((λ init_state, (init_state, character)) <$> init))
        with ((pre ++ [(state, character)]) ++ rest
              ++ (added ++ ((λ init_state, (init_state, character)) <$> init)))
        by reassoc.
      rewrite IH.
      * f_equal. reassoc.
      * intros e [He|He]%elem_of_app; [by apply Hadd|].
        apply list_elem_of_fmap in He as (s & -> & Hs). done.
      * rewrite length_app. lia.
    + replace (pre ++ (state, character) :: rest ++ added)
        with ((pre ++ [(state, character)]) ++ rest ++ added)
        by reassoc.
      rewrite IH; [|done|simpl in Hfuel; lia].
      f_equal. reassoc.
Qed.

Lemma asterisk_fold fuel t j :
  (∀ row, row ∈ t → length row + length (row ≫= back_edges acc init) ≤ fuel) →
  j ≤ length t →
  foldM (asterisk_state fuel acc init) (seq 0 j) t
  = Ok ((starred_row acc init <$> take j t) ++ drop j t).
Proof.
  intros Hfuel. induction j as [|j IH]; intros Hj.
  - simpl. by rewrite drop_0.
  - rewrite seq_S. simpl. rewrite (foldM_snoc _ _ _ _ _ (IH ltac:(lia))).
    destruct (lookup_lt_is_Some_2 t j) as [row Hrow]; [lia|].
    assert (length (starred_row acc init <$> take j t) = j) as Hlen.
    { rewrite length_fmap, length_take. lia. }
    unfold asterisk_state, getitem.
    rewrite lookup_app_r by lia. rewrite Hlen, Nat.sub_diag, lookup_drop, Nat.add_0_r, Hrow.
    cbn [bind].
    pose proof (asterisk_row_spec row [] [] fuel) as Hspec. simpl in Hspec.
    rewrite app_nil_r in Hspec. rewrite Hspec.
    + cbn [bind]. f_equal. rewrite insert_app_r_alt by lia. rewrite Hlen, Nat.sub_diag.
      rewrite (take_S_r _ _ _ Hrow), fmap_app, <- app_assoc. f_equal.
      rewrite (drop_S _ _ _ Hrow). done.
    + intros e He. by apply elem_of_nil in He.
    + specialize (Hfuel row (list_elem_of_lookup_2 _ _ _ Hrow)). lia.
Qed.

End asterisk.

Lemma finite_bound {A} (f : A → nat) (l : list A) : ∃ F, ∀ x, x ∈ l → f x ≤ F.
Proof.
  induction l as [|y l [F HF]]; [exists 0; by intros x ?%elem_of_nil|].
  exists (f y `max` F). intros x [->|Hx]%elem_of_cons; [lia|]. specialize (HF x Hx). lia.
Qed.

(** The star construction keeps the states and adds, to every row, the back
    edges of its edges. *)
Lemma oper_asterisk_good m :
  good m →
  ∃ m' fuel0,
    (∀ fuel, fuel0 ≤ fuel → oper_asterisk fuel (Some m) = Ok (Some m')) ∧
    good m' ∧
    transitions_between_states m'
      = starred_row (acceptable_states m) (initial_states m) <$> transitions_between_states m ∧
    initial_states m' = initial_states m ∧
    acceptable_states m' = acceptable_states m.
Proof.
  intros [Hwf Hsep].
  destruct (finite_bound
    (fun row => length row + length (row ≫= back_edges (acceptable_states m) (initial_states m)))
    (transitions_between_states m)) as [F HF].
  eexists (mkEM (number_states m) _ (initial_states m) (acceptable_states m)), F.
  split; [|split; [|done]].
  - intros fuel Hfuel. unfold oper_asterisk.
    rewrite (asterisk_fold _ _ Hsep).
    + cbn [bind]. rewrite <- (wf_rows m Hwf), firstn_all, drop_all, app_nil_r. reflexivity.
    + intros row Hrow. specialize (HF row Hrow). lia.
    + by rewrite (wf_rows m Hwf).
  - split; [|done]. destruct Hwf as [Hrows Hedges Hinit Hacc Hnd]. split; simpl; try done.
    + by rewrite length_fmap.
    + intros s row e Hrow He. rewrite list_lookup_fmap in Hrow.
      destruct (transitions_between_states m !! s) as [row0|] eqn:E; [|done].
      simpl in Hrow. injection Hrow as <-. unfold starred_row in He.
      apply elem_of_app in He as [He|He]; [by eapply Hedges|].
      apply list_elem_of_bind in He as (e0 & He & _).
      apply back_edges_init in He. rewrite Forall_forall in Hinit. by apply Hinit.
Qed.

(** *** Tables of rows *)

Lemma append_to_ok n t i e :
  table_ok n t → i < n → e.1 < n → ∃ t', append_to t i e = Ok t' ∧ table_ok n t'.
Proof.
  intros [Hlen Hedges] Hi He.
  destruct (lookup_lt_is_Some_2 t i) as [row Hrow]; [lia|].
  exists (<[i:=row ++ [e]]> t). split; [by apply append_to_Ok|].
  split; [by rewrite length_insert|].
  intros s row' e' Hs He'. destruct (decide (s = i)) as [->|Hne].
  - rewrite list_lookup_insert_eq in Hs by lia. injection Hs as <-.
    apply elem_of_app in He' as [He'|He']; [by eapply Hedges|].
    apply list_elem_of_singleton in He' as ->. done.
  - rewrite list_lookup_insert_ne in Hs by done. by eapply Hedges.
Qed.

Lemma foldM_table {A} n (f : list (list (nat * json)) → A → res (list (list (nat * json)))) l t :
  table_ok n t →
  (∀ t x, x ∈ l → table_ok n t → ∃ t', f t x = Ok t' ∧ table_ok n t') →
  ∃ t', foldM f l t = Ok t' ∧ table_ok n t'.
Proof.
  intros Ht Hstep.
  apply (foldM_invariant (fun _ t => table_ok n t)); [done|].
  intros pre x post t0 -> Ht0. apply Hstep; [|done]. set_solver.
Qed.

Lemma table_ok_extend n k t :
  table_ok n t → table_ok (n + k) (t ++ replicate k []).
Proof.
  intros [Hlen Hedges]. split.
  - rewrite length_app, length_replicate. lia.
  - intros s row e Hs He. destruct (decide (s < length t)) as [Hlt|Hge].
    + rewrite lookup_app_l in Hs by done. specialize (Hedges _ _ _ Hs He). lia.
    + rewrite lookup_app_r in Hs by lia. apply lookup_replicate in Hs as [-> _].
      by apply elem_of_nil in He.
Qed.

(** *** Concatenation *)

Lemma count_noninit init n :
  NoDup init → Forall (fun s => s < n) init →
  length init ≤ n ∧ count_below (fun x => x ∉ init) n = n - length init.
Proof.
  intros Hnd Hin. unfold count_below.
  pose proof (filter_app_complement (fun x => x ∈ init) (seq 0 n)) as Hperm.
  apply Permutation_length in Hperm. rewrite length_app, length_seq in Hperm.
  assert (filter (fun x => x ∈ init) (seq 0 n) ≡ₚ init) as Hinit.
  { apply NoDup_Permutation; [apply NoDup_filter, NoDup_seq|done|].
    intros x. rewrite list_elem_of_filter, elem_of_seq. split; [tauto|].
    intros Hx. split; [done|]. rewrite Forall_forall in Hin. specialize (Hin x Hx). lia. }
  apply Permutation_length in Hinit. lia.
Qed.

Lemma renumber_snd_spec init n0 j :
  ∃ m, foldl (renumber_snd init) (∅, n0) (seq 0 j) = (m, n0 + count_below (fun x => x ∉ init) j) ∧
       ∀ s, m !! s = if decide (s < j ∧ s ∉ init)
                     then Some (n0 + count_below (fun x => x ∉ init) s) else None.
Proof.
  induction j as [|j (m & E & Hm)].
  - exists ∅. split; [simpl; f_equal; unfold count_below; simpl; lia|].
    intros s. rewrite lookup_empty. case_decide; [lia|done].
  - rewrite seq_S, foldl_snoc, E. simpl. unfold renumber_snd. simpl.
    rewrite count_below_S. destruct (contains init j) eqn:Hc.
    + apply contains_true in Hc. exists m.
      rewrite decide_False by tauto. split; [f_equal; lia|].
      intros s. rewrite Hm. apply decide_ext. split; intros [? ?]; split; try done; try lia.
      destruct (decide (s = j)) as [->|]; [done|lia].
    + apply contains_false in Hc. eexists. rewrite decide_True by done.
      split; [f_equal; lia|]. intros s. destruct (decide (s = j)) as [->|Hne].
      * rewrite lookup_insert_eq. rewrite decide_True; [done|]. split; [lia|done].
      * rewrite lookup_insert_ne by done. rewrite Hm.
        apply decide_ext. split; intros [? ?]; split; try done; lia.
Qed.

Lemma renumber_acc_spec nsn (f : nat → nat) l a0 :
  (∀ x, x ∈ l → nsn !! x = Some (f x)) →
  foldM (renumber_acc nsn) l a0 = Ok (a0 ++ (f <$> l)).
Proof.
  revert a0. induction l as [|x l IH]; intros a0 Hl.
  - simpl. by rewrite app_nil_r.
  - simpl. unfold renumber_acc at 1, getkey. rewrite (Hl x) by by left. simpl.
    rewrite IH by (intros y Hy; apply Hl; by right). f_equal. reassoc.
Qed.

Section concat.
Context (n : nat) (acc_fst init_snd : list nat) (nsn : gmap nat nat) (n_snd : nat).
Context (Hacc : ∀ a, a ∈ acc_fst → a < n).
Context (Hnsn : ∀ x, x < n_snd → x ∉ init_snd → ∃ j, nsn !! x = Some j ∧ j < n).

Lemma concat_edge_ok s t e :
  table_ok n t → s < n_snd → e.1 < n_snd →
  ∃ t', concat_edge acc_fst init_snd nsn s t e = Ok t' ∧ table_ok n t'.
Proof.
  intros Ht Hs He. unfold concat_edge.
  destruct (contains init_snd s) eqn:Hcs, (contains init_snd e.1) eqn:Hce; simpl.
  - apply foldM_table; [done|]. intros t0 a Ha Ht0.
    apply append_to_ok; auto.
  - apply contains_false in Hce.
    apply foldM_table; [done|]. intros t0 a Ha Ht0.
    destruct (Hnsn e.1 He Hce) as (j & Ej & Hj).
    destruct (lookup_lt_is_Some_2 t0 a) as [row Hrow]; [destruct Ht0 as [-> _]; auto|].
    unfold getitem, getkey. rewrite Hrow, Ej. simpl. by apply append_to_ok; auto.
  - apply contains_false in Hcs.
    apply foldM_table; [done|]. intros t0 a Ha Ht0.
    destruct (Hnsn s Hs Hcs) as (i & Ei & Hi).
    unfold getkey. rewrite Ei. simpl. apply append_to_ok; auto.
  - apply contains_false in Hcs. apply contains_false in Hce.
    destruct (Hnsn s Hs Hcs) as (i & Ei & Hi). destruct (Hnsn e.1 He Hce) as (j & Ej & Hj).
    destruct (lookup_lt_is_Some_2 t i) as [row Hrow]; [destruct Ht as [-> _]; auto|].
    unfold getitem, getkey. rewrite Ei. simpl. rewrite Hrow. simpl. rewrite Ej. simpl.
    by apply append_to_ok.
Qed.

Lemma concat_rows_ok (snd : EilenbergMachine) t :
  wf snd → number_states snd = n_snd → initial_states snd = init_snd →
  table_ok n t →
  ∃ t', foldM (concat_row snd acc_fst nsn) (seq 0 n_snd) t = Ok t' ∧ table_ok n t'.
Proof.
  intros Hwf Hn Hinit Ht. apply foldM_table; [done|].
  intros t0 s Hs%elem_of_seq Ht0. unfold concat_row.
  destruct (lookup_lt_is_Some_2 (transitions_between_states snd) s) as [row Hrow].
  { rewrite (wf_rows snd Hwf). lia. }
  unfold getitem. rewrite Hrow. simpl. rewrite Hinit. apply foldM_table; [done|].
  intros t1 e He Ht1. apply concat_edge_ok; [done|lia|].
  rewrite <- Hn. by eapply (wf_edges snd Hwf).
Qed.

End concat.

(** Concatenation of two machines, when no accepting state of the second one
    is initial. *)
Lemma oper_concat_spec a b :
  wf a → wf b → separated b →
  ∃ m, oper_concat (Some a) (Some b) = Ok (Some m) ∧ wf m ∧
       number_states m = number_states a + number_states b - length (initial_states b) ∧
       initial_states m = initial_states a ∧
       acceptable_states m = remap a b <$> acceptable_states b.
Proof.
  intros Ha Hb Hsep.
  destruct (count_noninit (initial_states b) (number_states b)) as [Hle Hcnt];
    [apply (wf_init_nodup b Hb)|apply (wf_init b Hb)|].
  destruct (renumber_snd_spec (initial_states b) (number_states a) (number_states b))
    as (nsn & Ensn & Hnsn).
  set (n := number_states a + number_states b - length (initial_states b)).
  assert (∀ x, x < number_states b → x ∉ initial_states b →
               nsn !! x = Some (remap a b x) ∧ remap a b x < n) as Hmap.
  { intros x Hx Hni. rewrite Hnsn. rewrite decide_True by done. split; [done|].
    unfold remap, n.
    pose proof (count_below_lt (fun y => y ∉ initial_states b) x (number_states b) Hx Hni).
    lia. }
  destruct (concat_rows_ok n (acceptable_states a) (initial_states b) nsn (number_states b))
    with (snd := b)
         (t := transitions_between_states a
               ++ replicate (number_states b - length (initial_states b)) [])
    as (t & Et & Ht); try done.
  { intros s Hs. pose proof (wf_acc a Ha) as Hacc. rewrite Forall_forall in Hacc.
    specialize (Hacc s Hs). unfold n. lia. }
  { intros x Hx Hni. exists (remap a b x). by apply Hmap. }
  { replace n with (number_states a + (number_states b - length (initial_states b)))
      by (unfold n; lia).
    apply table_ok_extend. split; [apply (wf_rows a Ha)|apply (wf_edges a Ha)]. }
  assert (∀ x, x ∈ acceptable_states b → x < number_states b ∧ x ∉ initial_states b) as Haccb.
  { intros x Hx. split.
    - pose proof (wf_acc b Hb) as H. rewrite Forall_forall in H. by apply H.
    - intros Hi. by apply (Hsep x). }
  eexists. split.
  - unfold oper_concat. rewrite Ensn. cbn [fst snd]. rewrite Et. cbn [bind].
    rewrite (renumber_acc_spec nsn (remap a b)).
    + cbn [bind app]. reflexivity.
    + intros x Hx. apply Hmap; by apply Haccb.
  - split; [|done]. destruct Ht as [Hlen Hedges]. split; simpl; try done.
    + pose proof (wf_init a Ha) as H. eapply Forall_impl; [exact H|]. simpl. intros; lia.
    + apply Forall_forall. intros s (x & -> & Hx)%list_elem_of_fmap.
      apply Hmap; by apply Haccb.
    + apply (wf_init_nodup a Ha).
Qed.

Lemma oper_concat_good a b :
  good a → good b → ∃ m, oper_concat (Some a) (Some b) = Ok (Some m) ∧ good m.
Proof.
  intros [Ha _] [Hb Hsep]. destruct (oper_concat_spec a b Ha Hb Hsep) as (m & E & Hm & _ & Hi & Hacc).
  exists m. split; [done|]. split; [done|].
  intros s Hs Hs'. rewrite Hi in Hs. rewrite Hacc in Hs'.
  apply list_elem_of_fmap in Hs' as (x & -> & _).
  pose proof (wf_init a Ha) as H. rewrite Forall_forall in H. specialize (H _ Hs).
  unfold remap in H. lia.
Qed.

(** *** Union *)

Lemma oper_or_good a b :
  good a → good b → ∃ m, oper_or (Some a) (Some b) = Ok (Some m) ∧ good m.
Proof.
  intros [Ha Hsa] [Hb Hsb].
  set (n := number_states a + number_states b).
  assert (∃ t, foldM (or_row b (number_states a)) (seq 0 (number_states b))
                 (transitions_between_states a ++ replicate (number_states b) []) = Ok t
               ∧ table_ok n t) as (t & Et & Ht).
  { apply foldM_table.
    - apply table_ok_extend. split; [apply (wf_rows a Ha)|apply (wf_edges a Ha)].
    - intros t0 s Hs%elem_of_seq Ht0. unfold or_row.
      destruct (lookup_lt_is_Some_2 (transitions_between_states b) s) as [row Hrow].
      { rewrite (wf_rows b Hb). lia. }
      unfold getitem. rewrite Hrow. simpl. apply foldM_table; [done|].
      intros t1 e He Ht1. unfold or_edge. apply append_to_ok; [done|unfold n; lia|].
      simpl. pose proof (wf_edges b Hb s row e Hrow He). unfold n. lia. }
  pose proof (wf_init a Ha) as Hia. pose proof (wf_init b Hb) as Hib.
  pose proof (wf_acc a Ha) as Haa. pose proof (wf_acc b Hb) as Hab.
  rewrite Forall_forall in Hia, Hib, Haa, Hab.
  eexists. split.
  - unfold oper_or. rewrite Et. cbn [bind]. reflexivity.
  - destruct Ht as [Hlen Hedges]. split; [split|]; simpl; try done.
    + apply Forall_forall. intros s [Hs|(x & -> & Hx)%list_elem_of_fmap]%elem_of_app.
      * specialize (Hia s Hs). lia.
      * specialize (Hib x Hx). lia.
    + apply Forall_forall. intros s [Hs|(x & -> & Hx)%list_elem_of_fmap]%elem_of_app.
      * specialize (Haa s Hs). lia.
      * specialize (Hab x Hx). lia.
    + apply NoDup_app. split_and!.
      * apply (wf_init_nodup a Ha).
      * intros s Hs (x & -> & Hx)%list_elem_of_fmap. specialize (Hia _ Hs). lia.
      * apply NoDup_fmap_2_strong; [|apply (wf_init_nodup b Hb)]. intros x y _ _ ?. lia.
    + intros s [Hs|(x & -> & Hx)%list_elem_of_fmap]%elem_of_app
             [Hs'|(y & Hy & Hy')%list_elem_of_fmap]%elem_of_app.
      * by apply (Hsa s).
      * specialize (Hia s Hs). lia.
      * specialize (Haa _ Hs'). lia.
      * assert (x = y) as -> by lia. by apply (Hsb y).
Qed.

(** *** Atoms and the whole translation *)

Lemma machine_wf_check_sound m : wf_check m = true → wf m.
Proof.
  unfold wf_check. rewrite !andb_true_iff, !bool_decide_eq_true.
  intros [[[[Hrows Hedges] Hinit] Hacc] Hnd]. split; [done| | | |done].
  - intros s row e Hrow He. rewrite forallb_forall in Hedges.
    apply list_elem_of_lookup_2, list_elem_of_In in Hrow. specialize (Hedges row Hrow).
    rewrite forallb_forall in Hedges. apply list_elem_of_In in He.
    specialize (Hedges e He). by apply bool_decide_eq_true in Hedges.
  - apply Forall_forall. intros s Hs%list_elem_of_In. rewrite forallb_forall in Hinit.
    specialize (Hinit s Hs). by apply bool_decide_eq_true in Hinit.
  - apply Forall_forall. intros s Hs%list_elem_of_In. rewrite forallb_forall in Hacc.
    specialize (Hacc s Hs). by apply bool_decide_eq_true in Hacc.
Qed.

Lemma atom_machine_good value : good (atom_machine value).
Proof.
  split.
  - split; simpl; [done| | | |].
    + intros s row e Hrow He. destruct s as [|[|s]]; simplify_eq/=.
      * apply list_elem_of_singleton in He as ->. simpl. lia.
      * by apply elem_of_nil in He.
    + repeat constructor.
    + repeat constructor.
    + apply NoDup_singleton.
  - intros s Hs Hs'. simpl in *. set_solver.
Qed.

Lemma get_Eilenberg_machine_good reg_expr :
  well_formed reg_expr →
  ∃ m fuel0,
    (∀ fuel, fuel0 ≤ fuel → get_Eilenberg_machine fuel reg_expr = Ok (Some m)) ∧ good m.
Proof.
  induction 1 as [s|e _ (m & f & E & Hm)|l r _ (a & fa & Ea & Ha) _ (b & fb & Eb & Hb)
                  |l r _ (a & fa & Ea & Ha) _ (b & fb & Eb & Hb)].
  - exists (atom_machine (JStr s)), 0. split; [done|apply atom_machine_good].
  - destruct (oper_asterisk_good m Hm) as (m' & f' & E' & Hm' & _).
    exists m', (f `max` f'). split; [|done]. intros fuel Hfuel.
    cbn. rewrite E by lia. cbn [bind]. apply E'. lia.
  - destruct (oper_concat_good a b Ha Hb) as (m & E & Hm).
    exists m, (fa `max` fb). split; [|done]. intros fuel Hfuel.
    cbn. rewrite Ea, Eb by lia. done.
  - destruct (oper_or_good a b Ha Hb) as (m & E & Hm).
    exists m, (fa `max` fb). split; [|done]. intros fuel Hfuel.
    cbn. rewrite Ea, Eb by lia. done.
Qed.

(** *** accept on the empty string *)

Lemma accept_loop_empty m l fuel :
  (∀ s, s ∈ l → s ∉ acceptable_states m) → length l ≤ fuel →
  accept_loop m fuel ((fun state => (state, EmptyString)) <$> l) = Ok false.
Proof.
  revert fuel. induction l as [|s l IH]; intros fuel Hl Hfuel.
  - by destruct fuel.
  - destruct fuel as [|fuel]; [simpl in Hfuel; lia|]. simpl.
    assert (contains (acceptable_states m) s = false) as ->.
    { apply contains_false. apply Hl. by left. }
    apply IH; [|simpl in Hfuel; lia]. intros s' Hs'. apply Hl. by right.
Qed.

Lemma accept_empty m fuel :
  separated m → length (initial_states m) ≤ fuel → accept fuel m "" = Ok false.
Proof. intros Hsep Hfuel. unfold accept. by apply accept_loop_empty. Qed.

(** C10. Atoms are built with separate initial and accepting states, the
    star, concatenation and union constructions succeed on machines that
    have them separate and give a machine that has them separate; hence for
    every well-formed record [get_Eilenberg_machine] returns a machine in
    which no state is both initial and accepting, and [accept] answers
    [False] on the empty string. *)
Theorem get_Eilenberg_machine_separated :
  (∀ value, good (atom_machine value)) ∧
  (∀ m, good m → ∃ m' fuel0,
      (∀ fuel, fuel0 ≤ fuel → oper_asterisk fuel (Some m) = Ok (Some m')) ∧ good m') ∧
  (∀ a b, good a → good b → ∃ m, oper_concat (Some a) (Some b) = Ok (Some m) ∧ good m) ∧
  (∀ a b, good a → good b → ∃ m, oper_or (Some a) (Some b) = Ok (Some m) ∧ good m) ∧
  (∀ reg_expr, well_formed reg_expr →
     ∃ m fuel0, ∀ fuel, fuel0 ≤ fuel →
       get_Eilenberg_machine fuel reg_expr = Ok (Some m) ∧
       separated m ∧
       accept fuel m "" = Ok false).
Proof.
  split_and!.
  - apply atom_machine_good.
  - intros m Hm. destruct (oper_asterisk_good m Hm) as (m' & f & E & Hm' & _). by exists m', f.
  - apply oper_concat_good.
  - apply oper_or_good.
  - intros reg_expr Hwf.
    destruct (get_Eilenberg_machine_good reg_expr Hwf) as (m & f & E & Hm).
    exists m, (f `max` length (initial_states m)). intros fuel Hfuel. split_and!.
    + apply E. lia.
    + apply Hm.
    + apply accept_empty; [apply Hm|lia].
Qed.

Lemma get_Eilenberg_machine_separated_witness :
  well_formed reg_expr_test ∧
  ∃ m fuel0, ∀ fuel, fuel0 ≤ fuel →
    get_Eilenberg_machine fuel reg_expr_test = Ok (Some m) ∧
    separated m ∧
    accept fuel m "" = Ok false.
Proof.
  assert (well_formed reg_expr_test) as H by (repeat constructor).
  split; [exact H|].
  exact (proj2 (proj2 (proj2 (proj2 get_Eilenberg_machine_separated))) reg_expr_test H).
Defined.

(** [get_Eilenberg_machine] hands a starred, concatenated or united record
    to the three builders. *)
Lemma get_Eilenberg_machine_builders fuel e l r :
  get_Eilenberg_machine fuel (JNode "*" e) = _build_Eilenberg_machine_oper_asterisk fuel e ∧
  get_Eilenberg_machine fuel (JNode "." (JPair l r))
    = _build_Eilenberg_machine_oper_concat fuel l r ∧
  get_Eilenberg_machine fuel (JNode "|" (JPair l r))
    = _build_Eilenberg_machine_oper_or fuel l r.
Proof. done. Qed.

(** *** More fuel never changes a result *)

Lemma accept_loop_fuel m fuel fuel' q r :
  accept_loop m fuel q = Ok r → fuel ≤ fuel' → accept_loop m fuel' q = Ok r.
Proof.
  revert fuel' q. induction fuel as [|fuel IH]; intros fuel' q H Hle.
  - destruct q as [|[state expr] q]; [by destruct fuel'|done].
  - destruct fuel' as [|fuel']; [lia|]. destruct q as [|[state expr] q]; [done|].
    simpl in *. destruct expr as [|c rest].
    + destruct (contains (acceptable_states m) state); [done|]. apply IH; [done|lia].
    + destruct (getitem (transitions_between_states m) state) as [row| |]; simpl in *; try done.
      apply IH; [done|lia].
Qed.

Lemma asterisk_row_fuel acc init fuel fuel' i row r :
  asterisk_row fuel acc init i row = Ok r → fuel ≤ fuel' →
  asterisk_row fuel' acc init i row = Ok r.
Proof.
  revert fuel' i row. induction fuel as [|fuel IH]; intros fuel' i row H Hle.
  - destruct fuel'; simpl in *; destruct (row !! i) as [[??]|]; done.
  - destruct fuel' as [|fuel']; [lia|]. simpl in *.
    destruct (row !! i) as [[state character]|]; [|done].
    destruct (contains acc state); (apply IH; [done|lia]).
Qed.

Lemma asterisk_fold_fuel acc init fuel fuel' l t r :
  foldM (asterisk_state fuel acc init) l t = Ok r → fuel ≤ fuel' →
  foldM (asterisk_state fuel' acc init) l t = Ok r.
Proof.
  revert t. induction l as [|s l IH]; intros t H Hle; [done|]. simpl in *.
  unfold asterisk_state at 1 in H. unfold asterisk_state at 1.
  destruct (getitem t s) as [row| |]; simpl in *; try done.
  destruct (asterisk_row fuel acc init 0 row) as [row'| |] eqn:E; simpl in *; try done.
  rewrite (asterisk_row_fuel _ _ _ fuel' _ _ _ E Hle). simpl. by apply IH.
Qed.

Lemma get_Eilenberg_machine_fuel reg_expr fuel fuel' r :
  get_Eilenberg_machine fuel reg_expr = Ok r → fuel ≤ fuel' →
  get_Eilenberg_machine fuel' reg_expr = Ok r.
Proof.
  intros H Hle. revert r H.
  set (P e := ∀ r, get_Eilenberg_machine fuel e = Ok r → get_Eilenberg_machine fuel' e = Ok r).
  enough (P reg_expr ∧ ∀ l r, reg_expr = JPair l r → P l ∧ P r) as [? _] by done.
  induction reg_expr as [s|key value [IH IHpair]|l [IHl _] r' [IHr _]].
  - split; [done|]. intros ? ? [=].
  - split; [|intros ? ? [=]]. intros r H. cbn in *. repeat case_decide; try done.
    + destruct (get_Eilenberg_machine fuel value) as [m| |] eqn:Em; simpl in *; try done.
      rewrite (IH _ Em). simpl. destruct m as [m|]; [|done]. simpl in *.
      destruct (foldM _ _ _) as [t| |] eqn:E; simpl in *; try done.
      by rewrite (asterisk_fold_fuel _ _ _ fuel' _ _ _ E Hle).
    + destruct value as [|?|l r']; try done.
      destruct (IHpair l r' eq_refl) as [IHl IHr].
      destruct (get_Eilenberg_machine fuel l) as [a| |] eqn:Ea; simpl in *; try done.
      rewrite (IHl _ Ea). simpl.
      destruct (get_Eilenberg_machine fuel r') as [b| |] eqn:Eb; simpl in *; try done.
      by rewrite (IHr _ Eb).
    + destruct value as [|?|l r']; try done.
      destruct (IHpair l r' eq_refl) as [IHl IHr].
      destruct (get_Eilenberg_machine fuel l) as [a| |] eqn:Ea; simpl in *; try done.
      rewrite (IHl _ Ea). simpl.
      destruct (get_Eilenberg_machine fuel r') as [b| |] eqn:Eb; simpl in *; try done.
      by rewrite (IHr _ Eb).
  - split; [done|]. intros ? ? [= <- <-]. done.
Qed.

(** *** The machines the builder returns *)





(** C2. The ten answers of the module's test. *)
Theorem accept_reg_expr_test :
  ∃ m, (∀ fuel, 100 ≤ fuel → get_Eilenberg_machine fuel reg_expr_test = Ok (Some m)) ∧
       ∀ fuel, 1000 ≤ fuel →
         accept fuel m "ac" = Ok false ∧
         accept fuel m "" = Ok false ∧
         accept fuel m "bbbda" = Ok false ∧
         accept fuel m "bbabbda" = Ok false ∧
         accept fuel m "abab" = Ok false ∧
         accept fuel m "addeca" = Ok false ∧
         accept fuel m "abbddeaaab" = Ok true ∧
         accept fuel m "aca" = Ok true ∧
         accept fuel m "bdea" = Ok true ∧
         accept fuel m "bbcbb" = Ok true.
Proof.
  eexists. split.
  - intros fuel Hfuel. apply (get_Eilenberg_machine_fuel _ 100); [vm_compute; reflexivity|done].
  - intros fuel Hfuel.
    split_and!; (apply (accept_loop_fuel _ 1000); [vm_compute; reflexivity|done]).
Qed.

Lemma accept_reg_expr_test_witness :
  ∃ m, get_Eilenberg_machine 100 reg_expr_test = Ok (Some m) ∧
       accept 1000 m "ac" = Ok false ∧
       accept 1000 m "" = Ok false ∧
       accept 1000 m "bbbda" = Ok false ∧
       accept 1000 m "bbabbda" = Ok false ∧
       accept 1000 m "abab" = Ok false ∧
       accept 1000 m "addeca" = Ok false ∧
       accept 1000 m "abbddeaaab" = Ok true ∧
       accept 1000 m "aca" = Ok true ∧
       accept 1000 m "bdea" = Ok true ∧
       accept 1000 m "bbcbb" = Ok true.
Proof.
  destruct accept_reg_expr_test as (m & Hget & Hacc).
  exists m. split; [apply Hget; reflexivity|apply Hacc; reflexivity].
Defined.

End EilenbergFacts.

Module RegexFacts.
Import PyFacts Eilenberg Regex.

(** The record of the Eilenberg module's test is the one read from its
    fully bracketed regular expression. *)
Lemma reg_expr_test_parsed :
  conversion_reg_expr_to_json "((a|b*)*.((d*.e)|c)).(b|a)*" = Ok reg_expr_test.
Proof. vm_compute. reflexivity. Qed.

(** C3, at [a.b.c]: when the second [.] is read the [.] on top of the stack
    has the same priority and stays on the stack, so the postfix form is
    [abc..] and not [ab.c.]; the record read back groups to the right. *)
Theorem conversion_to_postfix_expr_equal_priority :
  pop_prioritized "." ["."%char] "ab" = Ok (["."%char], "ab") ∧
  pop_prioritized "|" ["|"%char] "ab" = Ok (["|"%char], "ab") ∧
  pop_prioritized "|" ["."%char] "ab" = Ok ([], "ab.") ∧
  conversion_to_postfix_expr "a.b.c" = Ok "abc.." ∧
  conversion_reg_expr_to_json "a.b.c" = Ok (RConcat (RAtom "a") (RConcat (RAtom "b") (RAtom "c"))).
Proof. split_and!; vm_compute; reflexivity. Qed.

(** C4, at the left-nested concatenation of [a], [b] and [c]: it is written
    [a.b.c] and read back as the right-nested one; the same happens to the
    left-nested union, while the right-nested ones come back unchanged. *)
Theorem round_trip_left_nested :
  conversion_reg_expr_to_str (RConcat (RConcat (RAtom "a") (RAtom "b")) (RAtom "c"))
    = Ok (Some (JStr "a.b.c")) ∧
  round_trip (RConcat (RConcat (RAtom "a") (RAtom "b")) (RAtom "c"))
    = Ok (RConcat (RAtom "a") (RConcat (RAtom "b") (RAtom "c"))) ∧
  RConcat (RAtom "a") (RConcat (RAtom "b") (RAtom "c"))
    ≠ RConcat (RConcat (RAtom "a") (RAtom "b")) (RAtom "c") ∧
  round_trip (RUnion (RUnion (RAtom "a") (RAtom "b")) (RAtom "c"))
    = Ok (RUnion (RAtom "a") (RUnion (RAtom "b") (RAtom "c"))) ∧
  round_trip (RConcat (RAtom "a") (RConcat (RAtom "b") (RAtom "c")))
    = Ok (RConcat (RAtom "a") (RConcat (RAtom "b") (RAtom "c"))) ∧
  round_trip (RUnion (RAtom "a") (RUnion (RAtom "b") (RAtom "c")))
    = Ok (RUnion (RAtom "a") (RUnion (RAtom "b") (RAtom "c"))).
Proof. split_and!; try (vm_compute; reflexivity). discriminate. Qed.

(** C9, as the code has it: a record whose key is none of the four tags
    falls through both [if]/[elif] chains, and both functions return [None]
    without raising. *)
Theorem unknown_key_returns_None fuel key val :
  ¬ known_key key →
  get_Eilenberg_machine fuel (JNode key val) = Ok None ∧
  conversion_reg_expr_to_str (JNode key val) = Ok None.
Proof.
  unfold known_key. intros Hkey. cbn.
  repeat (case_decide; [exfalso; apply Hkey; tauto|]). done.
Qed.

Lemma unknown_key_returns_None_witness :
  get_Eilenberg_machine 0 (JNode "+" (JStr "a")) = Ok None ∧
  conversion_reg_expr_to_str (JNode "+" (JStr "a")) = Ok None.
Proof.
  apply (unknown_key_returns_None 0 "+" (JStr "a")).
  unfold known_key. intros [H|[H|[H|H]]]; discriminate H.
Defined.

(** C9 as stated fails: on the key [+] neither function raises. *)
Lemma unknown_key_does_not_raise :
  ¬ known_key "+" ∧
  ¬ raises (get_Eilenberg_machine 0 (JNode "+" (JStr "a"))) ∧
  ¬ raises (conversion_reg_expr_to_str (JNode "+" (JStr "a"))).
Proof.
  split_and!.
  - unfold known_key. intros [H|[H|[H|H]]]; discriminate H.
  - intros [e He]. discriminate He.
  - intros [e He]. discriminate He.
Qed.

End RegexFacts.

(** * More of DFSM.py *)

Module DfsmMore.
Import PyFacts DfsmFacts Dfsm.

(** *** Finishing *)

Lemma bind_finishes {A B} (m : res A) (f : A → res B) :
  finishes m → (∀ a, m = Ok a → finishes (f a)) → finishes (bind m f).
Proof. destruct m; simpl; auto. Qed.

Lemma foldM_finishes {A B} (f : B → A → res B) l b :
  (∀ b x, finishes (f b x)) → finishes (foldM f l b).
Proof.
  intros Hf. revert b. induction l as [|x l IH]; intros b; [done|].
  simpl. apply bind_finishes; auto.
Qed.

Lemma getitem_finishes {A} (l : list A) i : finishes (getitem l i).
Proof. unfold getitem. by destruct (l !! i). Qed.

Lemma getkey_finishes m k : finishes (getkey m k).
Proof. unfold getkey. by destruct (m !! k). Qed.

Lemma append_to_finishes {A} (t : list (list A)) i x : finishes (append_to t i x).
Proof. unfold append_to. apply bind_finishes; [apply getitem_finishes|done]. Qed.

Lemma visit_row_count row used q used' q' :
  foldM visit row (used, q) = Ok (used', q') →
  length q' + count_unused used' = length q + count_unused used.
Proof.
  revert used q. induction row as [|e row IH]; intros used q H.
  - simpl in H. by simplify_eq.
  - simpl in H. unfold visit at 1 in H. simpl in H. unfold getitem in H.
    destruct (used !! e.1) as [u|] eqn:Hu; [|done]. simpl in H. destruct u.
    + by apply IH.
    + simpl in H. apply IH in H. rewrite H, length_app. simpl.
      rewrite <- (count_unused_mark used e.1 Hu). lia.
Qed.

Lemma visit_finishes uq e : finishes (visit uq e).
Proof.
  unfold visit. apply bind_finishes; [apply getitem_finishes|]. by intros [] _.
Qed.

Lemma bfs_finishes d fuel used q :
  length q + count_unused used ≤ fuel → finishes (bfs d fuel used q).
Proof.
  revert used q. induction fuel as [|fuel IH]; intros used q Hfuel.
  - destruct q; [done|simpl in Hfuel; lia].
  - destruct q as [|state q]; [done|]. simpl.
    apply bind_finishes; [apply getitem_finishes|]. intros row _.
    apply bind_finishes; [apply foldM_finishes, visit_finishes|].
    intros [used' q'] E. apply IH. apply visit_row_count in E. simpl in *. lia.
Qed.

(** X2. [eliminate_unreachable_states] returns or raises on every machine,
    well formed or not: the queue loop never needs more rounds than there
    are states. *)
Theorem eliminate_unreachable_states_finishes d :
  finishes (eliminate_unreachable_states d).
Proof.
  unfold eliminate_unreachable_states, setitem. case_decide as Hi; [|done]. cbn [bind].
  rewrite length_replicate in Hi.
  apply bind_finishes.
  { apply bfs_finishes.
    assert (replicate (number_states d) false !! initial_state d = Some false) as H
      by by apply lookup_replicate.
    pose proof (count_unused_mark _ _ H) as Hc. rewrite count_unused_replicate in Hc.
    simpl. lia. }
  intros used _. apply bind_finishes.
  { apply foldM_finishes. intros nn s. unfold renumber.
    apply bind_finishes; [apply getitem_finishes|]. by intros [] _. }
  intros nn _. apply bind_finishes.
  { apply foldM_finishes. intros t s. unfold copy_row.
    apply bind_finishes; [apply getitem_finishes|]. intros [] _; [|done].
    apply bind_finishes; [apply getitem_finishes|]. intros row _.
    apply foldM_finishes. intros t' e. unfold copy_edge.
    apply bind_finishes; [apply getitem_finishes|]. intros [] _; [|done].
    apply bind_finishes; [apply getkey_finishes|]. intros i _.
    apply bind_finishes; [apply getitem_finishes|]. intros _ _.
    apply bind_finishes; [apply getkey_finishes|]. intros j _.
    apply append_to_finishes. }
  intros t _. apply bind_finishes; [apply getkey_finishes|]. intros i _.
  apply bind_finishes; [|done].
  apply foldM_finishes. intros acc s. unfold copy_acc.
  apply bind_finishes; [apply getitem_finishes|]. intros [] _; [|done].
  apply bind_finishes; [apply getkey_finishes|]. done.
Qed.

(** X1. [_transition]: outside the table it raises IndexError; inside, it
    returns the target of the first edge that carries the symbol, and -1
    exactly when no edge of the row carries it. *)
Theorem transition_first_edge d state char :
  match transitions_between_states d !! state with
  | None => _transition d state char = Raise IndexError
  | Some row =>
    (char ∉ row.*2 ∧ _transition d state char = Ok (-1)%Z) ∨
    (∃ pre t post, row = pre ++ (t, char) :: post ∧ char ∉ pre.*2 ∧
                   _transition d state char = Ok (Z.of_nat t))
  end.
Proof.
  unfold _transition, getitem. destruct (transitions_between_states d !! state) as [row|]; [|done].
  simpl. induction row as [|[s c] row IH]; simpl.
  - left. split; [by intros ?%elem_of_nil|done].
  - case_decide as Hc.
    + subst c. right. exists [], s, row. split_and!; [done|by intros ?%elem_of_nil|done].
    + destruct IH as [[Hn E]|(pre & t & post & -> & Hn & E)].
      * left. split; [|done]. intros [?|?]%elem_of_cons; done.
      * right. exists ((s, c) :: pre), t, post. split_and!; [done| |done].
        simpl. intros [?|?]%elem_of_cons; done.
Qed.

(** *** The pruned machine *)

Lemma filter_all {A} (P : A → Prop) `{∀ x, Decision (P x)} (l : list A) :
  (∀ x, x ∈ l → P x) → filter P l = l.
Proof.
  induction l as [|x l IH]; intros Hl; [done|].
  rewrite filter_cons_True by (apply Hl; by left). f_equal. apply IH.
  intros y Hy. apply Hl. by right.
Qed.

Lemma reachable_lt d s : wf d → reachable d s → s < number_states d.
Proof.
  intros Hwf. induction 1 as [|s row t c _ IH Hrow Ht]; [apply (wf_init d Hwf)|].
  by eapply (wf_edges d Hwf).
Qed.

Lemma first_edge_cases row char :
  first_edge row char = (-1)%Z ∨ ∃ t, (t, char) ∈ row ∧ first_edge row char = Z.of_nat t.
Proof.
  induction row as [|[s c] row IH]; simpl; [by left|]. case_decide as Hc.
  - subst. right. exists s. split; [by left|done].
  - destruct IH as [?|(t & Ht & E)]; [by left|]. right. exists t. split; [by right|done].
Qed.

Section pruned.
Context (d d' : DFSM) (sv : list nat) (Hwf : wf d) (Hp : pruning d sv d').

Lemma survivor_lookup s : s ∈ sv → sv !! new_index sv s = Some s.
Proof.
  intros (i & Hi)%list_elem_of_lookup. by rewrite (pr_position d sv d' Hp i s Hi).
Qed.

Lemma survivor_index_lt s : s ∈ sv → new_index sv s < length sv.
Proof. intros Hs. eapply lookup_lt_Some. by apply survivor_lookup. Qed.

Lemma survivor_index_inj s1 s2 :
  s1 ∈ sv → s2 ∈ sv → new_index sv s1 = new_index sv s2 → s1 = s2.
Proof.
  intros H1%survivor_lookup H2%survivor_lookup E. rewrite E in H1. congruence.
Qed.

Lemma survivor_row s row :
  s ∈ sv → transitions_between_states d !! s = Some row →
  transitions_between_states d' !! new_index sv s = Some (remap_edge sv <$> row).
Proof.
  intros Hs Hrow. rewrite (pr_rows d sv d' Hp), list_lookup_fmap, (survivor_lookup s Hs).
  simpl. f_equal. unfold pruned_row. rewrite Hrow. simpl. f_equal. apply filter_all.
  intros [t c] Ht. simpl. apply (pr_reachable d sv d' Hp).
  eapply reach_step; [by apply (pr_reachable d sv d' Hp)|done..].
Qed.

Lemma survivor_has_row s : s ∈ sv → ∃ row, transitions_between_states d !! s = Some row.
Proof.
  intros Hs%(pr_reachable d sv d' Hp). apply lookup_lt_is_Some_2.
  rewrite (wf_rows d Hwf). by apply reachable_lt.
Qed.

Lemma pruned_wf : wf d'.
Proof.
  assert (initial_state d ∈ sv) as Hi by (apply (pr_reachable d sv d' Hp); constructor).
  split.
  - by rewrite (pr_rows d sv d' Hp), length_fmap, (pr_states d sv d' Hp).
  - rewrite (pr_init d sv d' Hp), (pr_states d sv d' Hp). by apply survivor_index_lt.
  - intros i row' t c Hrow Ht. rewrite (pr_rows d sv d' Hp), list_lookup_fmap in Hrow.
    destruct (sv !! i) as [s|] eqn:Hs; [|done]. simpl in Hrow. injection Hrow as <-.
    unfold pruned_row in Ht. apply list_elem_of_fmap in Ht as ([t0 c0] & [= -> ->] & Ht).
    apply list_elem_of_filter in Ht as [Ht _]. simpl in Ht.
    rewrite (pr_states d sv d' Hp). by apply survivor_index_lt.
  - rewrite (pr_acc d sv d' Hp), (pr_states d sv d' Hp). apply Forall_forall.
    intros i (s & -> & [Hs _]%list_elem_of_filter)%list_elem_of_fmap.
    by apply survivor_index_lt.
Qed.

Lemma pruned_reachable s : reachable d s → reachable d' (new_index sv s).
Proof.
  induction 1 as [|s row t c Hs IH Hrow Ht].
  - rewrite <- (pr_init d sv d' Hp). constructor.
  - eapply reach_step; [exact IH| |].
    + apply survivor_row; [by apply (pr_reachable d sv d' Hp)|done].
    + apply list_elem_of_fmap. by exists (t, c).
Qed.

Lemma pruned_all_reachable i : i < number_states d' → reachable d' i.
Proof.
  rewrite (pr_states d sv d' Hp). intros [s Hs]%lookup_lt_is_Some_2.
  rewrite <- (pr_position d sv d' Hp i s Hs). apply pruned_reachable.
  apply (pr_reachable d sv d' Hp). by eapply list_elem_of_lookup_2.
Qed.

Lemma pruned_no_more_states : number_states d' ≤ number_states d.
Proof.
  rewrite (pr_states d sv d' Hp).
  assert (NoDup sv) as Hnd by (apply sorted_lt_NoDup, (pr_sorted d sv d' Hp)).
  assert (sv ⊆ seq 0 (number_states d)) as Hsub.
  { intros s Hs. apply elem_of_seq. split; [lia|]. simpl.
    by apply reachable_lt, (pr_reachable d sv d' Hp). }
  pose proof (submseteq_length _ _ (NoDup_submseteq _ _ Hnd Hsub)) as Hlen.
  by rewrite length_seq in Hlen.
Qed.

Lemma pruned_first_edge row char :
  first_edge (remap_edge sv <$> row) char =
  if decide (first_edge row char = (-1)%Z) then (-1)%Z
  else Z.of_nat (new_index sv (Z.to_nat (first_edge row char))).
Proof.
  induction row as [|[s c] row IH]; simpl; [done|].
  destruct (decide (c = char)) as [Hc|Hc].
  - rewrite decide_False by lia. by rewrite Nat2Z.id.
  - apply IH.
Qed.

Lemma pruned_accepting s :
  s ∈ sv → contains (acceptable_states d') (new_index sv s) = contains (acceptable_states d) s.
Proof.
  intros Hs. unfold contains. apply bool_decide_ext. rewrite (pr_acc d sv d' Hp). split.
  - intros (s' & E & [Hs' Hacc]%list_elem_of_filter)%list_elem_of_fmap.
    by rewrite (survivor_index_inj s s' Hs Hs' E).
  - intros Hacc. apply list_elem_of_fmap. exists s. split; [done|].
    by apply list_elem_of_filter.
Qed.

Lemma pruned_run w s :
  s ∈ sv → ∃ b, run d s w = Ok b ∧ run d' (new_index sv s) w = Ok b.
Proof.
  revert s. induction w as [|c w IH]; intros s Hs; simpl.
  - eexists. split; [done|]. by rewrite pruned_accepting.
  - destruct (survivor_has_row s Hs) as [row Hrow].
    unfold _transition, getitem. rewrite Hrow, (survivor_row s row Hs Hrow). simpl.
    rewrite pruned_first_edge.
    destruct (first_edge_cases row c) as [E|(t & Ht & E)]; rewrite E.
    + rewrite decide_True by done. simpl. by exists false.
    + rewrite decide_False by lia.
      rewrite !(proj2 (Z.eqb_neq _ _)) by lia.
      rewrite !Nat2Z.id. apply IH. apply (pr_reachable d sv d' Hp).
      eapply reach_step; [by apply (pr_reachable d sv d' Hp)|done..].
Qed.

End pruned.

Lemma pruned_machine d d' :
  wf d → eliminate_unreachable_states d = Ok d' →
  wf d' ∧ number_states d' ≤ number_states d ∧
  ∀ s, s < number_states d' → reachable d' s.
Proof.
  intros Hwf E. destruct (eliminate_unreachable_states_wf d Hwf) as (d0 & sv & E0 & Hp).
  rewrite E in E0. injection E0 as <-. split_and!.
  - by eapply pruned_wf.
  - by eapply pruned_no_more_states.
  - by eapply pruned_all_reachable.
Qed.

Lemma test_machine_pruned :
  eliminate_unreachable_states test_machine
  = Ok (mkDFSM ["a"; "b"; "c"]%char 4
               [[(1, "a"); (2, "b")]; [(3, "c")]; [(3, "c")]; []]%char 0 [3]).
Proof. vm_compute. reflexivity. Qed.

(** X4. On a machine that meets the constructor's contract the pruned machine
    meets it too, has no more states than before, and every one of its
    states is reachable. *)
Theorem eliminate_unreachable_states_all_reachable d d' :
  wf d → eliminate_unreachable_states d = Ok d' →
  wf d' ∧ number_states d' ≤ number_states d ∧
  ∀ s, s < number_states d' → reachable d' s.
Proof. apply pruned_machine. Qed.

Lemma eliminate_unreachable_states_all_reachable_witness :
  ∃ d', eliminate_unreachable_states test_machine = Ok d' ∧
        wf d' ∧ number_states d' ≤ 5 ∧ ∀ s, s < number_states d' → reachable d' s.
Proof.
  eexists. split; [exact test_machine_pruned|].
  apply (eliminate_unreachable_states_all_reachable test_machine).
  - apply wf_check_sound. reflexivity.
  - exact test_machine_pruned.
Defined.

(** X5. Pruning keeps the language: the machine and its pruned machine give
    the same answer, without raising, to every input string stepped with
    [_transition] from the initial state. *)
Theorem eliminate_unreachable_states_language d d' w :
  wf d → eliminate_unreachable_states d = Ok d' →
  ∃ b, accepts d w = Ok b ∧ accepts d' w = Ok b.
Proof.
  intros Hwf E. destruct (eliminate_unreachable_states_wf d Hwf) as (d0 & sv & E0 & Hp).
  rewrite E in E0. injection E0 as <-. unfold accepts.
  rewrite (pr_init d sv d' Hp). eapply pruned_run; [done..|].
  apply (pr_reachable d sv d' Hp). constructor.
Qed.

Lemma eliminate_unreachable_states_language_witness :
  ∃ d' b, eliminate_unreachable_states test_machine = Ok d' ∧
          accepts test_machine "ac" = Ok b ∧ accepts d' "ac" = Ok b.
Proof.
  eexists. 
  destruct (eliminate_unreachable_states_language test_machine _ "ac"
              (wf_check_sound test_machine eq_refl) test_machine_pruned) as [b Hb].
  exists b. split; [exact test_machine_pruned|exact Hb].
Defined.

Lemma seq_sorted a n : StronglySorted lt (seq a n).
Proof.
  revert a. induction n as [|n IH]; intros a; simpl; constructor; [apply IH|].
  apply Forall_forall. intros x Hx%elem_of_seq. lia.
Qed.

Lemma sorted_range sv n :
  StronglySorted lt sv → (∀ s, s ∈ sv ↔ s < n) → sv = seq 0 n.
Proof.
  intros Hs Hin. apply (StronglySorted_unique_strong lt); [|done|apply seq_sorted|].
  - intros x1 x2 _ _ ? ?. lia.
  - apply NoDup_Permutation; [by apply sorted_lt_NoDup|apply NoDup_seq|].
    intros s. rewrite Hin, elem_of_seq. lia.
Qed.

(** X6. Pruning twice is pruning once: on the pruned machine
    [eliminate_unreachable_states] returns the machine unchanged. *)
Theorem eliminate_unreachable_states_idempotent d d' :
  wf d → eliminate_unreachable_states d = Ok d' → eliminate_unreachable_states d' = Ok d'.
Proof.
  intros Hwf E.
  destruct (pruned_machine d d' Hwf E) as (Hwf' & _ & Hall).
  destruct (eliminate_unreachable_states_wf d' Hwf') as (d'' & sv & E' & Hp).
  rewrite E'. f_equal.
  assert (sv = seq 0 (number_states d')) as ->.
  { apply sorted_range; [apply (pr_sorted d' sv d'' Hp)|]. intros s.
    rewrite (pr_reachable d' sv d'' Hp). split; [by apply reachable_lt|apply Hall]. }
  assert (∀ s, s < number_states d' → new_index (seq 0 (number_states d')) s = s) as Hid.
  { intros s Hs. apply (pr_position d' _ d'' Hp). by rewrite lookup_seq. }
  destruct Hp as [_ _ _ Ha Hn Ht Hi Hacc]. rewrite length_seq in Hn.
  destruct d' as [al n t i acc], d'' as [al' n' t' i' acc']. simpl in *.
  destruct Hwf' as [Hrows Hinit Hedges Haccs]. simpl in *.
  f_equal; try done.
  - rewrite Ht. apply list_eq. intros s. rewrite list_lookup_fmap.
    destruct (decide (s < n)) as [Hs|Hs].
    + rewrite lookup_seq_lt by done. simpl.
      destruct (lookup_lt_is_Some_2 t s) as [row Hrow]; [lia|]. rewrite Hrow. f_equal.
      unfold pruned_row. simpl. rewrite Hrow. simpl.
      rewrite filter_all.
      * rewrite <- (list_fmap_id row) at 2. apply list_fmap_ext.
        intros j [x c] Hx. unfold remap_edge. simpl. f_equal. apply Hid.
        eapply Hedges; [done|]. by eapply list_elem_of_lookup_2.
      * intros [x c] Hx. simpl. apply elem_of_seq. split; [lia|]. simpl. by eapply Hedges.
    + rewrite lookup_seq_ge by lia. simpl. symmetry. apply lookup_ge_None. lia.
  - rewrite Hi. by apply Hid.
  - rewrite Hacc. rewrite filter_all.
    + rewrite <- (list_fmap_id acc) at 2. apply list_fmap_ext.
      intros j x Hx. apply Hid. rewrite Forall_forall in Haccs. apply Haccs.
      by eapply list_elem_of_lookup_2.
    + intros x Hx. apply elem_of_seq. rewrite Forall_forall in Haccs.
      specialize (Haccs x Hx). lia.
Qed.

Lemma eliminate_unreachable_states_idempotent_witness :
  ∃ d', eliminate_unreachable_states test_machine = Ok d' ∧
        eliminate_unreachable_states d' = Ok d'.
Proof.
  eexists. split; [exact test_machine_pruned|].
  apply (eliminate_unreachable_states_idempotent test_machine).
  - apply wf_check_sound. reflexivity.
  - exact test_machine_pruned.
Defined.

(** X3. An initial state outside the range of the states makes
    [eliminate_unreachable_states] raise [IndexError] before anything else
    happens. *)
Theorem eliminate_unreachable_states_bad_initial d :
  number_states d ≤ initial_state d → eliminate_unreachable_states d = Raise IndexError.
Proof.
  intros H. unfold eliminate_unreachable_states, setitem.
  rewrite length_replicate. by rewrite decide_False by lia.
Qed.

Lemma eliminate_unreachable_states_bad_initial_witness :
  eliminate_unreachable_states (mkDFSM ["a"%char] 1 [[]] 1 []) = Raise IndexError.
Proof. apply eliminate_unreachable_states_bad_initial. simpl. lia. Defined.

End DfsmMore.

Module ReduceMore.
Import PyFacts DfsmFacts Dfsm.

(** *** The classes of [reduce_dfsm] *)

Lemma split_states_perm d set_states char s fs fs' :
  foldM (split_state d set_states char) s fs = Ok fs' →
  fs'.1 ++ fs'.2 ≡ₚ fs.1 ++ fs.2 ++ s.
Proof.
  revert fs. induction s as [|x s IH]; intros [f g] H; simpl in *.
  - simplify_eq. simpl. by rewrite app_nil_r.
  - unfold split_state at 1 in H. destruct (_transition d x char) as [z| |]; simpl in H; try done.
    destruct (_ || _); simpl in H; apply IH in H; rewrite H; simpl.
    + rewrite <- !app_assoc. simpl. done.
    + rewrite <- !app_assoc. simpl. apply Permutation_app_head.
      apply Permutation_middle.
Qed.

Lemma split_class_perm d set_states char s fs :
  split_class d set_states char s = Ok fs → fs.1 ++ fs.2 ≡ₚ s.
Proof. intros H%split_states_perm. done. Qed.

Lemma list_remove_perm {A} `{EqDecision A} (x : A) l l' :
  list_remove x l = Ok l' → l ≡ₚ x :: l'.
Proof.
  revert l'. induction l as [|y l IH]; intros l' H; simpl in H; [done|].
  case_decide as Hy; [by simplify_eq|].
  destruct (list_remove x l) as [r| |]; simpl in H; try done. simplify_eq.
  rewrite (IH r eq_refl). apply Permutation_swap.
Qed.

Section classes.
Context (d : DFSM) (Q : list nat → Prop).
Context (HQ : ∀ c c', Q c → c' ⊆ c → Q c').

Lemma for_classes_inv fuel set_states char i classes q classes' q' :
  for_classes d fuel set_states char i classes q = Ok (classes', q') →
  Forall Q classes →
  concat classes' ≡ₚ concat classes ∧ Forall Q classes' ∧ length classes ≤ length classes'.
Proof.
  revert i classes q. induction fuel as [|fuel IH]; intros i classes q H HF.
  - simpl in H. destruct (classes !! i); [done|]. by simplify_eq.
  - simpl in H. destruct (classes !! i) as [s|] eqn:Hs; [|by simplify_eq].
    destruct (split_class d set_states char s) as [fs| |] eqn:Hfs; simpl in H; try done.
    destruct (negb (length fs.1 =? 0) && negb (length fs.2 =? 0)); [|by eapply IH].
    destruct (list_remove s classes) as [cl| |] eqn:Hcl; simpl in H; try done.
    apply list_remove_perm in Hcl. apply split_class_perm in Hfs.
    assert (Q s) as Hqs.
    { rewrite Forall_forall in HF. apply HF. by eapply list_elem_of_lookup_2. }
    apply IH in H as (Hperm & HF' & Hlen).
    + split_and!; [|done|].
      * rewrite Hperm, concat_app, Hcl. simpl. rewrite app_nil_r, <- Hfs.
        apply Permutation_app_comm.
      * apply Permutation_length in Hcl. rewrite length_app in Hlen. simpl in *. lia.
    + rewrite Hcl in HF. apply Forall_cons in HF as [_ HF].
      apply Forall_app. split; [done|]. repeat constructor.
      * apply (HQ s); [done|]. intros x Hx. rewrite <- Hfs. set_solver.
      * apply (HQ s); [done|]. intros x Hx. rewrite <- Hfs. set_solver.
Qed.

Lemma refine_inv fuel classes q classes' :
  refine d fuel classes q = Ok classes' →
  Forall Q classes →
  concat classes' ≡ₚ concat classes ∧ Forall Q classes' ∧ length classes ≤ length classes'.
Proof.
  revert classes q. induction fuel as [|fuel IH]; intros classes q H HF.
  - destruct q as [|[??] ?]; [|done]. simpl in H. by simplify_eq.
  - destruct q as [|[set_states char] q]; [simpl in H; by simplify_eq|]. simpl in H.
    destruct (for_classes d fuel set_states char 0 classes q) as [[cl q']| |] eqn:E;
      simpl in H; try done.
    apply for_classes_inv in E as (Hp & HF' & Hl); [|done].
    apply IH in H as (Hp' & HF'' & Hl'); [|done].
    split_and!; [by rewrite Hp'|done|lia].
Qed.

End classes.

Lemma not_acceptable_states_spec d s :
  s ∈ not_acceptable_states d ↔ s < number_states d ∧ s ∉ acceptable_states d.
Proof.
  unfold not_acceptable_states. rewrite list_elem_of_filter, elem_of_seq.
  rewrite negb_true_iff, contains_false. split; [intros [? ?]; split; [lia|done]|].
  intros [? ?]. split; [done|lia].
Qed.

Lemma final_classes_inv fuel d classes :
  final_classes fuel d = Ok classes →
  concat classes ≡ₚ acceptable_states d ++ not_acceptable_states d ∧
  Forall (fun c => c ⊆ acceptable_states d ∨ c ⊆ not_acceptable_states d) classes ∧
  2 ≤ length classes.
Proof.
  unfold final_classes. intros H.
  apply (refine_inv d (fun c => c ⊆ acceptable_states d ∨ c ⊆ not_acceptable_states d)) in H
    as (Hp & HF & Hl).
  - split_and!; [|done|simpl in Hl; lia]. rewrite Hp. simpl. by rewrite app_nil_r.
  - intros c c' [Hc|Hc] Hsub; [left|right]; set_solver.
  - apply Forall_cons. split; [by left|]. apply Forall_cons. split; [by right|constructor].
Qed.

(** X7. The classes the refinement ends with are a rearrangement of the
    accepting and the non-accepting states it started from: no state is lost
    or doubled. No class holds an accepting and a non-accepting state, and
    there are at least two classes. *)
Theorem final_classes_partition fuel d classes :
  final_classes fuel d = Ok classes →
  concat classes ≡ₚ acceptable_states d ++ not_acceptable_states d ∧
  Forall (fun c => c ⊆ acceptable_states d ∨ c ⊆ not_acceptable_states d) classes ∧
  2 ≤ length classes.
Proof. apply final_classes_inv. Qed.

Lemma final_classes_partition_witness :
  final_classes 100 skipping_machine = Ok [[1; 2]; [3]; [0]] ∧
  concat [[1; 2]; [3]; [0]] ≡ₚ [0; 3] ++ not_acceptable_states skipping_machine ∧
  Forall (fun c => c ⊆ [0; 3] ∨ c ⊆ not_acceptable_states skipping_machine) [[1; 2]; [3]; [0]] ∧
  2 ≤ length [[1; 2]; [3]; [0]].
Proof.
  assert (final_classes 100 skipping_machine = Ok [[1; 2]; [3]; [0]]) as H
    by (vm_compute; reflexivity).
  split; [exact H|]. exact (final_classes_partition 100 skipping_machine _ H).
Defined.

(** *** The machine [reduce_dfsm] returns *)

Lemma foldM_preserves {A B} (I : B → Prop) (f : B → A → res B) l b b' :
  foldM f l b = Ok b' → I b → (∀ b x b', I b → f b x = Ok b' → I b') → I b'.
Proof.
  intros H Hb Hstep. revert b H Hb. induction l as [|x l IH]; intros b H Hb; simpl in H.
  - by simplify_eq.
  - destruct (f b x) as [b1| |] eqn:E; simpl in H; try done. eauto.
Qed.

Lemma number_states_of_class k (s : list nat) (m : gmap nat nat) key v :
  foldl (fun m state => <[state:=k]> m) m s !! key = Some v → m !! key = Some v ∨ v = k.
Proof.
  revert m. induction s as [|x s IH]; intros m H; simpl in H; [by left|].
  apply IH in H as [H|H]; [|by right].
  destruct (decide (x = key)) as [->|Hne].
  - rewrite lookup_insert_eq in H. right. congruence.
  - rewrite lookup_insert_ne in H by done. by left.
Qed.

Lemma number_classes classes (nn : gmap nat nat * nat) :
  (∀ key v, nn.1 !! key = Some v → v < nn.2) →
  (foldl number_class nn classes).2 = nn.2 + length classes ∧
  ∀ key v, (foldl number_class nn classes).1 !! key = Some v → v < nn.2 + length classes.
Proof.
  revert nn. induction classes as [|c classes IH]; intros [m k] Hm; simpl in *.
  - rewrite Nat.add_0_r. split; [done|]. exact Hm.
  - destruct (IH (number_class (m, k) c)) as [E Hb].
    + simpl. intros key v [H|H]%number_states_of_class; [|lia]. specialize (Hm _ _ H). lia.
    + simpl in *. rewrite E. split; [lia|]. intros key v H. specialize (Hb _ _ H). lia.
Qed.

Lemma merge_edge_ok n nsn s t e t' :
  (∀ key v, nsn !! key = Some v → v < n) →
  rows_ok n t → merge_edge nsn s t e = Ok t' → rows_ok n t'.
Proof.
  intros Hnsn [Hlen Hrows] H. unfold merge_edge, getkey, getitem, append_to, getitem in H.
  destruct (nsn !! s) as [i|] eqn:Hi; [|done]. simpl in H.
  destruct (t !! i) as [row|] eqn:Hrow; [|done]. simpl in H.
  destruct (nsn !! e.1) as [j|] eqn:Hj; [|done]. simpl in H.
  destruct (contains row (j, e.2)) eqn:Hc; [by simplify_eq|].
  simpl in H. simplify_eq. apply contains_false in Hc.
  split; [by rewrite length_insert|]. intros i' row' Hi'.
  destruct (decide (i' = i)) as [->|Hne].
  - rewrite list_lookup_insert_eq in Hi' by by eapply lookup_lt_Some. simplify_eq.
    destruct (Hrows i row Hrow) as [Hnd Hlt]. split.
    + apply NoDup_app. split_and!; [done| |apply NoDup_singleton].
      intros x Hx ->%list_elem_of_singleton. done.
    + intros x [Hx|Hx]%elem_of_app; [by apply Hlt|].
      apply list_elem_of_singleton in Hx as ->. simpl. by eapply Hnsn.
  - rewrite list_lookup_insert_ne in Hi' by done. by apply (Hrows i').
Qed.

Lemma merge_acc_ok n nsn acc s acc' :
  (∀ key v, nsn !! key = Some v → v < n) →
  NoDup acc ∧ Forall (fun x => x < n) acc → merge_acc nsn acc s = Ok acc' →
  NoDup acc' ∧ Forall (fun x => x < n) acc'.
Proof.
  intros Hnsn [Hnd Hlt] H. unfold merge_acc, getkey in H.
  destruct (nsn !! s) as [j|] eqn:Hj; [|done]. simpl in H.
  destruct (contains acc j) eqn:Hc; simplify_eq; [done|]. apply contains_false in Hc. split.
  - apply NoDup_app. split_and!; [done| |apply NoDup_singleton].
    intros x Hx ->%list_elem_of_singleton. done.
  - apply Forall_app. split; [done|]. repeat constructor. by eapply Hnsn.
Qed.

(** X8. Whatever machine it is given, a machine that [reduce_dfsm] returns
    meets the constructor's contract, keeps the alphabet, has at least two
    states, lists no accepting state twice and has no edge twice in a row. *)
Theorem reduce_dfsm_result fuel d m :
  reduce_dfsm fuel d = Ok m →
  wf m ∧ alphabet m = alphabet d ∧ 2 ≤ number_states m ∧
  NoDup (acceptable_states m) ∧ Forall (NoDup (A:=nat * ascii)) (transitions_between_states m).
Proof.
  unfold reduce_dfsm. intros H.
  destruct (final_classes fuel d) as [classes| |] eqn:Ecl; simpl in H; try done.
  apply final_classes_inv in Ecl as (_ & _ & Hlen).
  destruct (number_classes classes (∅, 0)) as [En Hnsn]; [by intros ? ? ?|].
  simpl in En, Hnsn. set (nn := foldl number_class (∅, 0) classes) in *.
  destruct (foldM _ _ (replicate nn.2 [])) as [t| |] eqn:Et; simpl in H; try done.
  destruct (getkey nn.1 (initial_state d)) as [i| |] eqn:Ei; simpl in H; try done.
  destruct (foldM (merge_acc nn.1) _ []) as [a| |] eqn:Ea; simpl in H; try done.
  simplify_eq. simpl.
  assert (rows_ok nn.2 t) as [Hrows Ht].
  { apply (foldM_preserves (rows_ok nn.2) _ _ _ _ Et).
    - split; [by rewrite length_replicate|]. intros j row [-> _]%lookup_replicate.
      split; [constructor|]. by intros e ?%elem_of_nil.
    - intros t0 s t1 Ht0 Hs. unfold merge_row in Hs.
      destruct (getitem (transitions_between_states d) s) as [row| |]; simpl in Hs; try done.
      apply (foldM_preserves (rows_ok nn.2) _ _ _ _ Hs Ht0).
      intros t2 e t3 Ht2 He. eapply merge_edge_ok; [|done..]. rewrite En. apply Hnsn. }
  assert (NoDup a ∧ Forall (fun x => x < nn.2) a) as [Hnd Ha].
  { apply (foldM_preserves (fun a => NoDup a ∧ Forall (fun x => x < nn.2) a) _ _ _ _ Ea).
    - split; constructor.
    - intros a0 s a1 Ha0 Hs. eapply merge_acc_ok; [|done..]. rewrite En. apply Hnsn. }
  split_and!; try done.
  - split; simpl; try done.
    + apply getkey_Ok in Ei. rewrite En. by eapply Hnsn.
    + intros s row x c Hrow Hx. by apply (proj2 (Ht s row Hrow) (x, c)).
  - lia.
  - apply Forall_forall. intros row (j & Hj)%list_elem_of_lookup. by apply (Ht j row).
Qed.

Lemma reduce_dfsm_result_witness :
  ∃ m, reduce_dfsm 100 skipping_machine = Ok m ∧
       wf m ∧ alphabet m = ["a"; "b"]%char ∧ 2 ≤ number_states m ∧
       NoDup (acceptable_states m) ∧
       Forall (NoDup (A:=nat * ascii)) (transitions_between_states m).
Proof.
  eexists. split; [vm_compute; reflexivity|].
  apply (reduce_dfsm_result 100 skipping_machine). vm_compute. reflexivity.
Defined.

End ReduceMore.

Module ReduceTerm.
Import PyFacts DfsmFacts Dfsm ReduceMore.

Lemma inhabited_cons c classes :
  inhabited (c :: classes) = (if decide (c = []) then 0 else 1) + inhabited classes.
Proof.
  unfold inhabited. destruct (decide (c = [])) as [->|Hc].
  - by rewrite filter_cons_False by (intros H; by apply H).
  - by rewrite filter_cons_True.
Qed.

Lemma inhabited_app c1 c2 : inhabited (c1 ++ c2) = inhabited c1 + inhabited c2.
Proof. unfold inhabited. by rewrite filter_app, length_app. Qed.

Lemma inhabited_perm c1 c2 : c1 ≡ₚ c2 → inhabited c1 = inhabited c2.
Proof. intros H. unfold inhabited. by rewrite H. Qed.

Lemma inhabited_le classes : inhabited classes ≤ length (concat classes).
Proof.
  induction classes as [|c classes IH]; [done|]. rewrite inhabited_cons. simpl.
  rewrite length_app. destruct (decide (c = [])) as [->|Hc]; simpl; [done|].
  destruct c; [done|]. simpl. lia.
Qed.

Lemma inhabited_length classes : inhabited classes ≤ length classes.
Proof. unfold inhabited. apply length_filter. Qed.

Lemma list_remove_Ok {A} `{EqDecision A} (x : A) l :
  x ∈ l → ∃ l', list_remove x l = Ok l'.
Proof.
  induction l as [|y l IH]; intros Hin; [by apply elem_of_nil in Hin|]. simpl.
  case_decide; [by eexists|]. apply elem_of_cons in Hin as [->|Hin]; [done|].
  destruct (IH Hin) as [l' ->]. by eexists.
Qed.

Lemma put_tasks_length fs q (alphabet : list ascii) :
  length (foldl (put_tasks fs) q alphabet) = length q + 2 * length alphabet.
Proof.
  revert q. induction alphabet as [|c alphabet IH]; intros q; simpl; [lia|].
  rewrite IH. unfold put_tasks. rewrite length_app. simpl. lia.
Qed.

Section returns.
Context (d : DFSM) (Hwf : wf d).

Lemma split_class_Ok set_states char s :
  in_range d s → ∃ fs, split_class d set_states char s = Ok fs.
Proof.
  unfold split_class. generalize (@nil nat, @nil nat).
  induction s as [|x s IH]; intros fs0 Hs; [by eexists|].
  apply Forall_cons in Hs as [Hx Hs]. simpl. unfold split_state at 1, _transition, getitem.
  destruct (lookup_lt_is_Some_2 (transitions_between_states d) x) as [row ->];
    [by rewrite (wf_rows d Hwf)|].
  simpl. destruct (_ || _); simpl; by apply IH.
Qed.

Lemma for_classes_returns fuel set_states char i classes q :
  Forall (in_range d) classes →
  (length classes - i) + (length (concat classes) - inhabited classes) ≤ fuel →
  ∃ classes' q',
    for_classes d fuel set_states char i classes q = Ok (classes', q') ∧
    Forall (in_range d) classes' ∧
    length (concat classes') = length (concat classes) ∧
    inhabited classes ≤ inhabited classes' ∧
    length classes' + inhabited classes = length classes + inhabited classes' ∧
    length q' + 2 * length (alphabet d) * inhabited classes
    = length q + 2 * length (alphabet d) * inhabited classes'.
Proof.
  revert i classes q. induction fuel as [|fuel IH]; intros i classes q HF Hfuel.
  - simpl. destruct (classes !! i) as [s|] eqn:Hs.
    + apply lookup_lt_Some in Hs. pose proof (inhabited_le classes). lia.
    + exists classes, q. split_and!; done || lia.
  - simpl. destruct (classes !! i) as [s|] eqn:Hs; [|exists classes, q; split_and!; done || lia].
    assert (in_range d s) as Hrange.
    { rewrite Forall_forall in HF. apply HF. by eapply list_elem_of_lookup_2. }
    destruct (split_class_Ok set_states char s Hrange) as [fs Hfs]. rewrite Hfs. simpl.
    pose proof (lookup_lt_Some _ _ _ Hs) as Hi.
    pose proof (inhabited_le classes) as Hle.
    destruct (negb (length fs.1 =? 0) && negb (length fs.2 =? 0)) eqn:Hsplit.
    + apply andb_true_iff in Hsplit as [H1 H2].
      apply negb_true_iff, Nat.eqb_neq in H1. apply negb_true_iff, Nat.eqb_neq in H2.
      destruct (list_remove_Ok s classes) as [cl Hcl]; [by eapply list_elem_of_lookup_2|].
      rewrite Hcl. simpl. apply list_remove_perm in Hcl. apply split_class_perm in Hfs.
      assert (s ≠ []) as Hne.
      { intros ->. apply Permutation_length in Hfs. rewrite length_app in Hfs. simpl in Hfs. lia. }
      assert (inhabited (cl ++ [fs.1; fs.2]) = S (inhabited classes)) as Hinh.
      { rewrite (inhabited_perm _ _ Hcl), inhabited_app, !inhabited_cons.
        rewrite (decide_False (P:=s = [])) by done.
        rewrite (decide_False (P:=fs.1 = [])) by (by destruct fs.1).
        rewrite (decide_False (P:=fs.2 = [])) by (by destruct fs.2).
        change (inhabited []) with 0. lia. }
      assert (concat (cl ++ [fs.1; fs.2]) ≡ₚ concat classes) as Hperm.
      { rewrite concat_app, Hcl. simpl. rewrite app_nil_r, <- Hfs. apply Permutation_app_comm. }
      assert (length (cl ++ [fs.1; fs.2]) = S (length classes)) as Hlen.
      { apply Permutation_length in Hcl. rewrite length_app. simpl in *. lia. }
      destruct (IH (S i) (cl ++ [fs.1; fs.2]) (foldl (put_tasks fs) q (alphabet d)))
        as (classes' & q' & E & HF' & Hc' & Hi' & Hl' & Hq').
      * rewrite Hcl in HF. apply Forall_cons in HF as [_ HF].
        apply Forall_app. split; [done|].
        assert (∀ x, x ∈ fs.1 ++ fs.2 → x < number_states d) as Hsub.
        { intros x Hx. rewrite Hfs in Hx. unfold in_range in Hrange.
          rewrite Forall_forall in Hrange. by apply Hrange. }
        apply Forall_cons. split; [|apply Forall_cons; split; [|constructor]];
          apply Forall_forall; intros x Hx; apply Hsub; set_solver.
      * pose proof (inhabited_le (cl ++ [fs.1; fs.2])) as Hle'.
        rewrite Hlen, Hinh. rewrite Hinh in Hle'. rewrite (Permutation_length Hperm) in *. lia.
      * exists classes', q'. rewrite E. rewrite Hinh, Hlen in *.
        rewrite (Permutation_length Hperm) in *. rewrite put_tasks_length in Hq'.
        split_and!; try done; try lia.
    + destruct (IH (S i) classes q HF) as (classes' & q' & E & HF' & Hc' & Hi' & Hl' & Hq');
        [lia|]. exists classes', q'. by rewrite E.
Qed.

Lemma refine_returns fuel classes q :
  Forall (in_range d) classes →
  length q + 2 * length (alphabet d) * (length (concat classes) - inhabited classes)
  + (length classes - inhabited classes) + 2 * length (concat classes) < fuel →
  ∃ classes', refine d fuel classes q = Ok classes'.
Proof.
  revert classes q. induction fuel as [|fuel IH]; intros classes q HF Hfuel;
    [by apply Nat.nlt_0_r in Hfuel|].
  destruct q as [|[set_states char] q]; [by eexists|]. cbn [refine].
  pose proof (inhabited_le classes) as Hle.
  pose proof (inhabited_length classes) as Hll.
  cbn [length] in Hfuel.
  destruct (for_classes_returns fuel set_states char 0 classes q HF)
    as (classes' & q' & -> & HF' & Hc' & Hi' & Hl' & Hq').
  { remember (2 * length (alphabet d) * (length (concat classes) - inhabited classes)) as X.
    lia. }
  cbn [bind fst snd]. apply IH; [done|].
  pose proof (inhabited_le classes') as Hle'.
  pose proof (inhabited_length classes') as Hll'.
  rewrite Hc' in *.
  remember (length (concat classes)) as T. remember (inhabited classes) as a.
  remember (inhabited classes') as b. remember (length (alphabet d)) as k.
  assert (2 * k * (T - b) + 2 * k * (b - a) = 2 * k * (T - a)) as Hk by nia.
  assert (length q' = length q + 2 * k * (b - a)) as Hq'' by nia.
  remember (2 * k * (T - b)) as X. remember (2 * k * (b - a)) as Y.
  remember (2 * k * (T - a)) as Z. lia.
Qed.

End returns.

Lemma number_class_keeps classes (nn : gmap nat nat * nat) key :
  is_Some (nn.1 !! key) → is_Some ((foldl number_class nn classes).1 !! key).
Proof.
  revert nn. induction classes as [|c classes IH]; intros nn H; [done|]. simpl.
  apply IH. simpl. clear IH. revert H. generalize nn.1 as m.
  induction c as [|x c IHc]; intros m H; [done|]. simpl. apply IHc.
  destruct (decide (x = key)) as [->|Hne]; [by rewrite lookup_insert_eq|].
  by rewrite lookup_insert_ne.
Qed.

Lemma number_class_domain classes (nn : gmap nat nat * nat) key :
  key ∈ concat classes → is_Some ((foldl number_class nn classes).1 !! key).
Proof.
  revert nn. induction classes as [|c classes IH]; intros nn H; [by apply elem_of_nil in H|].
  simpl in *. apply elem_of_app in H as [H|H]; [|by apply IH].
  apply number_class_keeps. simpl. clear IH. generalize nn.1 as m.
  induction c as [|x c IHc]; intros m; [by apply elem_of_nil in H|]. simpl.
  apply elem_of_cons in H as [->|H]; [|by apply IHc].
  assert (is_Some (<[x:=nn.2]> m !! x)) as Hx by by rewrite lookup_insert_eq.
  revert Hx. generalize (<[x:=nn.2]> m) as m'. clear.
  induction c as [|y c IHc]; intros m' H; [done|]. simpl. apply IHc.
  destruct (decide (y = x)) as [->|Hne]; [by rewrite lookup_insert_eq|].
  by rewrite lookup_insert_ne.
Qed.

Lemma merge_edge_returns n nsn s t e :
  (∀ key v, nsn !! key = Some v → v < n) → is_Some (nsn !! s) → is_Some (nsn !! e.1) →
  rows_ok n t → ∃ t', merge_edge nsn s t e = Ok t' ∧ rows_ok n t'.
Proof.
  intros Hnsn [i Hi] [j Hj] Ht.
  assert (∃ t', merge_edge nsn s t e = Ok t') as [t' E].
  { unfold merge_edge, getkey, getitem, append_to, getitem. rewrite Hi, Hj. simpl.
    destruct (lookup_lt_is_Some_2 t i) as [row Hrow].
    { rewrite (proj1 Ht). by eapply Hnsn. }
    rewrite Hrow. simpl. destruct (contains row (j, e.2)); simpl; by eexists. }
  exists t'. split; [done|]. by eapply merge_edge_ok.
Qed.

Lemma foldM_returns {A B} (I : B → Prop) (f : B → A → res B) l b :
  I b → (∀ b x, x ∈ l → I b → ∃ b', f b x = Ok b' ∧ I b') →
  ∃ b', foldM f l b = Ok b' ∧ I b'.
Proof.
  revert b. induction l as [|x l IH]; intros b Hb Hstep; [by exists b|]. simpl.
  destruct (Hstep b x) as (b1 & -> & Hb1); [by left|done|]. simpl.
  apply IH; [done|]. intros b2 y Hy. apply Hstep. by right.
Qed.

Lemma reduce_dfsm_runs d :
  wf d → ∃ fuel m, reduce_dfsm fuel d = Ok m.
Proof.
  intros Hwf.
  set (classes0 := [acceptable_states d; not_acceptable_states d]).
  set (q0 := foldl (put_tasks (acceptable_states d, not_acceptable_states d)) [] (alphabet d)).
  set (fuel :=
    S (length q0
       + 2 * length (alphabet d) * (length (concat classes0) - inhabited classes0)
       + (length classes0 - inhabited classes0) + 2 * length (concat classes0))).
  destruct (refine_returns d Hwf fuel classes0 q0) as [classes Hcl].
  { apply Forall_cons. split; [apply (wf_acc d Hwf)|]. apply Forall_cons. split; [|constructor].
    apply Forall_forall. intros s Hs. by apply not_acceptable_states_spec in Hs as [? _]. }
  { unfold fuel. lia. }
  exists fuel. unfold reduce_dfsm. unfold final_classes. fold classes0 q0. rewrite Hcl.
  cbn [bind].
  assert (final_classes fuel d = Ok classes) as Hfin by done.
  apply final_classes_inv in Hfin as (Hperm & _ & _).
  destruct (number_classes classes (∅, 0)) as [En Hnsn]; [by intros ? ? ?|].
  simpl in En, Hnsn. set (nn := foldl number_class (∅, 0) classes) in *.
  assert (∀ s, s < number_states d → is_Some (nn.1 !! s)) as Hdom.
  { intros s Hs. apply number_class_domain. rewrite Hperm. apply elem_of_app.
    destruct (decide (s ∈ acceptable_states d)); [by left|right].
    by apply not_acceptable_states_spec. }
  assert (∀ key v, nn.1 !! key = Some v → v < nn.2) as Hb.
  { intros key v H. rewrite En. by eapply Hnsn. }
  destruct (foldM_returns (rows_ok nn.2) (merge_row d nn.1) (seq 0 (number_states d))
              (replicate nn.2 [])) as (t & -> & Ht).
  { split; [by rewrite length_replicate|]. intros j row [-> _]%lookup_replicate.
    split; [constructor|]. by intros e ?%elem_of_nil. }
  { intros t s Hs%elem_of_seq Ht. unfold merge_row, getitem.
    destruct (lookup_lt_is_Some_2 (transitions_between_states d) s) as [row Hrow];
      [rewrite (wf_rows d Hwf); lia|].
    rewrite Hrow. simpl. apply foldM_returns; [done|].
    intros t1 [x c] He Ht1. apply merge_edge_returns; try done.
    - apply Hdom. lia.
    - apply Hdom. simpl. by apply (wf_edges d Hwf s row x c). }
  cbn [bind]. destruct (Hdom (initial_state d) (wf_init d Hwf)) as [i Hi].
  unfold getkey at 1. rewrite Hi. cbn [bind].
  destruct (foldM_returns (fun _ => True) (merge_acc nn.1) (acceptable_states d) [])
    as (a & -> & _); [done| |by eexists].
  intros a s Hs _. unfold merge_acc, getkey.
  pose proof (wf_acc d Hwf) as Hacc. rewrite Forall_forall in Hacc.
  destruct (Hdom s (Hacc s Hs)) as [j ->]. simpl.
  destruct (contains a j); by eexists.
Qed.

(** X9. On a machine that meets the constructor's contract [reduce_dfsm]
    comes to an end and raises nothing: once the fuel passes a bound it
    returns a machine. *)
Theorem reduce_dfsm_returns d :
  wf d → ∃ fuel0 m, ∀ fuel, fuel0 ≤ fuel → reduce_dfsm fuel d = Ok m.
Proof.
  intros Hwf. destruct (reduce_dfsm_runs d Hwf) as (fuel0 & m & H).
  exists fuel0, m. intros fuel Hle. by apply (reduce_dfsm_fuel d fuel0).
Qed.

Lemma reduce_dfsm_returns_witness :
  ∃ fuel0 m, ∀ fuel, fuel0 ≤ fuel → reduce_dfsm fuel test_machine = Ok m.
Proof. apply reduce_dfsm_returns. apply wf_check_sound. reflexivity. Defined.

End ReduceTerm.

(** * More of EilenbergMachine.py *)

Module AcceptMore.
Import PyFacts EilenbergFacts Eilenberg.

(** *** The queue loop of [accept] *)

Lemma elem_of_matching row c rest t w :
  (t, w) ∈ matching row c rest ↔ w = rest ∧ (t, JStr (chr c)) ∈ row.
Proof.
  unfold matching. rewrite list_elem_of_fmap. split.
  - intros ([t' l] & [= -> ->] & [Hl Hin]%list_elem_of_filter). simpl in *. by subst.
  - intros [-> Hin]. exists (t, JStr (chr c)). split; [done|]. by apply list_elem_of_filter.
Qed.

Lemma matching_cost b row c rest :
  length row ≤ b → queue_cost b (matching row c rest) ≤ b * word_cost b (String.length rest).
Proof.
  intros Hb. unfold queue_cost, matching.
  transitivity (length row * word_cost b (String.length rest)); [|by apply Nat.mul_le_mono_r].
  clear Hb. induction row as [|e row IH]; [simpl; lia|].
  rewrite filter_cons. case_decide; [rewrite fmap_cons|]; simpl in *;
    remember (word_cost b (String.length rest)) as k; lia.
Qed.

Lemma degree_le m s row :
  transitions_between_states m !! s = Some row → length row ≤ max_degree m.
Proof.
  unfold max_degree. intros Hrow%list_elem_of_lookup_2.
  induction (transitions_between_states m) as [|r t IH]; [by apply elem_of_nil in Hrow|].
  simpl. apply elem_of_cons in Hrow as [->|Hrow]; [lia|]. specialize (IH Hrow). lia.
Qed.

Lemma accept_loop_finishes m fuel q :
  queue_cost (max_degree m) q ≤ fuel → finishes (accept_loop m fuel q).
Proof.
  revert q. induction fuel as [|fuel IH]; intros q Hfuel.
  - destruct q as [|[s w] q]; [done|]. unfold queue_cost in Hfuel. simpl in Hfuel.
    destruct (String.length w); simpl in Hfuel; lia.
  - destruct q as [|[s w] q]; [done|]. unfold queue_cost in Hfuel. simpl in *.
    destruct w as [|c rest]; simpl in *.
    + destruct (contains (acceptable_states m) s); [done|]. apply IH. unfold queue_cost. lia.
    + unfold getitem. destruct (transitions_between_states m !! s) as [row|] eqn:Hrow; [|done].
      simpl. apply IH. unfold queue_cost. rewrite sum_list_with_app.
      pose proof (matching_cost (max_degree m) row c rest (degree_le m s row Hrow)) as Hc.
      unfold queue_cost in Hc. lia.
Qed.

Lemma accept_loop_sound m fuel q b :
  accept_loop m fuel q = Ok b →
  (b = true ↔ ∃ s w, (s, w) ∈ q ∧ accepts_from m s w).
Proof.
  revert q. induction fuel as [|fuel IH]; intros q H.
  - destruct q as [|[s w] q]; [|done]. simpl in H. simplify_eq.
    split; [done|]. intros (s & w & Hin & _). by apply elem_of_nil in Hin.
  - destruct q as [|[s w] q]; simpl in H.
    { simplify_eq. split; [done|]. intros (s & w & Hin & _). by apply elem_of_nil in Hin. }
    destruct w as [|c rest].
    + destruct (contains (acceptable_states m) s) eqn:Hc.
      * simplify_eq. split; [|done]. intros _. exists s, EmptyString.
        split; [by left|]. constructor. by apply contains_true.
      * apply IH in H. rewrite H. apply contains_false in Hc. split.
        -- intros (s' & w & Hin & Hacc). exists s', w. split; [by right|done].
        -- intros (s' & w & [[= -> ->]|Hin]%elem_of_cons & Hacc); [by inversion Hacc|].
           by exists s', w.
    + unfold getitem in H.
      destruct (transitions_between_states m !! s) as [row|] eqn:Hrow; [|done]. simpl in H.
      apply IH in H. rewrite H. split.
      * intros (t & w & [Hin|[-> Hin]%elem_of_matching]%elem_of_app & Hacc).
        -- exists t, w. split; [by right|done].
        -- exists s, (String c rest). split; [by left|]. by eapply accepts_step.
      * intros (t & w & [[= -> ->]|Hin]%elem_of_cons & Hacc).
        -- inversion Hacc as [|? row' t' ? ? Hrow' Ht' Hacc']; subst.
           rewrite Hrow in Hrow'. simplify_eq. exists t', rest.
           split; [|done]. apply elem_of_app. right. by apply elem_of_matching.
        -- exists t, w. split; [|done]. apply elem_of_app. by left.
Qed.

Lemma wf_ranged m : wf m → ranged m.
Proof. intros [? ? ? ? _]. by split. Qed.

Lemma ranged_check_sound m : ranged_check m = true → ranged m.
Proof.
  unfold ranged_check. rewrite !andb_true_iff, !bool_decide_eq_true.
  intros [[[Hrows Hedges] Hinit] Hacc]. split; [done| | |].
  - intros s row e Hrow He. rewrite forallb_forall in Hedges.
    apply list_elem_of_lookup_2, list_elem_of_In in Hrow. specialize (Hedges row Hrow).
    rewrite forallb_forall in Hedges. apply list_elem_of_In in He.
    specialize (Hedges e He). by apply bool_decide_eq_true in Hedges.
  - apply Forall_forall. intros s Hs%list_elem_of_In. rewrite forallb_forall in Hinit.
    specialize (Hinit s Hs). by apply bool_decide_eq_true in Hinit.
  - apply Forall_forall. intros s Hs%list_elem_of_In. rewrite forallb_forall in Hacc.
    specialize (Hacc s Hs). by apply bool_decide_eq_true in Hacc.
Qed.

Lemma accept_loop_returns m fuel q :
  ranged m → (∀ s w, (s, w) ∈ q → s < number_states m) →
  queue_cost (max_degree m) q ≤ fuel → ∃ b, accept_loop m fuel q = Ok b.
Proof.
  intros Hwf. revert q. induction fuel as [|fuel IH]; intros q Hq Hfuel.
  - destruct q as [|[s w] q]; [by exists false|]. unfold queue_cost in Hfuel. simpl in Hfuel.
    destruct (String.length w); simpl in Hfuel; lia.
  - destruct q as [|[s w] q]; [by exists false|]. unfold queue_cost in Hfuel. simpl in *.
    destruct w as [|c rest]; simpl in *.
    + destruct (contains (acceptable_states m) s); [by exists true|]. apply IH.
      * intros s' w Hin. apply (Hq s' w). by right.
      * unfold queue_cost. lia.
    + destruct (lookup_lt_is_Some_2 (transitions_between_states m) s) as [row Hrow].
      { rewrite (rg_rows m Hwf). apply (Hq s (String c rest)). by left. }
      unfold getitem. rewrite Hrow. simpl. apply IH.
      * intros t w [Hin|[-> Hin]%elem_of_matching]%elem_of_app.
        -- apply (Hq t w). by right.
        -- apply (rg_edges m Hwf s row _ Hrow Hin).
      * unfold queue_cost. rewrite sum_list_with_app.
        pose proof (matching_cost (max_degree m) row c rest (degree_le m s row Hrow)) as Hc.
        unfold queue_cost in Hc. lia.
Qed.

Lemma language_queue m w :
  language m w ↔
  ∃ s w', (s, w') ∈ ((fun state => (state, w)) <$> initial_states m) ∧ accepts_from m s w'.
Proof.
  unfold language. split.
  - intros (s & Hs & Hacc). exists s, w. split; [|done]. apply list_elem_of_fmap. by exists s.
  - intros (s & w' & (s' & [= -> ->] & Hs)%list_elem_of_fmap & Hacc). by exists s'.
Qed.

(** X10. On every machine and string [accept] comes back, with an answer or
    an exception, once the fuel passes a bound that depends on the length of
    the string and the longest row only. *)
Theorem accept_finishes m expr :
  ∃ fuel0, ∀ fuel, fuel0 ≤ fuel → finishes (accept fuel m expr).
Proof.
  exists (queue_cost (max_degree m) ((fun state => (state, expr)) <$> initial_states m)).
  intros fuel Hfuel. by apply accept_loop_finishes.
Qed.

(** X11. An answer of [accept] is right: it is [True] exactly when the string
    can be spelled along edges from some initial state to an accepting
    state. *)
Theorem accept_sound fuel m expr b :
  accept fuel m expr = Ok b → (b = true ↔ language m expr).
Proof. intros H%accept_loop_sound. by rewrite language_queue. Qed.

Lemma accept_sound_witness :
  accept 10 (atom_machine (JStr "a")) "a" = Ok true ∧
  (true = true ↔ language (atom_machine (JStr "a")) "a").
Proof.
  assert (accept 10 (atom_machine (JStr "a")) "a" = Ok true) as H by reflexivity.
  split; [exact H|]. exact (accept_sound 10 (atom_machine (JStr "a")) "a" true H).
Defined.

Lemma accept_answers m expr :
  ranged m →
  ∃ fuel0, ∀ fuel, fuel0 ≤ fuel →
    ∃ b, accept fuel m expr = Ok b ∧ (b = true ↔ language m expr).
Proof.
  intros Hwf.
  exists (queue_cost (max_degree m) ((fun state => (state, expr)) <$> initial_states m)).
  intros fuel Hfuel. destruct (accept_loop_returns m fuel
    ((fun state => (state, expr)) <$> initial_states m) Hwf) as [b Hb]; [|done|].
  - intros s w (s' & [= -> ->] & Hs)%list_elem_of_fmap.
    pose proof (rg_init m Hwf) as Hi. rewrite Forall_forall in Hi. by apply Hi.
  - exists b. split; [done|]. apply accept_loop_sound in Hb. by rewrite language_queue.
Qed.

(** X12. On a machine with one row per state whose edge targets, initial
    states and accepting states are in range, repeated or not, [accept]
    raises nothing: with enough fuel it returns the answer that [language]
    gives. *)
Theorem accept_decides m expr :
  ranged m →
  ∃ fuel0, ∀ fuel, fuel0 ≤ fuel →
    ∃ b, accept fuel m expr = Ok b ∧ (b = true ↔ language m expr).
Proof. apply accept_answers. Qed.

Lemma accept_decides_witness :
  ∃ fuel0, ∀ fuel, fuel0 ≤ fuel →
    ∃ b, accept fuel (mkEM 2 [[(1, JStr "a")]; []] [0; 0] [1]) "a" = Ok b ∧
         (b = true ↔ language (mkEM 2 [[(1, JStr "a")]; []] [0; 0] [1]) "a").
Proof. apply accept_decides. apply ranged_check_sound. reflexivity. Defined.

End AcceptMore.

Module BuildMore.
Import PyFacts EilenbergFacts Eilenberg AcceptMore.

(** *** The language of an atom *)

Lemma atom_language value w :
  language (atom_machine value) w ↔ ∃ c, value = JStr (chr c) ∧ w = chr c.
Proof.
  unfold language. split.
  - intros (s & Hs & Hacc). simpl in Hs. apply list_elem_of_singleton in Hs as ->.
    inversion Hacc as [s Hs|s row t c rest Hrow Ht Hrest]; subst.
    { simpl in Hs. apply list_elem_of_singleton in Hs. done. }
    simpl in Hrow. simplify_eq. apply list_elem_of_singleton in Ht. simplify_eq.
    exists c. split; [done|].
    inversion Hrest as [|s row t c' rest' Hrow Ht]; subst; [done|].
    simpl in Hrow. simplify_eq. by apply elem_of_nil in Ht.
  - intros (c & -> & ->). exists 0. split; [simpl; by left|].
    apply (accepts_step _ 0 [(1, JStr (chr c))] 1); [done|by left|].
    constructor. simpl. by left.
Qed.

(** X13. For an atom [get_Eilenberg_machine] returns a machine on which
    [accept] raises nothing and answers [True] for the one-character string
    that is the atom's value and [False] for every other string; when the
    value is not one character it answers [False] for every string. *)
Theorem atom_machine_language fuel value :
  ∃ m, get_Eilenberg_machine fuel (JNode "atm" value) = Ok (Some m) ∧
       ∀ w, ∃ fuel0, ∀ fuel', fuel0 ≤ fuel' →
         ∃ b, accept fuel' m w = Ok b ∧
              (b = true ↔ ∃ c, value = JStr (chr c) ∧ w = chr c).
Proof.
  exists (atom_machine value). split; [done|]. intros w.
  destruct (accept_answers (atom_machine value) w) as [fuel0 Hrun].
  { apply wf_ranged, atom_machine_good. }
  exists fuel0. intros fuel' Hfuel. destruct (Hrun fuel' Hfuel) as (b & E & Hb).
  exists b. split; [done|]. by rewrite Hb, atom_language.
Qed.

(** *** The language of a union *)

Lemma or_edges_spec n s row t r0 :
  t !! (s + n) = Some r0 →
  foldM (or_edge n s) row t = Ok (<[s + n := r0 ++ shift_row n row]> t).
Proof.
  revert t r0. induction row as [|e row IH]; intros t r0 Ht; simpl.
  - rewrite app_nil_r. by rewrite list_insert_id.
  - unfold or_edge at 1, append_to, getitem. rewrite Ht. simpl.
    rewrite (IH _ (r0 ++ [(e.1 + n, e.2)])).
    + rewrite list_insert_insert_eq. unfold shift_row. simpl. by rewrite <- app_assoc.
    + apply list_lookup_insert_eq. by eapply lookup_lt_Some.
Qed.

Lemma or_rows_spec (b : EilenbergMachine) n ta j :
  length ta = n → length (transitions_between_states b) = number_states b →
  j ≤ number_states b →
  foldM (or_row b n) (seq 0 j) (ta ++ replicate (number_states b) [])
  = Ok (ta ++ (shift_row n <$> take j (transitions_between_states b))
           ++ replicate (number_states b - j) []).
Proof.
  intros Hta Htb. induction j as [|j IH]; intros Hj.
  - simpl. by rewrite Nat.sub_0_r.
  - rewrite seq_S. simpl. rewrite (foldM_snoc _ _ _ _ _ (IH ltac:(lia))).
    destruct (lookup_lt_is_Some_2 (transitions_between_states b) j) as [row Hrow]; [lia|].
    unfold or_row, getitem. rewrite Hrow. simpl.
    replace (number_states b - j) with (S (number_states b - S j)) by lia. simpl.
    assert (length (shift_row n <$> take j (transitions_between_states b)) = j) as Hlen.
    { rewrite length_fmap, length_take. lia. }
    rewrite (or_edges_spec n j row _ []).
    + f_equal. rewrite (take_S_r _ _ _ Hrow), fmap_app. simpl.
      replace (j + n) with (length ta + j) by lia. rewrite insert_app_r.
      f_equal. replace j with (length (shift_row n <$> take j (transitions_between_states b)) + 0)
        at 1 by lia.
      rewrite insert_app_r. simpl. by rewrite <- app_assoc.
    + replace (j + n) with (length ta + j) by lia. rewrite lookup_app_r by lia.
      replace (length ta + j - length ta) with j by lia.
      rewrite lookup_app_r by lia. rewrite Hlen. by replace (j - j) with 0 by lia.
Qed.

Section union.
Context (a b m : EilenbergMachine).
Context (Ha : ranged a) (Hb : ranged b).
Context (Hn : number_states m = number_states a + number_states b).
Context (Ht : transitions_between_states m
              = transitions_between_states a
                ++ (shift_row (number_states a) <$> transitions_between_states b)).
Context (Hi : initial_states m
              = initial_states a ++ ((fun s => s + number_states a) <$> initial_states b)).
Context (Hacc : acceptable_states m
              = acceptable_states a ++ ((fun s => s + number_states a) <$> acceptable_states b)).

Lemma union_left s w : s < number_states a → accepts_from m s w ↔ accepts_from a s w.
Proof.
  intros Hs. split.
  - intros H. induction H as [s Hin|s row t c rest Hrow Hin _ IH].
    + constructor. rewrite Hacc in Hin. apply elem_of_app in Hin as [Hin|Hin]; [done|].
      apply list_elem_of_fmap in Hin as (x & -> & _). lia.
    + rewrite Ht, lookup_app_l in Hrow by (rewrite (rg_rows a Ha); lia).
      eapply accepts_step; [done..|]. apply IH. apply (rg_edges a Ha s row _ Hrow Hin).
  - intros H. clear Hs. induction H as [s Hin|s row t c rest Hrow Hin _ IH].
    + constructor. rewrite Hacc. apply elem_of_app. by left.
    + eapply accepts_step; [|done..]. rewrite Ht. rewrite lookup_app_l; [done|].
      by eapply lookup_lt_Some.
Qed.

Lemma union_right s w : accepts_from m (s + number_states a) w ↔ accepts_from b s w.
Proof.
  split.
  - intros H. remember (s + number_states a) as x eqn:Hx. revert s Hx.
    induction H as [x Hin|x row t c rest Hrow Hin _ IH]; intros s ->.
    + constructor. rewrite Hacc in Hin. apply elem_of_app in Hin as [Hin|Hin].
      * pose proof (rg_acc a Ha) as Hlt. rewrite Forall_forall in Hlt.
        specialize (Hlt _ Hin). lia.
      * apply list_elem_of_fmap in Hin as (y & Hy & Hin). by replace s with y by lia.
    + rewrite Ht, lookup_app_r in Hrow by (rewrite (rg_rows a Ha); lia).
      rewrite (rg_rows a Ha) in Hrow. replace (s + number_states a - number_states a) with s in Hrow by lia.
      rewrite list_lookup_fmap in Hrow.
      destruct (transitions_between_states b !! s) as [row0|] eqn:Hrow0; [|done].
      simpl in Hrow. simplify_eq.
      apply list_elem_of_fmap in Hin as ([t0 l] & Heq & Hin).
      unfold shift_edge in Heq. simpl in Heq. simplify_eq.
      eapply accepts_step; [done..|]. by apply IH.
  - intros H. induction H as [s Hin|s row t c rest Hrow Hin _ IH].
    + constructor. rewrite Hacc. apply elem_of_app. right. apply list_elem_of_fmap. by exists s.
    + apply (accepts_step _ _ (shift_row (number_states a) row) (t + number_states a)); [| |done].
      * rewrite Ht, lookup_app_r by (rewrite (rg_rows a Ha); lia).
        rewrite (rg_rows a Ha). replace (s + number_states a - number_states a) with s by lia.
        rewrite list_lookup_fmap, Hrow. done.
      * apply list_elem_of_fmap. by exists (t, JStr (chr c)).
Qed.

Lemma union_language w : language m w ↔ language a w ∨ language b w.
Proof.
  unfold language. split.
  - intros (s & Hs & H). rewrite Hi in Hs. apply elem_of_app in Hs as [Hs|Hs].
    + left. exists s. split; [done|]. apply union_left; [|done].
      pose proof (rg_init a Ha) as Hlt. rewrite Forall_forall in Hlt. by apply Hlt.
    + apply list_elem_of_fmap in Hs as (x & -> & Hx). right. exists x.
      split; [done|]. by apply union_right.
  - intros [(s & Hs & H)|(s & Hs & H)].
    + exists s. split; [rewrite Hi; apply elem_of_app; by left|]. apply union_left; [|done].
      pose proof (rg_init a Ha) as Hlt. rewrite Forall_forall in Hlt. by apply Hlt.
    + exists (s + number_states a). split; [|by apply union_right].
      rewrite Hi. apply elem_of_app. right. apply list_elem_of_fmap. by exists s.
Qed.

End union.

Lemma or_language a b :
  ranged a → ranged b →
  ∃ m, oper_or (Some a) (Some b) = Ok (Some m) ∧
       ∀ w, language m w ↔ language a w ∨ language b w.
Proof.
  intros Ha Hb. unfold oper_or.
  rewrite (or_rows_spec b (number_states a) _ (number_states b)
             (rg_rows a Ha) (rg_rows b Hb)) by lia.
  simpl. eexists. split; [done|]. intros w.
  apply (union_language a b); try done. simpl.
  rewrite Nat.sub_diag. simpl. rewrite app_nil_r.
  by rewrite <- (rg_rows b Hb), firstn_all.
Qed.

(** X14. For two machines with one row per state whose edge targets,
    initial states and accepting states are in range, repeated or not, the
    union construction raises nothing and returns a machine that accepts a
    string exactly when one of the two accepts it. *)
Theorem oper_or_language a b :
  ranged a → ranged b →
  ∃ m, oper_or (Some a) (Some b) = Ok (Some m) ∧
       ∀ w, language m w ↔ language a w ∨ language b w.
Proof. apply or_language. Qed.

Lemma oper_or_language_witness :
  ∃ m, oper_or (Some (mkEM 2 [[(1, JStr "a")]; []] [0; 0] [1]))
               (Some (atom_machine (JStr "b"))) = Ok (Some m) ∧
       ∀ w, language m w ↔
            language (mkEM 2 [[(1, JStr "a")]; []] [0; 0] [1]) w ∨
            language (atom_machine (JStr "b")) w.
Proof.
  apply oper_or_language; apply ranged_check_sound; reflexivity.
Defined.

(** *** The language of a star *)

Lemma append_empty (w : string) : w +:+ EmptyString = w.
Proof.
  induction w as [|c w IH]; [done|].
  change (String c (w +:+ EmptyString) = String c w). by rewrite IH.
Qed.

Section star.
Context (m m' : EilenbergMachine).
Context (Hsep : separated m).
Context (Ht : transitions_between_states m'
              = starred_row (acceptable_states m) (initial_states m)
                <$> transitions_between_states m).
Context (Hi : initial_states m' = initial_states m).
Context (Hacc : acceptable_states m' = acceptable_states m).

Lemma starred_lookup s row :
  transitions_between_states m !! s = Some row →
  transitions_between_states m' !! s
  = Some (starred_row (acceptable_states m) (initial_states m) row).
Proof. intros H. by rewrite Ht, list_lookup_fmap, H. Qed.

Lemma star_keeps s w : accepts_from m s w → accepts_from m' s w.
Proof.
  induction 1 as [s Hin|s row t c rest Hrow Hin _ IH].
  - constructor. by rewrite Hacc.
  - eapply accepts_step; [by apply starred_lookup| |done].
    unfold starred_row. apply elem_of_app. by left.
Qed.

Lemma star_again s w i w2 :
  accepts_from m s w → w ≠ EmptyString →
  i ∈ initial_states m → accepts_from m' i w2 → accepts_from m' s (w +:+ w2).
Proof.
  intros H Hw Hinit H2. induction H as [s Hin|s row t c rest Hrow Hin Hrest IH]; [done|].
  simpl. destruct rest as [|c' rest'].
  - inversion Hrest; subst. simpl.
    eapply accepts_step; [by apply starred_lookup| |done].
    unfold starred_row. apply elem_of_app. right. apply list_elem_of_bind.
    exists (t, JStr (chr c)). split; [|done]. unfold back_edges. simpl.
    rewrite (proj2 (contains_true _ _)) by done.
    apply list_elem_of_fmap. by exists i.
  - eapply accepts_step; [by apply starred_lookup| |by apply IH].
    unfold starred_row. apply elem_of_app. by left.
Qed.

Lemma star_splits s w :
  accepts_from m' s w →
  ∃ w1 ws, w = w1 +:+ foldr String.append EmptyString ws ∧
           accepts_from m s w1 ∧ Forall (language m) ws.
Proof.
  induction 1 as [s Hin|s row' t c rest Hrow Hin _ (w1 & ws & -> & H1 & Hws)].
  - exists EmptyString, []. split_and!; [done| |done]. constructor. by rewrite <- Hacc.
  - rewrite Ht, list_lookup_fmap in Hrow.
    destruct (transitions_between_states m !! s) as [row|] eqn:Hrow0; [|done].
    simpl in Hrow. simplify_eq. unfold starred_row in Hin.
    apply elem_of_app in Hin as [Hin|Hin].
    + exists (String c w1), ws. split_and!; [done| |done]. by eapply accepts_step.
    + apply list_elem_of_bind in Hin as ([t0 l] & Hin & He). unfold back_edges in Hin.
      simpl in Hin. destruct (contains (acceptable_states m) t0) eqn:Hc;
        [|by apply elem_of_nil in Hin].
      apply contains_true in Hc.
      apply list_elem_of_fmap in Hin as (i & Heq & Hi'). simplify_eq.
      exists (chr c), (w1 :: ws). split_and!; [done| |].
      * eapply accepts_step; [done..|]. by constructor.
      * constructor; [|done]. by exists i.
Qed.

Lemma star_language w : language m' w ↔ repetitions (language m) w.
Proof.
  split.
  - intros (s & Hs & H). rewrite Hi in Hs.
    apply star_splits in H as (w1 & ws & -> & H1 & Hws).
    exists (w1 :: ws). split_and!; [done| |done]. constructor; [|done]. by exists s.
  - intros (ws & Hne & Hws & ->). induction Hws as [|w ws Hw Hws IH]; [done|].
    destruct Hw as (s & Hs & Hw). destruct ws as [|w' ws].
    + simpl. exists s. split; [by rewrite Hi|]. apply star_keeps.
      by rewrite append_empty.
    + destruct IH as (i & Hi' & H'); [done|]. rewrite Hi in Hi'.
      exists s. split; [by rewrite Hi|]. simpl.
      apply (star_again s w i); try done.
      intros ->. inversion Hw; subst. by apply (Hsep s).
Qed.

End star.

Lemma oper_asterisk_starred m :
  length (transitions_between_states m) = number_states m → separated m →
  ∃ fuel0, ∀ fuel, fuel0 ≤ fuel →
    oper_asterisk fuel (Some m)
    = Ok (Some (mkEM (number_states m)
                     (starred_row (acceptable_states m) (initial_states m)
                        <$> transitions_between_states m)
                     (initial_states m) (acceptable_states m))).
Proof.
  intros Hrows Hsep.
  destruct (finite_bound
    (fun row => length row + length (row ≫= back_edges (acceptable_states m) (initial_states m)))
    (transitions_between_states m)) as [F HF].
  exists F. intros fuel Hfuel. unfold oper_asterisk.
  rewrite (asterisk_fold _ _ Hsep).
  - cbn [bind]. by rewrite <- Hrows, firstn_all, drop_all, app_nil_r.
  - intros row Hrow. specialize (HF row Hrow). lia.
  - by rewrite Hrows.
Qed.

Lemma asterisk_language m :
  ranged m → separated m →
  ∃ m' fuel0,
    (∀ fuel, fuel0 ≤ fuel → oper_asterisk fuel (Some m) = Ok (Some m')) ∧
    ∀ w, language m' w ↔ repetitions (language m) w.
Proof.
  intros Hm Hsep. destruct (oper_asterisk_starred m (rg_rows m Hm) Hsep) as [fuel0 Hrun].
  eexists _, fuel0. split; [exact Hrun|].
  intros w. by apply star_language.
Qed.

(** X15. For a machine with one row per state whose edge targets, initial
    states and accepting states are in range, repeated or not, and with no
    state both initial and accepting, the star construction returns a
    machine that accepts exactly the strings made of one or more accepted
    strings put one after another: never the empty string. *)
Theorem oper_asterisk_language m :
  ranged m → separated m →
  ∃ m' fuel0,
    (∀ fuel, fuel0 ≤ fuel → oper_asterisk fuel (Some m) = Ok (Some m')) ∧
    ∀ w, language m' w ↔ repetitions (language m) w.
Proof. apply asterisk_language. Qed.

Lemma oper_asterisk_language_witness :
  ∃ m' fuel0,
    (∀ fuel, fuel0 ≤ fuel →
       oper_asterisk fuel (Some (mkEM 2 [[(1, JStr "a")]; []] [0; 0] [1])) = Ok (Some m')) ∧
    ∀ w, language m' w ↔ repetitions (language (mkEM 2 [[(1, JStr "a")]; []] [0; 0] [1])) w.
Proof.
  apply oper_asterisk_language.
  - apply ranged_check_sound. reflexivity.
  - intros s Hs Hs'. simpl in *. set_solver.
Defined.

(** *** An operand with an unknown key *)

Lemma unknown_key_machine fuel key val :
  ¬ known_key key → get_Eilenberg_machine fuel (JNode key val) = Ok None.
Proof.
  intros Hk. unfold known_key in Hk. simpl.
  repeat (case_decide; [tauto|]). done.
Qed.

(** X18. The [None] that an unknown key gives turns into an [AttributeError]
    one level up: under a star, and as either operand of a concatenation or a
    union whose other operand gives a result. *)
Theorem unknown_operand_raises fuel key val :
  ¬ known_key key →
  get_Eilenberg_machine fuel (RStar (JNode key val)) = Raise AttributeError ∧
  ∀ e r, get_Eilenberg_machine fuel e = Ok r →
    get_Eilenberg_machine fuel (RConcat (JNode key val) e) = Raise AttributeError ∧
    get_Eilenberg_machine fuel (RConcat e (JNode key val)) = Raise AttributeError ∧
    get_Eilenberg_machine fuel (RUnion (JNode key val) e) = Raise AttributeError ∧
    get_Eilenberg_machine fuel (RUnion e (JNode key val)) = Raise AttributeError.
Proof.
  intros Hk. pose proof (unknown_key_machine fuel key val Hk) as Hnone.
  split.
  - unfold RStar. cbn [get_Eilenberg_machine]. cbn [get_Eilenberg_machine] in Hnone.
    rewrite Hnone. done.
  - intros e r He. unfold RConcat, RUnion. cbn [get_Eilenberg_machine].
    cbn [get_Eilenberg_machine] in Hnone. rewrite Hnone, He. simpl.
    by destruct r.
Qed.

Lemma unknown_operand_raises_witness :
  get_Eilenberg_machine 5 (RStar (JNode "+" (JStr "a"))) = Raise AttributeError ∧
  get_Eilenberg_machine 5 (RConcat (RAtom "a") (JNode "+" (JStr "a"))) = Raise AttributeError.
Proof.
  assert (¬ known_key "+") as Hk by (unfold known_key; intros [?|[?|[?|?]]]; discriminate).
  destruct (unknown_operand_raises 5 "+" (JStr "a") Hk) as [H1 H2].
  split; [exact H1|]. exact (proj1 (proj2 (H2 (RAtom "a") _ eq_refl))).
Defined.

End BuildMore.

Module ConcatMore.
Import PyFacts EilenbergFacts Eilenberg AcceptMore.

Lemma grows_refl t : grows t t.
Proof. by intros i e. Qed.

Lemma grows_trans t1 t2 t3 : grows t1 t2 → grows t2 t3 → grows t1 t3.
Proof. intros H1 H2 i e H. by apply H2, H1. Qed.

Lemma append_to_grows t i x t' :
  append_to t i x = Ok t' → grows t t' ∧ has_edge t' i x.
Proof.
  unfold append_to, getitem. destruct (t !! i) as [row|] eqn:Hrow; [|done]. simpl.
  intros [= <-]. pose proof (lookup_lt_Some _ _ _ Hrow) as Hlt. split.
  - intros j e (r & Hr & He). destruct (decide (j = i)) as [->|Hne].
    + exists (row ++ [x]). rewrite list_lookup_insert_eq by done. split; [done|].
      simplify_eq. apply elem_of_app. by left.
    + exists r. by rewrite list_lookup_insert_ne.
  - exists (row ++ [x]). rewrite list_lookup_insert_eq by done. split; [done|].
    apply elem_of_app. right. by left.
Qed.

Lemma foldM_grows {A} (f : list (list (nat * json)) → A → res (list (list (nat * json))))
    (Q : A → list (list (nat * json)) → Prop) l t t' :
  (∀ t x t', x ∈ l → f t x = Ok t' → grows t t' ∧ Q x t') →
  (∀ x t t', Q x t → grows t t' → Q x t') →
  foldM f l t = Ok t' → grows t t' ∧ ∀ x, x ∈ l → Q x t'.
Proof.
  intros Hstep Hmono. revert t. induction l as [|x l IH]; intros t H; simpl in H.
  - simplify_eq. split; [apply grows_refl|]. by intros x ?%elem_of_nil.
  - destruct (f t x) as [t1| |] eqn:E; simpl in H; try done.
    destruct (Hstep t x t1) as [Hg Hq]; [by left|done|].
    destruct IH with (t := t1) as [Hg' Hq']; [|done|].
    { intros t2 y t3 Hy. apply Hstep. by right. }
    split; [by eapply grows_trans|]. intros y [->|Hy]%elem_of_cons; [|by apply Hq'].
    by eapply Hmono.
Qed.

Section concat.
Context (a b : EilenbergMachine) (nsn : gmap nat nat).
Context (Hnsn : ∀ x j, nsn !! x = Some j → j = remap a b x ∧ x ∉ initial_states b).

Lemma concat_edge_grows s t e t' :
  concat_edge (acceptable_states a) (initial_states b) nsn s t e = Ok t' →
  grows t t' ∧
  ∀ p, p ∈ acceptable_states a → has_edge t' (merged a b p s) (merged a b p e.1, e.2).
Proof.
  unfold concat_edge, merged.
  destruct (contains (initial_states b) s) eqn:Hs,
           (contains (initial_states b) e.1) eqn:He; simpl; intros H.
  - apply (foldM_grows _ (fun p t => has_edge t p (p, e.2))) in H; [done| |].
    + intros t1 p t2 _ E. by apply append_to_grows in E.
    + intros p t1 t2 Hq Hg. by apply Hg.
  - apply (foldM_grows _ (fun p t => has_edge t p (remap a b e.1, e.2))) in H; [done| |].
    + intros t1 p t2 _ E. apply bind_Ok in E as (_ & _ & E).
      apply bind_Ok in E as (j & Hj%getkey_Ok & E). apply Hnsn in Hj as [-> _].
      by apply append_to_grows in E.
    + intros p t1 t2 Hq Hg. by apply Hg.
  - apply (foldM_grows _ (fun p t => has_edge t (remap a b s) (p, e.2))) in H; [done| |].
    + intros t1 p t2 _ E. apply bind_Ok in E as (i & Hi%getkey_Ok & E).
      apply Hnsn in Hi as [-> _]. by apply append_to_grows in E.
    + intros p t1 t2 Hq Hg. by apply Hg.
  - apply bind_Ok in H as (i & Hi%getkey_Ok & H). apply Hnsn in Hi as [-> _].
    apply bind_Ok in H as (_ & _ & H).
    apply bind_Ok in H as (j & Hj%getkey_Ok & H). apply Hnsn in Hj as [-> _].
    apply append_to_grows in H as [Hg Hh]. split; [done|]. by intros p _.
Qed.

Lemma concat_rows_grow l t t' :
  foldM (concat_row b (acceptable_states a) nsn) l t = Ok t' →
  grows t t' ∧
  ∀ s row e p, s ∈ l → transitions_between_states b !! s = Some row → e ∈ row →
    p ∈ acceptable_states a → has_edge t' (merged a b p s) (merged a b p e.1, e.2).
Proof.
  intros H.
  apply (foldM_grows _ (fun s t => ∀ row e p,
           transitions_between_states b !! s = Some row → e ∈ row →
           p ∈ acceptable_states a → has_edge t (merged a b p s) (merged a b p e.1, e.2))) in H.
  - destruct H as [Hg Hq]. split; [done|]. intros s row e p Hs. by apply Hq.
  - intros t1 s t2 _ E. unfold concat_row in E.
    apply bind_Ok in E as (row & Hrow%getitem_Ok & E).
    apply (foldM_grows _ (fun e t => ∀ p, p ∈ acceptable_states a →
             has_edge t (merged a b p s) (merged a b p e.1, e.2))) in E.
    + destruct E as [Hg Hq]. split; [done|]. intros row' e p Hrow' He. simplify_eq.
      by apply Hq.
    + intros t3 e t4 _ E'. by apply concat_edge_grows.
    + intros e t3 t4 Hq Hg p Hp. by apply Hg, Hq.
  - intros s t1 t2 Hq Hg row e p Hrow He Hp. by eapply Hg, Hq.
Qed.

End concat.

Section language.
Context (a b m : EilenbergMachine).
Context (Hsep : separated b).
Context (Hi : initial_states m = initial_states a).
Context (Hacc : acceptable_states m = remap a b <$> acceptable_states b).
Context (Hkeeps : ∀ s row e, transitions_between_states a !! s = Some row → e ∈ row →
                             has_edge (transitions_between_states m) s e).
Context (Hadds : ∀ s row e p, transitions_between_states b !! s = Some row → e ∈ row →
                   p ∈ acceptable_states a →
                   has_edge (transitions_between_states m) (merged a b p s) (merged a b p e.1, e.2)).

Lemma concat_second p s w :
  p ∈ acceptable_states a → accepts_from b s w → accepts_from m (merged a b p s) w.
Proof.
  intros Hp. induction 1 as [s Hs|s row t c rest Hrow Ht _ IH].
  - constructor. rewrite Hacc. unfold merged.
    rewrite (proj2 (contains_false _ _)) by (intros H; by apply (Hsep s)).
    apply list_elem_of_fmap. by exists s.
  - destruct (Hadds s row (t, JStr (chr c)) p Hrow Ht Hp) as (row' & Hrow' & Ht').
    by eapply accepts_step.
Qed.

Lemma concat_first s u i v :
  accepts_from a s u → i ∈ initial_states b → accepts_from b i v →
  accepts_from m s (u +:+ v).
Proof.
  intros Hu Hinit Hv. induction Hu as [s Hs|s row t c rest Hrow Ht _ IH].
  - pose proof (concat_second s i v Hs Hv) as H. unfold merged in H.
    by rewrite (proj2 (contains_true _ _)) in H.
  - destruct (Hkeeps s row (t, JStr (chr c)) Hrow Ht) as (row' & Hrow' & Ht').
    change (String c rest +:+ v) with (String c (rest +:+ v)). by eapply accepts_step.
Qed.

Lemma concat_language u v : language a u → language b v → language m (u +:+ v).
Proof.
  intros (s & Hs & Hu) (i & Hinit & Hv). exists s. split; [by rewrite Hi|].
  by eapply concat_first.
Qed.

End language.

Lemma oper_concat_ranged a b :
  ranged a → wf b → separated b →
  ∃ m, oper_concat (Some a) (Some b) = Ok (Some m) ∧
       initial_states m = initial_states a ∧
       acceptable_states m = remap a b <$> acceptable_states b.
Proof.
  intros Ha Hb Hsep.
  destruct (count_noninit (initial_states b) (number_states b)) as [Hle Hcnt];
    [apply (wf_init_nodup b Hb)|apply (wf_init b Hb)|].
  destruct (renumber_snd_spec (initial_states b) (number_states a) (number_states b))
    as (nsn & Ensn & Hnsn).
  set (n := number_states a + number_states b - length (initial_states b)).
  assert (∀ x, x < number_states b → x ∉ initial_states b →
               nsn !! x = Some (remap a b x) ∧ remap a b x < n) as Hmap.
  { intros x Hx Hni. rewrite Hnsn. rewrite decide_True by done. split; [done|].
    unfold remap, n.
    pose proof (count_below_lt (fun y => y ∉ initial_states b) x (number_states b) Hx Hni).
    lia. }
  destruct (concat_rows_ok n (acceptable_states a) (initial_states b) nsn (number_states b))
    with (snd := b)
         (t := transitions_between_states a
               ++ replicate (number_states b - length (initial_states b)) [])
    as (t & Et & Ht); try done.
  { intros s Hs. pose proof (rg_acc a Ha) as Hacc. rewrite Forall_forall in Hacc.
    specialize (Hacc s Hs). unfold n. lia. }
  { intros x Hx Hni. exists (remap a b x). by apply Hmap. }
  { replace n with (number_states a + (number_states b - length (initial_states b)))
      by (unfold n; lia).
    apply table_ok_extend. split; [apply (rg_rows a Ha)|apply (rg_edges a Ha)]. }
  assert (∀ x, x ∈ acceptable_states b → x < number_states b ∧ x ∉ initial_states b) as Haccb.
  { intros x Hx. split.
    - pose proof (wf_acc b Hb) as H. rewrite Forall_forall in H. by apply H.
    - intros Hi. by apply (Hsep x). }
  eexists. split.
  { unfold oper_concat. rewrite Ensn. cbn [fst snd]. rewrite Et. cbn [bind].
    rewrite (renumber_acc_spec nsn (remap a b)).
    - cbn [bind app]. reflexivity.
    - intros x Hx. apply Hmap; by apply Haccb. }
  done.
Qed.

Lemma concat_accepts a b :
  ranged a → wf b → separated b →
  ∃ m, oper_concat (Some a) (Some b) = Ok (Some m) ∧
       ∀ u v, language a u → language b v → language m (u +:+ v).
Proof.
  intros Ha Hb Hsep.
  destruct (oper_concat_ranged a b Ha Hb Hsep) as (m & E & Hi & Hacc).
  exists m. split; [done|]. intros u v. apply concat_language; try done.
  all: destruct (renumber_snd_spec (initial_states b) (number_states a) (number_states b))
    as (nsn & Ensn & Hnsn).
  all: unfold oper_concat in E; rewrite Ensn in E; cbn [fst snd] in E.
  all: apply bind_Ok in E as (t & Et & E); apply bind_Ok in E as (acc & _ & E).
  all: injection E as <-; simpl.
  all: apply (concat_rows_grow a b nsn) in Et as [Hg Hadds].
  2,4: intros x j Hx; rewrite Hnsn in Hx; case_decide as Hd; [|done];
       injection Hx as <-; by destruct Hd.
  - intros s row e Hrow He. apply Hg. exists row. split; [|done].
    rewrite lookup_app_l; [done|]. by eapply lookup_lt_Some.
  - intros s row e p Hrow He Hp. eapply Hadds; try done.
    apply elem_of_seq. apply lookup_lt_Some in Hrow. rewrite (wf_rows b Hb) in Hrow. lia.
Qed.

(** X16. Let the first machine have one row per state and edge targets,
    initial states and accepting states in range; let the second have these
    too, list no initial state twice and have no state both initial and
    accepting. Then the concatenation construction returns a machine that
    accepts every string made of a string the first machine accepts followed
    by a string the second accepts. *)
Theorem oper_concat_language a b :
  ranged a → wf b → separated b →
  ∃ m, oper_concat (Some a) (Some b) = Ok (Some m) ∧
       ∀ u v, language a u → language b v → language m (u +:+ v).
Proof. apply concat_accepts. Qed.

Lemma oper_concat_language_witness :
  ∃ m, oper_concat (Some (mkEM 2 [[(1, JStr "a")]; []] [0; 0] [1]))
                   (Some (atom_machine (JStr "b"))) = Ok (Some m) ∧
       ∀ u v, language (mkEM 2 [[(1, JStr "a")]; []] [0; 0] [1]) u →
              language (atom_machine (JStr "b")) v →
              language m (u +:+ v).
Proof.
  apply oper_concat_language.
  - apply ranged_check_sound. reflexivity.
  - apply machine_wf_check_sound. reflexivity.
  - intros s Hs Hs'. simpl in *. set_solver.
Defined.

End ConcatMore.

Module BuilderMore.
Import PyFacts EilenbergFacts Eilenberg AcceptMore BuildMore ConcatMore.

Lemma denotes_star e w : denotes (RStar e) w → repetitions (denotes e) w.
Proof.
  intros H. remember (RStar e) as x eqn:Hx.
  induction H as [c|e0 w H _|e0 w1 w2 H1 _ H2 IH|l r w1 w2 _ _ _ _|l r w _ _|l r w _ _];
    try discriminate Hx.
  - injection Hx as ->. exists [w]. split_and!; [done|by repeat constructor|].
    simpl. by rewrite append_empty.
  - injection Hx as ->. destruct (IH eq_refl) as (ws & Hne & Hws & ->).
    exists (w1 :: ws). split_and!; [done|by constructor|done].
Qed.

Lemma builder_accepts reg_expr :
  well_formed reg_expr →
  ∃ m fuel0,
    (∀ fuel, fuel0 ≤ fuel → get_Eilenberg_machine fuel reg_expr = Ok (Some m)) ∧ good m ∧
    ∀ w, denotes reg_expr w → language m w.
Proof.
  induction 1 as [s|e _ (m & f & E & Hm & Hl)
                  |l r _ (a & fa & Ea & Ha & Hla) _ (b & fb & Eb & Hb & Hlb)
                  |l r _ (a & fa & Ea & Ha & Hla) _ (b & fb & Eb & Hb & Hlb)].
  - exists (atom_machine (JStr s)), 0. split_and!; [done|apply atom_machine_good|].
    intros w Hw. apply atom_language. inversion Hw; subst. by eexists.
  - destruct (oper_asterisk_good m Hm) as (m' & f' & E' & Hm' & _).
    destruct (asterisk_language m (wf_ranged m (proj1 Hm)) (proj2 Hm)) as (m1 & f1 & E1 & Hl').
    assert (m1 = m') as ->.
    { specialize (E' (f' `max` f1) ltac:(lia)). rewrite E1 in E' by lia. by simplify_eq. }
    exists m', (f `max` f'). split_and!; [|done|].
    + intros fuel Hfuel. cbn. rewrite E by lia. cbn [bind]. apply E'. lia.
    + intros w Hw%denotes_star. apply Hl'. destruct Hw as (ws & Hne & Hws & ->).
      exists ws. split_and!; [done| |done]. eapply Forall_impl; [exact Hws|]. done.
  - destruct (oper_concat_good a b Ha Hb) as (m & E & Hm).
    destruct (concat_accepts a b (wf_ranged a (proj1 Ha)) (proj1 Hb) (proj2 Hb))
      as (m0 & E0 & Hl).
    rewrite E in E0. simplify_eq.
    exists m0, (fa `max` fb). split_and!; [|done|].
    + intros fuel Hfuel. cbn. rewrite Ea, Eb by lia. done.
    + intros w Hw. inversion Hw; subst. apply Hl; auto.
  - destruct (oper_or_good a b Ha Hb) as (m & E & Hm).
    destruct (or_language a b (wf_ranged a (proj1 Ha)) (wf_ranged b (proj1 Hb)))
      as (m0 & E0 & Hl).
    rewrite E in E0. simplify_eq.
    exists m0, (fa `max` fb). split_and!; [|done|].
    + intros fuel Hfuel. cbn. rewrite Ea, Eb by lia. done.
    + intros w Hw. apply Hl. inversion Hw; subst; auto.
Qed.

Lemma one_char_well_formed e : one_char_atoms e → well_formed e.
Proof. induction 1; by constructor. Qed.

(** X17. Whenever [get_Eilenberg_machine] returns a machine for a record
    built from the four keys whose atoms hold one character, [accept]
    raises nothing on that machine and answers [True] for every string of
    the regular expression, a star read as one or more repetitions. *)
Theorem get_Eilenberg_machine_accepts fuel reg_expr m :
  one_char_atoms reg_expr →
  get_Eilenberg_machine fuel reg_expr = Ok (Some m) →
  ∀ w, denotes reg_expr w →
    language m w ∧ ∃ fuel1, ∀ fuel', fuel1 ≤ fuel' → accept fuel' m w = Ok true.
Proof.
  intros H%one_char_well_formed E.
  destruct (builder_accepts reg_expr H) as (m0 & fuel0 & E0 & [Hwf _] & Hl).
  assert (m0 = m) as ->.
  { specialize (E0 (fuel `max` fuel0) ltac:(lia)).
    rewrite (get_Eilenberg_machine_fuel _ _ (fuel `max` fuel0) _ E) in E0 by lia.
    by simplify_eq. }
  intros w Hw%Hl. split; [done|].
  destruct (accept_answers m w (wf_ranged m Hwf)) as (fuel1 & Hrun).
  exists fuel1. intros fuel' Hfuel.
  destruct (Hrun fuel' Hfuel) as (b & -> & Hb). f_equal. by apply Hb.
Qed.

Lemma get_Eilenberg_machine_accepts_witness :
  ∃ m, get_Eilenberg_machine 5 (RConcat (RAtom "a") (RStar (RUnion (RAtom "b") (RAtom "c"))))
       = Ok (Some m) ∧
       ∀ w, denotes (RConcat (RAtom "a") (RStar (RUnion (RAtom "b") (RAtom "c")))) w →
         language m w ∧ ∃ fuel1, ∀ fuel', fuel1 ≤ fuel' → accept fuel' m w = Ok true.
Proof.
  eexists. split; [vm_compute; reflexivity|].
  apply (get_Eilenberg_machine_accepts 5
           (RConcat (RAtom "a") (RStar (RUnion (RAtom "b") (RAtom "c"))))).
  - repeat constructor.
  - vm_compute. reflexivity.
Defined.

End BuilderMore.

(** * More of regexConversions.py *)

Module RegexMore.
Import PyFacts Regex.

Lemma append_cons c a b : String c a +:+ b = String c (a +:+ b).
Proof. done. Qed.

(** *** Printing *)

Lemma printed_string reg_expr :
  well_formed reg_expr → ∃ s, conversion_reg_expr_to_str reg_expr = Ok (Some (JStr s)).
Proof.
  induction 1 as [s|e He [s IH]|l r Hl [sl IHl] Hr [sr IHr]|l r Hl [sl IHl] Hr [sr IHr]].
  - by exists s.
  - cbn [conversion_reg_expr_to_str]. rewrite IH.
    destruct He; simpl; repeat case_decide; try done; simpl; eauto.
  - cbn [conversion_reg_expr_to_str]. simpl. rewrite IHl, IHr. simpl.
    unfold bracket_union.
    destruct Hl, Hr; simpl; repeat case_decide; try done; simpl; eauto.
  - cbn [conversion_reg_expr_to_str]. simpl. rewrite IHl. simpl. rewrite IHr. simpl. eauto.
Qed.

(** X19. On a record built from the four tags, with strings in its atoms,
    [conversion_reg_expr_to_str] raises neither [TypeError] nor [KeyError],
    and whatever it returns is a string, never [None]. *)
Theorem conversion_reg_expr_to_str_string reg_expr :
  well_formed reg_expr →
  conversion_reg_expr_to_str reg_expr ≠ Raise TypeError ∧
  conversion_reg_expr_to_str reg_expr ≠ Raise KeyError ∧
  ∀ r, conversion_reg_expr_to_str reg_expr = Ok r → ∃ s, r = Some (JStr s).
Proof.
  intros [s E]%printed_string. rewrite E. split_and!; [done..|].
  intros r [= <-]. by exists s.
Qed.

Lemma conversion_reg_expr_to_str_string_witness :
  conversion_reg_expr_to_str Eilenberg.reg_expr_test ≠ Raise TypeError ∧
  conversion_reg_expr_to_str Eilenberg.reg_expr_test ≠ Raise KeyError ∧
  ∀ r, conversion_reg_expr_to_str Eilenberg.reg_expr_test = Ok r → ∃ s, r = Some (JStr s).
Proof.
  apply conversion_reg_expr_to_str_string. unfold Eilenberg.reg_expr_test.
  repeat constructor.
Defined.

Lemma unknown_key_string key val :
  ¬ known_key key → conversion_reg_expr_to_str (JNode key val) = Ok None.
Proof.
  intros Hk. unfold known_key in Hk. simpl. repeat (case_decide; [tauto|]). done.
Qed.

Lemma none_operand_type_error u key :
  conversion_reg_expr_to_str u = Ok None → get_key u = Ok key → key ≠ "atm" → key ≠ "|" →
  conversion_reg_expr_to_str (RStar u) = Raise TypeError ∧
  (∀ e, conversion_reg_expr_to_str (RUnion u e) = Raise TypeError) ∧
  ∀ e s, conversion_reg_expr_to_str e = Ok (Some (JStr s)) →
    conversion_reg_expr_to_str (RConcat u e) = Raise TypeError ∧
    conversion_reg_expr_to_str (RConcat e u) = Raise TypeError ∧
    conversion_reg_expr_to_str (RUnion e u) = Raise TypeError.
Proof.
  intros Hnone Hkey Hatm Hbar. split_and!.
  - unfold RStar. cbn [conversion_reg_expr_to_str]. rewrite Hnone, Hkey. simpl.
    by rewrite decide_False.
  - intros e. unfold RUnion. cbn [conversion_reg_expr_to_str]. rewrite Hnone. done.
  - intros e s He. unfold RConcat, RUnion. cbn [conversion_reg_expr_to_str].
    rewrite Hnone, He. simpl. unfold bracket_union. rewrite Hkey. simpl.
    rewrite (decide_False (P:=key = "|")) by done.
    destruct (get_key e) as [k| |] eqn:Hke; simpl.
    + split_and!; repeat case_decide; done.
    + destruct e; simpl in *; done.
    + destruct e; simpl in *; done.
Qed.

(** X20. The [None] that an unknown key gives turns into a [TypeError] one
    level up: under a star, as the left operand of a union whatever the
    right one is, and as an operand of a concatenation or the right operand
    of a union when the other operand gives a string. *)
Theorem unknown_operand_type_error key val :
  ¬ known_key key →
  conversion_reg_expr_to_str (RStar (JNode key val)) = Raise TypeError ∧
  (∀ e, conversion_reg_expr_to_str (RUnion (JNode key val) e) = Raise TypeError) ∧
  ∀ e s, conversion_reg_expr_to_str e = Ok (Some (JStr s)) →
    conversion_reg_expr_to_str (RConcat (JNode key val) e) = Raise TypeError ∧
    conversion_reg_expr_to_str (RConcat e (JNode key val)) = Raise TypeError ∧
    conversion_reg_expr_to_str (RUnion e (JNode key val)) = Raise TypeError.
Proof.
  intros Hk. apply (none_operand_type_error _ key).
  - by apply unknown_key_string.
  - done.
  - intros ->. apply Hk. unfold known_key. tauto.
  - intros ->. apply Hk. unfold known_key. tauto.
Qed.

Lemma unknown_operand_type_error_witness :
  conversion_reg_expr_to_str (RStar (JNode "+" (JStr "a"))) = Raise TypeError ∧
  conversion_reg_expr_to_str (RConcat (RAtom "a") (JNode "+" (JStr "a"))) = Raise TypeError.
Proof.
  assert (¬ known_key "+") as Hk by (unfold known_key; intros [?|[?|[?|?]]]; discriminate).
  destruct (unknown_operand_type_error "+" (JStr "a") Hk) as (H1 & _ & H2).
  split; [exact H1|]. exact (proj1 (proj2 (H2 (RAtom "a") "a" eq_refl))).
Defined.

(** *** Parsing *)

Lemma json_step_one_char stack char stack' :
  Forall one_char_atoms stack → json_step stack char = Ok stack' →
  Forall one_char_atoms stack'.
Proof.
  intros HF. unfold json_step. case_decide as H1; [|case_decide as H2].
  - destruct HF as [|value stack Hv HF]; [done|]. intros [= <-].
    constructor; [by constructor|done].
  - destruct HF as [|second stack Hs HF]; [done|]. destruct HF as [|first stack Hf HF]; [done|].
    intros [= <-]. constructor; [|done]. destruct H2 as [->| ->]; by constructor.
  - intros [= <-]. constructor; [constructor|done].
Qed.

Lemma parsed_one_char reg_expr e :
  conversion_reg_expr_to_json reg_expr = Ok e → one_char_atoms e.
Proof.
  unfold conversion_reg_expr_to_json. intros H.
  apply bind_Ok in H as (postfix & _ & H). apply bind_Ok in H as (stack & Hrun & H).
  assert (Forall one_char_atoms stack) as HF.
  { revert Hrun. generalize (@nil json) (Forall_nil_2 one_char_atoms).
    induction (String.list_ascii_of_string postfix) as [|c l IH]; intros st Hst Hrun.
    - simpl in Hrun. by simplify_eq.
    - simpl in Hrun. apply bind_Ok in Hrun as (st1 & Hstep & Hrun).
      eapply IH; [|done]. by eapply json_step_one_char. }
  destruct HF as [|value stack Hv _]; [done|]. by simplify_eq.
Qed.

(** X25. Whatever string it is given, a record that
    [conversion_reg_expr_to_json] returns is built from the four keys with
    one-character atoms; on it, whatever [conversion_reg_expr_to_str]
    returns is a string and whatever [get_Eilenberg_machine] returns is a
    machine, never [None]. *)
Theorem conversion_reg_expr_to_json_well_formed reg_expr e :
  conversion_reg_expr_to_json reg_expr = Ok e →
  one_char_atoms e ∧
  (∀ r, conversion_reg_expr_to_str e = Ok r → ∃ s, r = Some (JStr s)) ∧
  ∀ fuel r, Eilenberg.get_Eilenberg_machine fuel e = Ok r → ∃ m, r = Some m.
Proof.
  intros H%parsed_one_char. split; [done|].
  apply BuilderMore.one_char_well_formed in H. split.
  - destruct (printed_string e H) as [s E]. rewrite E. intros r [= <-]. by exists s.
  - intros fuel r E.
    destruct (EilenbergFacts.get_Eilenberg_machine_good e H) as (m & fuel0 & Hm & _).
    specialize (Hm (fuel `max` fuel0) ltac:(lia)).
    rewrite (EilenbergFacts.get_Eilenberg_machine_fuel _ _ (fuel `max` fuel0) _ E) in Hm by lia.
    exists m. by simplify_eq.
Qed.

Lemma conversion_reg_expr_to_json_well_formed_witness :
  conversion_reg_expr_to_json "(a|b)*.c"
  = Ok (RConcat (RStar (RUnion (RAtom "a") (RAtom "b"))) (RAtom "c")) ∧
  one_char_atoms (RConcat (RStar (RUnion (RAtom "a") (RAtom "b"))) (RAtom "c")) ∧
  (∀ r, conversion_reg_expr_to_str (RConcat (RStar (RUnion (RAtom "a") (RAtom "b"))) (RAtom "c"))
        = Ok r → ∃ s, r = Some (JStr s)) ∧
  ∀ fuel r,
    Eilenberg.get_Eilenberg_machine fuel
      (RConcat (RStar (RUnion (RAtom "a") (RAtom "b"))) (RAtom "c")) = Ok r →
    ∃ m, r = Some m.
Proof.
  assert (conversion_reg_expr_to_json "(a|b)*.c"
          = Ok (RConcat (RStar (RUnion (RAtom "a") (RAtom "b"))) (RAtom "c"))) as H
    by reflexivity.
  split; [exact H|]. exact (conversion_reg_expr_to_json_well_formed _ _ H).
Defined.

(** *** Blanks *)

Lemma postfix_step_blank sp : postfix_step sp " " = Ok sp.
Proof.
  unfold postfix_step. repeat (case_decide; [naive_solver|]). by destruct sp.
Qed.

Lemma foldM_blanks l sp :
  foldM postfix_step (filter (fun c => c ≠ " "%char) l) sp = foldM postfix_step l sp.
Proof.
  revert sp. induction l as [|c l IH]; intros sp; [done|].
  destruct (decide (c = " "%char)) as [->|Hc].
  - rewrite filter_cons_False by (intros H; by apply H). cbn [foldM].
    rewrite postfix_step_blank. simpl. apply IH.
  - rewrite filter_cons_True by done. simpl. destruct (postfix_step sp c); simpl; auto.
Qed.

(** X21. Blanks in the input change nothing: the string without them gives
    the same postfix form and the same record, or the same exception. *)
Theorem blanks_skipped reg_expr :
  conversion_to_postfix_expr (without_blanks reg_expr) = conversion_to_postfix_expr reg_expr ∧
  conversion_reg_expr_to_json (without_blanks reg_expr) = conversion_reg_expr_to_json reg_expr.
Proof.
  assert (conversion_to_postfix_expr (without_blanks reg_expr)
          = conversion_to_postfix_expr reg_expr) as H.
  { unfold conversion_to_postfix_expr, without_blanks.
    by rewrite String.list_ascii_of_string_of_list_ascii, foldM_blanks. }
  split; [done|]. unfold conversion_reg_expr_to_json. by rewrite H.
Qed.

(** X22. An input that is empty or holds blanks only makes
    [conversion_reg_expr_to_json] raise [IndexError]: the final [stack.pop()]
    finds the stack empty. *)
Theorem blank_input_raises reg_expr :
  without_blanks reg_expr = EmptyString →
  conversion_to_postfix_expr reg_expr = Ok EmptyString ∧
  conversion_reg_expr_to_json reg_expr = Raise IndexError.
Proof.
  intros H.
  assert (conversion_to_postfix_expr reg_expr = Ok EmptyString) as Hp.
  { unfold conversion_to_postfix_expr. rewrite <- foldM_blanks.
    unfold without_blanks in H.
    destruct (filter _ (String.list_ascii_of_string reg_expr)); [done|discriminate H]. }
  split; [done|]. unfold conversion_reg_expr_to_json. by rewrite Hp.
Qed.

Lemma blank_input_raises_witness :
  conversion_to_postfix_expr "   " = Ok EmptyString ∧
  conversion_reg_expr_to_json "   " = Raise IndexError.
Proof. apply blank_input_raises. reflexivity. Defined.

(** *** Brackets *)

Lemma open_brackets_cons c st :
  open_brackets (c :: st) = if decide (c = "("%char) then S (open_brackets st) else open_brackets st.
Proof. unfold open_brackets. rewrite filter_cons. by case_decide. Qed.

Lemma close_bracket_spec st out :
  Forall stack_symbol st →
  match open_brackets st with
  | 0 => close_bracket st out = Raise IndexError
  | S n => ∃ st' out', close_bracket st out = Ok (st', out') ∧
                       Forall stack_symbol st' ∧ open_brackets st' = n
  end.
Proof.
  intros H. revert out. induction H as [|c st Hc Hst IH]; intros out; [done|].
  rewrite open_brackets_cons. simpl. case_decide; [|apply IH]. by exists st, out.
Qed.

Lemma pop_prioritized_spec char st out :
  char = "."%char ∨ char = "|"%char → Forall stack_symbol st →
  ∃ st' out', pop_prioritized char st out = Ok (st', out') ∧
              Forall stack_symbol st' ∧ open_brackets st' = open_brackets st.
Proof.
  intros Hchar H. revert out. induction H as [|c st Hc Hst IH]; intros out.
  - by exists [], out.
  - destruct Hchar as [->| ->], Hc as [->|[->| ->]]; simpl;
      try (eexists _, _; split; [done|]; split;
           [constructor; [unfold stack_symbol; tauto|done]|done]).
    destruct (IH (out +:+ chr ".")) as (st' & out' & E & HF & Ho).
    exists st', out'. rewrite E. split; [done|]. split; [done|].
    rewrite Ho. by rewrite open_brackets_cons.
Qed.

Lemma postfix_step_operand st out c :
  c ≠ "("%char → c ≠ ")"%char → c ≠ "."%char → c ≠ "|"%char →
  ∃ out', postfix_step (st, out) c = Ok (st, out').
Proof.
  intros. unfold postfix_step. rewrite !decide_False by tauto.
  case_decide; by eexists.
Qed.

Lemma postfix_run l st out :
  Forall stack_symbol st →
  if unmatched (open_brackets st) l
  then foldM postfix_step l (st, out) = Raise IndexError
  else ∃ sp, foldM postfix_step l (st, out) = Ok sp.
Proof.
  revert st out. induction l as [|c l IH]; intros st out Hst; [by eexists|].
  cbn [unmatched foldM].
  destruct (decide (c = "("%char)) as [->|H1].
  { specialize (IH ("("%char :: st) out). rewrite open_brackets_cons in IH. simpl in IH.
    change (postfix_step (st, out) "(") with (Ok ("("%char :: st, out)). cbn [bind].
    apply IH. constructor; [by left|done]. }
  destruct (decide (c = ")"%char)) as [->|H2].
  { change (postfix_step (st, out) ")") with (close_bracket st out).
    pose proof (close_bracket_spec st out Hst) as Hcl.
    destruct (open_brackets st) as [|n] eqn:Hn; [by rewrite Hcl|].
    destruct Hcl as (st' & out' & -> & HF & <-). cbn [bind]. by apply IH. }
  destruct (decide (c = "."%char ∨ c = "|"%char)) as [H3|H3].
  { destruct (pop_prioritized_spec c st out H3 Hst) as (st' & out' & E & HF & <-).
    assert (postfix_step (st, out) c = Ok (c :: st', out')) as ->.
    { unfold postfix_step. rewrite !decide_False by done. rewrite decide_True by done.
      simpl. by rewrite E. }
    cbn [bind]. specialize (IH (c :: st') out'). rewrite open_brackets_cons in IH.
    rewrite decide_False in IH by done. apply IH. constructor; [|done].
    unfold stack_symbol. tauto. }
  destruct (postfix_step_operand st out c) as [out' ->]; try tauto.
  cbn [bind]. by apply IH.
Qed.

(** X23. [conversion_to_postfix_expr] raises exactly when the input has a
    closing bracket with no opening bracket before it, and then it is
    [IndexError]; on every other input, opening brackets left open
    included, it returns a string. *)
Theorem conversion_to_postfix_expr_brackets reg_expr :
  if unmatched 0 (String.list_ascii_of_string reg_expr)
  then conversion_to_postfix_expr reg_expr = Raise IndexError
  else ∃ postfix, conversion_to_postfix_expr reg_expr = Ok postfix.
Proof.
  pose proof (postfix_run (String.list_ascii_of_string reg_expr) [] EmptyString) as H.
  unfold conversion_to_postfix_expr. change (open_brackets []) with 0 in H.
  destruct (unmatched 0 _).
  - by rewrite H.
  - destruct H as [sp ->]; [done|]. simpl. by eexists.
Qed.

(** *** The round trip *)

Lemma append_assoc (a b c : string) : (a +:+ b) +:+ c = a +:+ (b +:+ c).
Proof.
  induction a as [|x a IH]; [done|]. rewrite !append_cons. by rewrite IH.
Qed.

Lemma chars_append a b :
  String.list_ascii_of_string (a +:+ b)
  = String.list_ascii_of_string a ++ String.list_ascii_of_string b.
Proof.
  induction a as [|x a IH]; [done|]. rewrite append_cons. simpl. by rewrite IH.
Qed.

Lemma text_app a b :
  String.string_of_list_ascii (a ++ b)
  = String.string_of_list_ascii a +:+ String.string_of_list_ascii b.
Proof.
  induction a as [|x a IH]; [done|]. simpl. rewrite append_cons. by rewrite IH.
Qed.

Lemma postfix_step_char st out c :
  operand c ∨ c = "*"%char → postfix_step (st, out) c = Ok (st, out +:+ chr c).
Proof.
  unfold operand, postfix_step. intros [H| ->]; [|done].
  rewrite !decide_False by tauto. rewrite decide_True by tauto. done.
Qed.

Lemma close_bracket_pops ops st out :
  Forall (fun c => c = "."%char ∨ c = "|"%char) ops →
  close_bracket (ops ++ "("%char :: st) out = Ok (st, out +:+ String.string_of_list_ascii ops).
Proof.
  intros H. revert out. induction H as [|c ops Hc Hops IH]; intros out; simpl.
  - change (String.string_of_list_ascii []) with EmptyString.
    assert (∀ w, w +:+ EmptyString = w) as ->; [|done].
    intros w. induction w as [|x w IHw]; [done|]. by rewrite append_cons, IHw.
  - rewrite decide_False by (destruct Hc as [->| ->]; done).
    rewrite IH. by rewrite append_assoc.
Qed.

Lemma pop_dot st out :
  Forall stack_symbol st → pop_prioritized "." st out = Ok (st, out).
Proof. intros H. destruct H as [|c st [->|[->| ->]] _]; done. Qed.

Lemma pop_bar ops st out :
  Forall (fun c => c = "."%char) ops → Forall stack_symbol st → head st ≠ Some "."%char →
  pop_prioritized "|" (ops ++ st) out = Ok (st, out +:+ String.string_of_list_ascii ops).
Proof.
  intros H Hst Hhead. revert out. induction H as [|c ops -> Hops IH]; intros out; simpl.
  - change (String.string_of_list_ascii []) with EmptyString.
    assert (∀ w, w +:+ EmptyString = w) as ->.
    { intros w. induction w as [|x w IHw]; [done|]. by rewrite append_cons, IHw. }
    destruct Hst as [|c st [->|[->| ->]] _]; done.
  - rewrite IH. by rewrite append_assoc.
Qed.

Lemma pending_ops e :
  right_nested e → Forall (fun c => c = "."%char ∨ c = "|"%char) (pending e).
Proof.
  induction 1 as [c Hc|e He IH|l r Hl IHl Hr IHr Hn|l r Hl IHl Hr IHr Hn]; simpl; try done.
  - apply Forall_app. split; [by destruct (is_union r)|]. by repeat constructor; left.
  - apply Forall_app. split; [done|]. by repeat constructor; right.
Qed.

Lemma pending_dots e :
  right_nested e → is_union e = false → Forall (fun c => c = "."%char) (pending e).
Proof.
  induction 1 as [c Hc|e He IH|l r Hl IHl Hr IHr Hn|l r Hl IHl Hr IHr Hn]; simpl; try done.
  intros _. apply Forall_app. split; [|by repeat constructor].
  destruct (is_union r) eqn:Hu; [done|]. by apply IHr.
Qed.

Lemma postfix_split e : right_nested e → postfix_form e = emitted e ++ pending e.
Proof.
  induction 1 as [c Hc|e He IH|l r Hl IHl Hr IHr Hn|l r Hl IHl Hr IHr Hn]; simpl.
  - done.
  - all: idtac. by rewrite app_nil_r.
  - destruct (is_union r); [by rewrite <- !app_assoc|]. rewrite IHr. by rewrite <- !app_assoc.
  - rewrite IHr. by rewrite <- !app_assoc.
Qed.

Lemma foldM_cons {A B} (f : B → A → res B) x l b b' :
  f b x = Ok b' → foldM f (x :: l) b = foldM f l b'.
Proof. intros H. simpl. by rewrite H. Qed.

Lemma reads_bracketed e s st out :
  right_nested e → reads e s → Forall stack_symbol st →
  foldM postfix_step (String.list_ascii_of_string (("(" +:+ s) +:+ ")")) (st, out)
  = Ok (st, out +:+ String.string_of_list_ascii (postfix_form e)).
Proof.
  intros He Hs Hst. rewrite chars_append. rewrite append_cons. simpl.
  rewrite foldM_app, Hs; [|constructor; [by left|done]|done]. simpl.
  change (postfix_step (?a, ?b) ")") with (close_bracket a b).
  rewrite close_bracket_pops by by apply pending_ops. simpl.
  by rewrite append_assoc, <- text_app, <- postfix_split.
Qed.

Lemma bracket_union_reads e s :
  right_nested e → reads e s →
  ∃ s', bracket_union e (str s) = Ok (str s') ∧ reads_operand e s'.
Proof.
  intros He Hs. unfold bracket_union.
  destruct He as [c Hc|e He'|l r Hl Hr Hn|l r Hl Hr Hn]; simpl.
  1-3: exists s; split; [done|]; intros st out Hst; by apply Hs.
  exists (("(" +:+ s) +:+ ")"). split; [done|]. intros st out Hst.
  rewrite (reads_bracketed (RUnion l r) s st out); [done|by constructor|done..].
Qed.

Lemma tight_operand e :
  right_nested e → (∀ l r, e ≠ RConcat l r) → is_union e = false →
  pending e = [] ∧ emitted e = postfix_form e.
Proof.
  intros He Hc Hu. destruct He as [c Hc'|e He'|l r Hl Hr Hn|l r Hl Hr Hn]; try done.
  by destruct (Hc l r).
Qed.

Lemma star_reads e s :
  right_nested e → reads e s → reads (RStar e) (("(" +:+ s) +:+ ")*").
Proof.
  intros He Hs st out Hst _.
  assert (String.list_ascii_of_string (("(" +:+ s) +:+ ")*")
          = String.list_ascii_of_string (("(" +:+ s) +:+ ")") ++ ["*"%char]) as ->.
  { rewrite !chars_append. simpl. by rewrite <- !app_assoc. }
  rewrite foldM_app, (reads_bracketed e) by done. simpl.
  by rewrite text_app, append_assoc.
Qed.

Lemma not_union e : right_nested e → (∀ l r, e ≠ RUnion l r) → is_union e = false.
Proof.
  intros He Hn. destruct He as [c Hc'|e He'|l r Hl Hr Hn'|l r Hl Hr Hn']; try done.
  by destruct (Hn l r).
Qed.

Lemma concat_reads l r sl sr :
  right_nested l → (∀ l1 l2, l ≠ RConcat l1 l2) →
  reads_operand l sl → reads_operand r sr → reads (RConcat l r) ((sl +:+ ".") +:+ sr).
Proof.
  intros Hl Hn Hsl Hsr st out Hst _. rewrite !chars_append, !foldM_app, Hsl by done.
  assert ((if is_union l then [] else pending l) = []
          ∧ (if is_union l then postfix_form l else emitted l) = postfix_form l) as [-> ->].
  { destruct (is_union l) eqn:Hu; [done|]. by apply tight_operand. }
  cbn [bind String.list_ascii_of_string foldM app].
  change (postfix_step (?a, ?b) ".")
    with (bind (pop_prioritized "." a b) (fun sp' => Ok ("."%char :: sp'.1, sp'.2))).
  rewrite pop_dot by done. cbn [bind fst snd].
  rewrite Hsr by (constructor; [unfold stack_symbol; tauto|done]).
  simpl. f_equal. f_equal; [by rewrite <- app_assoc|].
  by rewrite text_app, append_assoc.
Qed.

Lemma union_reads l r sl sr :
  right_nested l → (∀ l1 l2, l ≠ RUnion l1 l2) →
  reads l sl → reads r sr → reads (RUnion l r) ((sl +:+ "|") +:+ sr).
Proof.
  intros Hl Hn Hsl Hsr st out Hst Hhead. rewrite !chars_append, !foldM_app.
  pose proof (not_union l Hl Hn) as Hu.
  rewrite Hsl by (done || by rewrite Hu).
  cbn [bind String.list_ascii_of_string foldM app].
  change (postfix_step (?a, ?b) "|")
    with (bind (pop_prioritized "|" a b) (fun sp' => Ok ("|"%char :: sp'.1, sp'.2))).
  rewrite pop_bar; [|by apply pending_dots|done|by apply Hhead].
  cbn [bind fst snd].
  rewrite Hsr; [|constructor; [unfold stack_symbol; tauto|done]|done].
  simpl. f_equal. f_equal; [by rewrite <- app_assoc|].
  rewrite (postfix_split l) by done. by rewrite !text_app, !append_assoc.
Qed.

Lemma printed_reads e :
  right_nested e → ∃ s, conversion_reg_expr_to_str e = Ok (str s) ∧ reads e s.
Proof.
  induction 1 as [c Hc|e He (s & Hs & Hr)|l r Hl (sl & Hsl & Hrl) Hr (sr & Hsr & Hrr) Hn
                 |l r Hl (sl & Hsl & Hrl) Hr (sr & Hsr & Hrr) Hn].
  - exists (chr c). split; [done|]. intros st out Hst _. simpl.
    rewrite postfix_step_char by by left. done.
  - unfold RStar. cbn [conversion_reg_expr_to_str]. rewrite Hs.
    destruct He as [c Hc|e He'|l r Hl Hr' Hn|l r Hl Hr' Hn] eqn:E.
    + eexists. split; [done|]. intros st out Hst _. simpl in Hs. simplify_eq. simpl.
      rewrite !postfix_step_char by (by left || by right). simpl.
      by rewrite append_assoc.
    + exists (("(" +:+ s) +:+ ")*"). split; [done|]. apply star_reads; [by constructor|done].
    + exists (("(" +:+ s) +:+ ")*"). split; [done|]. apply star_reads; [by constructor|done].
    + exists (("(" +:+ s) +:+ ")*"). split; [done|]. apply star_reads; [by constructor|done].
  - destruct (bracket_union_reads l sl Hl Hrl) as (sl' & Hbl & Hrl').
    destruct (bracket_union_reads r sr Hr Hrr) as (sr' & Hbr & Hrr').
    exists ((sl' +:+ ".") +:+ sr'). split; [|by apply concat_reads].
    unfold RConcat. cbn [conversion_reg_expr_to_str]. simpl.
    rewrite Hsl, Hsr. cbn [bind]. rewrite Hbl. cbn [bind]. rewrite Hbr. done.
  - exists ((sl +:+ "|") +:+ sr). split; [|by apply union_reads].
    unfold RUnion. cbn [conversion_reg_expr_to_str]. simpl.
    rewrite Hsl. cbn [bind]. simpl. rewrite Hsr. done.
Qed.

Lemma json_run e rest stack :
  right_nested e →
  foldM json_step (postfix_form e ++ rest) stack = foldM json_step rest (e :: stack).
Proof.
  intros He. revert rest stack.
  induction He as [c Hc|e He IH|l r Hl IHl Hr IHr Hn|l r Hl IHl Hr IHr Hn]; intros rest stack.
  - simpl. unfold json_step at 1. unfold operand in Hc.
    rewrite !decide_False by tauto. done.
  - simpl. rewrite <- app_assoc, IH. done.
  - simpl. rewrite <- !app_assoc, IHl, IHr. done.
  - simpl. rewrite <- !app_assoc, IHl, IHr. done.
Qed.

(** X24. Take a record whose atoms are single characters other than the
    operators, the brackets and the blank, in which no concatenation has a
    concatenation as its left operand and no union has a union as its left
    operand. Whenever [conversion_reg_expr_to_str] returns a string for it,
    [conversion_reg_expr_to_json] returns the record from that string. *)
Theorem round_trip_right_nested ast s :
  right_nested ast →
  conversion_reg_expr_to_str ast = Ok (Some (JStr s)) →
  conversion_reg_expr_to_json s = Ok ast.
Proof.
  intros He E. destruct (printed_reads ast He) as (s' & Hs & Hr).
  rewrite E in Hs. injection Hs as <-.
  unfold conversion_reg_expr_to_json, conversion_to_postfix_expr.
  rewrite (Hr [] EmptyString) by done. simpl.
  change (EmptyString +:+ ?x) with x.
  rewrite app_nil_r, <- text_app, <- postfix_split by done.
  rewrite String.list_ascii_of_string_of_list_ascii.
  rewrite <- (app_nil_r (postfix_form ast)), json_run by done. done.
Qed.

Lemma round_trip_right_nested_witness :
  conversion_reg_expr_to_str
    (RUnion (RConcat (RStar (RUnion (RAtom "a") (RAtom "b"))) (RAtom "c")) (RAtom "d"))
  = Ok (Some (JStr "(a|b)*.c|d")) ∧
  conversion_reg_expr_to_json "(a|b)*.c|d"
  = Ok (RUnion (RConcat (RStar (RUnion (RAtom "a") (RAtom "b"))) (RAtom "c")) (RAtom "d")).
Proof.
  split; [reflexivity|]. apply round_trip_right_nested; [|reflexivity].
  repeat (constructor; try done); unfold operand; repeat split; done.
Defined.

End RegexMore.
